(** * Soundchecks: entity matching, confidence scoring and caching

    A shallow embedding of the matching engine of the soundchecks
    repository (TypeScript) together with the properties its
    specification states about it.

    Conventions of the embedding.
    - A JavaScript string is a Rocq [string]; the modelled domain is
      7-bit ASCII text, one character per UTF-16 code unit.
    - A JavaScript number that is used as an integer (scores, sizes,
      counters, millisecond clocks) is a [Z]; a threshold is an exact
      rational [Q].  A weight is an IEEE 754 double: the product of a
      score and a weight is the double product, rounded as the
      processor rounds it (module [JSNumber]).  In [MatchConfig] a
      weight is written as the rational literal of the configuration
      and read as the double nearest to it; configurations whose
      weights are any numbers, NaN and the infinities included, are
      modelled in module [Numeric].
    - Mutable objects are threaded explicitly: every operation of a
      cache takes the state before and returns the state after, and
      [Date.now()] is an explicit argument [now]. *)

From Corelib Require Import SpecFloat.
From Stdlib Require Import ZArith QArith Qround Qminmax.
From Stdlib Require Import List String Ascii Bool Lia.
From Stdlib Require Import Sorting.Sorted Sorting.Permutation.
Import ListNotations.

Set Implicit Arguments.
Local Open Scope Z_scope.

(* ================================================================== *)
(** ** Language primitives used by the sources *)
(* ================================================================== *)

Module JS.

Definition chars (s : string) : list ascii := list_ascii_of_string s.
Definition str (l : list ascii) : string := string_of_list_ascii l.

(** [!s] for a string [s]: only the empty string is falsy. *)
Definition falsy (s : string) : bool :=
  match s with EmptyString => true | String _ _ => false end.

(** [s.length] *)
Definition len (s : string) : Z := Z.of_nat (String.length s).

(** The class [\s] of regular expressions, which is also what [trim]
    removes: TAB, LF, VT, FF, CR and SPACE. *)
Definition isWhiteSpace (c : ascii) : bool :=
  let n := nat_of_ascii c in
  ((n =? 32) || ((9 <=? n) && (n <=? 13)))%nat.

(** The class [\w]: letters, digits and underscore. *)
Definition isWordChar (c : ascii) : bool :=
  let n := nat_of_ascii c in
  (((48 <=? n) && (n <=? 57)) || ((65 <=? n) && (n <=? 90))
   || ((97 <=? n) && (n <=? 122)) || (n =? 95))%nat.

Definition toLowerChar (c : ascii) : ascii :=
  let n := nat_of_ascii c in
  if ((65 <=? n) && (n <=? 90))%nat then ascii_of_nat (n + 32) else c.

Fixpoint dropWhile {A : Type} (p : A -> bool) (l : list A) : list A :=
  match l with
  | [] => []
  | x :: r => if p x then dropWhile p r else l
  end.

(** [s.toLowerCase()] *)
Definition toLowerCase (s : string) : string :=
  str (map toLowerChar (chars s)).

Definition trimChars (l : list ascii) : list ascii :=
  rev (dropWhile isWhiteSpace (rev (dropWhile isWhiteSpace l))).

(** [s.trim()] *)
Definition trim (s : string) : string := str (trimChars (chars s)).

Fixpoint startsWithChars (p l : list ascii) : bool :=
  match p, l with
  | [], _ => true
  | _ :: _, [] => false
  | a :: p', b :: l' => Ascii.eqb a b && startsWithChars p' l'
  end.

Fixpoint includesChars (l p : list ascii) : bool :=
  startsWithChars p l
  || match l with [] => false | _ :: r => includesChars r p end.

(** [s.includes(t)] *)
Definition includes (s t : string) : bool := includesChars (chars s) (chars t).

(** [s.replace(/C+/g, ' ')] for a character class [C] given by [p]:
    every maximal run of characters of the class becomes one space.
    [inRun] records that the previous character belonged to the run
    being replaced. *)
Fixpoint replaceRuns (p : ascii -> bool) (inRun : bool) (l : list ascii)
  : list ascii :=
  match l with
  | [] => []
  | c :: r =>
      if p c
      then (if inRun then replaceRuns p true r
            else " "%char :: replaceRuns p true r)
      else c :: replaceRuns p false r
  end.

(** [s.replace(/\s+/g, ' ')] *)
Definition collapseRuns (l : list ascii) : list ascii :=
  replaceRuns isWhiteSpace false l.

(** [s.split(/\s+/)], with the empty leading and trailing pieces that
    JavaScript keeps. *)
Fixpoint splitRuns (acc : list ascii) (inRun : bool) (l : list ascii)
  : list (list ascii) :=
  match l with
  | [] => [rev acc]
  | c :: r =>
      if isWhiteSpace c
      then (if inRun then splitRuns acc true r
            else rev acc :: splitRuns [] true r)
      else splitRuns (c :: acc) false r
  end.

(** [words.join(' ')] *)
Fixpoint joinSpace (ws : list (list ascii)) : list ascii :=
  match ws with
  | [] => []
  | [w] => w
  | w :: rest => w ++ " "%char :: joinSpace rest
  end.

(** [Math.round]: the nearest integer, halves towards plus infinity. *)
Definition Math_round (x : Q) : Z := Qfloor (x + (1 # 2)).

(** [arr.slice(0, e)] for an integer [e]; a negative [e] counts from
    the end of the array. *)
Definition slice0 {A : Type} (l : list A) (e : Z) : list A :=
  let n := Z.of_nat (List.length l) in
  let final := if e <? 0 then Z.max (n + e) 0 else Z.min e n in
  firstn (Z.to_nat final) l.

(** [arr.sort(cmp)].  The engine's algorithm is not part of the
    repository; ECMAScript requires the sort to be stable, and for a
    consistent comparator every stable sort returns the same array.
    It is modelled as a stable insertion sort: [x] goes in front of
    the first [y] with [cmp x y <= 0]. *)
Section Sort.
Context {A : Type} (cmp : A -> A -> Z).

Fixpoint insertSorted (x : A) (l : list A) : list A :=
  match l with
  | [] => [x]
  | y :: r => if cmp x y <=? 0 then x :: l else y :: insertSorted x r
  end.

Fixpoint sort (l : list A) : list A :=
  match l with
  | [] => []
  | x :: r => insertSorted x (sort r)
  end.
End Sort.


End JS.

(* ================================================================== *)
(** ** Numbers *)
(* ================================================================== *)

(** A JavaScript number is an IEEE 754 binary64 value.  The library's
    [spec_float] at precision 53 and maximal exponent 1024 is that
    format, and its operations round to nearest, ties to even, as the
    engine does. *)
Module JSNumber.

Definition prec : Z := 53.
Definition emax : Z := 1024.

Definition number : Type := spec_float.

(** [x * y] *)
Definition mul (x y : number) : number := SFmul prec emax x y.

(** The number of an integer; exact for the integers up to 2^53. *)
Definition ofZ (z : Z) : number := binary_normalize prec emax z 0 false.

(** The number that a literal denotes: the double nearest to the
    rational.  [SFdiv] divides the numerator by the denominator and
    rounds the quotient once. *)
Definition ofQ (q : Q) : number :=
  match Qnum q with
  | Z0 => S754_zero false
  | Zpos n =>
      SFdiv prec emax (S754_finite false n 0) (S754_finite false (Qden q) 0)
  | Zneg n =>
      SFdiv prec emax (S754_finite true n 0) (S754_finite false (Qden q) 0)
  end.

(** [Number.isFinite(x)]: a zero or a finite double. *)
Definition isFinite (x : number) : bool :=
  match x with
  | S754_zero _ => true
  | S754_finite _ m e => bounded prec emax m e
  | _ => false
  end.

(** The value of a finite number. *)
Definition toQ (x : number) : Q :=
  match x with
  | S754_finite s m e =>
      let n := if s then Zneg m else Zpos m in
      if 0 <=? e then inject_Z (n * 2 ^ e) else n # Z.to_pos (2 ^ (- e))
  | _ => 0
  end.

(** What [Math.round] returns: NaN, an infinity, or a number that is
    an integer.  The zero of negative sign is not told from the other
    one; [Math.max(0, -0)] is 0. *)
Inductive Integral : Type :=
| NotANumber
| Infinite (negative : bool)
| Integer (z : Z).

(** [Math.round(x)]: the integer nearest to [x], a half going up. *)
Definition Math_round (x : number) : Integral :=
  match x with
  | S754_nan => NotANumber
  | S754_infinity s => Infinite s
  | S754_zero _ => Integer 0
  | S754_finite _ _ _ => Integer (JS.Math_round (toQ x))
  end.

Definition leb (x y : Integral) : bool :=
  match x, y with
  | Integer a, Integer b => a <=? b
  | Infinite true, _ => true
  | _, Infinite false => true
  | _, _ => false
  end.

(** [Math.max(x, y)] and [Math.min(x, y)]: NaN as soon as one argument
    is NaN. *)
Definition Math_max (x y : Integral) : Integral :=
  match x, y with
  | NotANumber, _ | _, NotANumber => NotANumber
  | _, _ => if leb x y then y else x
  end.

Definition Math_min (x y : Integral) : Integral :=
  match x, y with
  | NotANumber, _ | _, NotANumber => NotANumber
  | _, _ => if leb x y then x else y
  end.

(** The integer that an integral number is; 0 stands for the others. *)
Definition toZ (x : Integral) : Z :=
  match x with
  | Integer z => z
  | _ => 0
  end.

End JSNumber.

(* ================================================================== *)
(** ** lib/types/matcher.types.ts *)
(* ================================================================== *)

Record MatchConfig : Type := mkMatchConfig {
  minSimilarity : Q;
  minConfidence : Q;
  maxResults : Z;
  exactMatchWeight : Q;
  fuzzyMatchWeight : Q;
  aliasMatchWeight : Q
}.

Record ConfidenceBreakdown : Type := mkBreakdown {
  exactMatch : Z;
  fuzzyMatch : Z;
  aliasMatch : Z;
  weighted : Z
}.

Record MatchableArtist : Type := mkArtist {
  artist_id : string;
  artist_name : string;
  artist_aliases : option (list string)
}.

Record MatchableVenue : Type := mkVenue {
  venue_id : string;
  venue_name : string;
  venue_aliases : option (list string);
  venue_city : string
}.

Record ArtistMatch : Type := mkArtistMatch {
  am_id : string;
  am_name : string;
  am_confidence : Z;
  am_breakdown : ConfidenceBreakdown
}.

Record VenueMatch : Type := mkVenueMatch {
  vm_id : string;
  vm_name : string;
  vm_city : string;
  vm_confidence : Z;
  vm_breakdown : ConfidenceBreakdown
}.

Definition DEFAULT_MATCH_CONFIG : MatchConfig :=
  {| minSimilarity := 60;
     minConfidence := 70;
     maxResults := 10;
     exactMatchWeight := 1;
     fuzzyMatchWeight := 8 # 10;
     aliasMatchWeight := 9 # 10 |}.

(* ================================================================== *)
(** ** The edit-distance table *)
(* ================================================================== *)

(** The table that [levenshteinDistance] of text-normalizer.ts fills:
    row [i] belongs to the first [i] characters of the first string,
    column [j] to the first [j] characters of the second. *)
Module EditDistance.

(** One row: [c] is the character of the first string for this row,
    [prev] the rest of the row above, [left] the entry just computed
    and [diag] the entry above it. *)
Fixpoint distanceRow (c : ascii) (prev : list nat) (t : list ascii)
         (left diag : nat) : list nat :=
  match t, prev with
  | d :: t', up :: prev' =>
      let v := if Ascii.eqb c d then diag
               else S (Nat.min up (Nat.min left diag)) in
      v :: distanceRow c prev' t' v up
  | _, _ => []
  end.

Fixpoint distanceRows (s t : list ascii) (i : nat) (prev : list nat)
  : list nat :=
  match s with
  | [] => prev
  | c :: s' =>
      distanceRows s' t (S i)
        (S i :: distanceRow c (tl prev) t (S i) (hd 0%nat prev))
  end.

(** The entry in the last row and last column. *)
Definition distance (s t : string) : Z :=
  let row0 := seq 0 (S (String.length t)) in
  Z.of_nat (last (distanceRows (list_ascii_of_string s)
                               (list_ascii_of_string t) 0 row0) 0%nat).

End EditDistance.

(* ================================================================== *)
(** ** lib/services/matchers/levenshtein.ts *)
(* ================================================================== *)

Module Levenshtein.
Import JS.

(** [levenshtein.get] of the package fast-levenshtein (a dependency,
    not code of the repository): the edit distance with unit costs,
    computed by the same table. *)
Definition levenshtein_get (s t : string) : Z := EditDistance.distance s t.

(** The character class of the punctuation that is removed: full
    stop, comma, semicolon, colon, exclamation and question marks,
    single and double quote, both parentheses and the hyphen. *)
Definition isPunctuation (c : ascii) : bool :=
  existsb (Nat.eqb (nat_of_ascii c))
          [46; 44; 59; 58; 33; 63; 39; 34; 40; 41; 45]%nat.

(** Removes [art] from the front of [l], comparing without regard to
    case (the flag [i]). *)
Fixpoint stripPrefixCI (art l : list ascii) : option (list ascii) :=
  match art, l with
  | [], _ => Some l
  | _ :: _, [] => None
  | a :: art', b :: l' =>
      if Ascii.eqb (toLowerChar a) (toLowerChar b)
      then stripPrefixCI art' l' else None
  end.

(** [art] followed by [\s+], at the front of [l]: what is left after
    the match. *)
Definition articleThenSpaces (art : string) (l : list ascii)
  : option (list ascii) :=
  match stripPrefixCI (chars art) l with
  | Some (w :: rest) =>
      if isWhiteSpace w then Some (dropWhile isWhiteSpace rest) else None
  | _ => None
  end.

Definition firstSome {A : Type} (x y : option A) : option A :=
  match x with Some _ => x | None => y end.

(** [.replace(/^(the|a|an)\s+/i, '')] *)
Definition removeLeadingArticle (l : list ascii) : list ascii :=
  match firstSome (articleThenSpaces "the" l)
          (firstSome (articleThenSpaces "a" l) (articleThenSpaces "an" l)) with
  | Some r => r
  | None => l
  end.

(** [.replace(/\s+(the|a|an)$/i, '')]: the leftmost match takes the
    whole run of white space in front of the final article, so the
    replacement is computed on the reversed string. *)
Definition removeTrailingArticle (l : list ascii) : list ascii :=
  let r := rev l in
  match firstSome (articleThenSpaces "eht" r)
          (firstSome (articleThenSpaces "a" r) (articleThenSpaces "na" r)) with
  | Some r' => rev r'
  | None => l
  end.

Definition normalizeString (s : string) : string :=
  let lowered := chars (toLowerCase s) in
  let trimmed := trimChars lowered in
  let spaced := collapseRuns trimmed in
  let unpunctuated := filter (fun c => negb (isPunctuation c)) spaced in
  let noLead := removeLeadingArticle unpunctuated in
  let noTrail := removeTrailingArticle noLead in
  str (trimChars noTrail).

Definition calculateSimilarity (str1 str2 : string) : Z :=
  if falsy str1 || falsy str2 then 0
  else if (str1 =? str2)%string then 100
  else
    let normalizedStr1 := normalizeString str1 in
    let normalizedStr2 := normalizeString str2 in
    if (normalizedStr1 =? normalizedStr2)%string then 100
    else
      let distance := levenshtein_get normalizedStr1 normalizedStr2 in
      let maxLength := Z.max (len normalizedStr1) (len normalizedStr2) in
      let similarity :=
        ((inject_Z (maxLength - distance) / inject_Z maxLength) * 100)%Q in
      Z.max 0 (Math_round similarity).

Definition isExactMatch (str1 str2 : string) : bool :=
  if falsy str1 || falsy str2 then false
  else (normalizeString str1 =? normalizeString str2)%string.

Definition calculateSimilarityWithCase (str1 str2 : string)
           (caseSensitive : bool) : Z :=
  if falsy str1 || falsy str2 then 0
  else if (str1 =? str2)%string then 100
  else
    let processedStr1 :=
      if caseSensitive then trim str1 else toLowerCase (trim str1) in
    let processedStr2 :=
      if caseSensitive then trim str2 else toLowerCase (trim str2) in
    if (processedStr1 =? processedStr2)%string then 100
    else
      let distance := levenshtein_get processedStr1 processedStr2 in
      let maxLength := Z.max (len processedStr1) (len processedStr2) in
      let similarity :=
        ((inject_Z (maxLength - distance) / inject_Z maxLength) * 100)%Q in
      Z.max 0 (Math_round similarity).

(** The loop of [findBestMatch]; [bestMatch] is [None] for [null]. *)
Fixpoint bestMatchLoop (query : string) (candidates : list string)
         (minSimilarity : Q) (bestMatch : option string) (bestSimilarity : Z)
  : option string * Z :=
  match candidates with
  | [] => (bestMatch, bestSimilarity)
  | candidate :: rest =>
      let similarity := calculateSimilarity query candidate in
      if (bestSimilarity <? similarity)
         && Qle_bool minSimilarity (inject_Z similarity)
      then bestMatchLoop query rest minSimilarity (Some candidate) similarity
      else bestMatchLoop query rest minSimilarity bestMatch bestSimilarity
  end.

(** [findBestMatch]; the result [None] is [null].  The last line of the
    source tests [bestMatch] for truthiness. *)
Definition findBestMatch (query : string) (candidates : list string)
           (minSimilarity : Q) : option (string * Z) :=
  if falsy query || (List.length candidates =? 0)%nat then None
  else
    match bestMatchLoop query candidates minSimilarity None 0 with
    | (Some bestMatch, bestSimilarity) =>
        if falsy bestMatch then None else Some (bestMatch, bestSimilarity)
    | (None, _) => None
    end.

Definition bySimilarityDesc (a b : string * Z) : Z := snd b - snd a.

Definition getAllMatches (query : string) (candidates : list string)
           (minSimilarity : Q) : list (string * Z) :=
  if falsy query || (List.length candidates =? 0)%nat then []
  else
    sort bySimilarityDesc
      (filter (fun m => Qle_bool minSimilarity (inject_Z (snd m)))
         (map (fun candidate => (candidate, calculateSimilarity query candidate))
              candidates)).

End Levenshtein.

(* ================================================================== *)
(** ** lib/services/matchers/confidence-scorer.ts *)
(* ================================================================== *)

Module ConfidenceScorer.
Import JS Levenshtein.

(** The weights of a [MatchConfig] are literals of finite numbers (a
    literal beyond the range of the doubles would denote an infinity
    and belongs to [Numeric.MatchConfig]).  The product is then not NaN
    for the scores of a breakdown and the result of the clamping is an
    integer, which [toZ] reads; [Numeric.calculateWeightedScore] below
    is the function for weights of any kind, and the two agree (lemma
    [calculateConfidence_numeric]). *)
Definition calculateWeightedScore (breakdown : ConfidenceBreakdown)
           (config : MatchConfig) : Z :=
  let '(maxScore, appliedWeight) :=
    if 0 <? exactMatch breakdown
    then (exactMatch breakdown, exactMatchWeight config)
    else if 0 <? aliasMatch breakdown
    then (aliasMatch breakdown, aliasMatchWeight config)
    else (fuzzyMatch breakdown, fuzzyMatchWeight config) in
  let weightedScore :=
    JSNumber.mul (JSNumber.ofZ maxScore) (JSNumber.ofQ appliedWeight) in
  JSNumber.toZ
    (JSNumber.Math_min (JSNumber.Integer 100)
       (JSNumber.Math_max (JSNumber.Integer 0)
          (JSNumber.Math_round weightedScore))).

(** The loop over the aliases, [bestAliasScore] being the accumulator;
    an exact match leaves the loop at once with 100. *)
Fixpoint aliasLoop (query : string) (aliases : list string)
         (bestAliasScore : Z) : Z :=
  match aliases with
  | [] => bestAliasScore
  | alias :: rest =>
      if isExactMatch query alias then 100
      else aliasLoop query rest
             (Z.max bestAliasScore (calculateSimilarity query alias))
  end.

Definition calculateConfidence (query targetName : string)
           (aliases : option (list string)) (config : MatchConfig)
  : ConfidenceBreakdown :=
  let aliases := match aliases with Some l => l | None => [] end in
  if falsy query || falsy targetName then mkBreakdown 0 0 0 0
  else
    let exact := if isExactMatch query targetName then 100 else 0 in
    let fuzzy := calculateSimilarity query targetName in
    let alias := match aliases with
                 | [] => 0
                 | _ :: _ => aliasLoop query aliases 0
                 end in
    let breakdown := mkBreakdown exact fuzzy alias 0 in
    mkBreakdown exact fuzzy alias (calculateWeightedScore breakdown config).

Definition meetsConfidenceThreshold (breakdown : ConfidenceBreakdown)
           (config : MatchConfig) : bool :=
  Qle_bool (minConfidence config) (inject_Z (weighted breakdown)).

Definition getConfidenceLevel (confidence : Q) : string :=
  if Qle_bool 95 confidence then "Excellent"
  else if Qle_bool 85 confidence then "High"
  else if Qle_bool 75 confidence then "Good"
  else if Qle_bool 65 confidence then "Fair"
  else if Qle_bool 50 confidence then "Low"
  else "Poor".

Definition compareBestMatch (a b : ConfidenceBreakdown) : ConfidenceBreakdown :=
  if weighted a <? weighted b then b
  else if weighted b <? weighted a then a
  else if exactMatch a <? exactMatch b then b
  else if exactMatch b <? exactMatch a then a
  else if aliasMatch a <? aliasMatch b then b
  else if aliasMatch b <? aliasMatch a then a
  else if fuzzyMatch a <? fuzzyMatch b then b
  else a.

(** [scoreEntities] is generic in the entity type [T], of which it
    reads [name] and [aliases]; the object [{...entity, confidence}]
    is the pair of the entity and its breakdown. *)
Section ScoreEntities.
Context {T : Type} (name : T -> string) (aliases : T -> option (list string)).

Definition scored (query : string) (config : MatchConfig) (entity : T)
  : T * ConfidenceBreakdown :=
  (entity, calculateConfidence query (name entity) (aliases entity) config).

Definition byWeightedDesc (a b : T * ConfidenceBreakdown) : Z :=
  weighted (snd b) - weighted (snd a).

Definition scoreEntities (query : string) (entities : list T)
           (config : MatchConfig) : list (T * ConfidenceBreakdown) :=
  if falsy query || (List.length entities =? 0)%nat then []
  else
    slice0
      (sort byWeightedDesc
         (filter (fun item => meetsConfidenceThreshold (snd item) config)
            (map (scored query config) entities)))
      (maxResults config).
End ScoreEntities.

End ConfidenceScorer.

(** The confidence scorer for a configuration whose fields are any
    numbers, as the type [MatchConfig] of the sources allows: a weight
    can be NaN or infinite, and so can the weighted score. *)
Module Numeric.
Import JS Levenshtein.

Record MatchConfig : Type := mkMatchConfig {
  minSimilarity : JSNumber.number;
  minConfidence : JSNumber.number;
  maxResults : JSNumber.number;
  exactMatchWeight : JSNumber.number;
  fuzzyMatchWeight : JSNumber.number;
  aliasMatchWeight : JSNumber.number
}.

Record ConfidenceBreakdown : Type := mkBreakdown {
  exactMatch : Z;
  fuzzyMatch : Z;
  aliasMatch : Z;
  weighted : JSNumber.Integral
}.

Definition calculateWeightedScore (breakdown : ConfidenceBreakdown)
           (config : MatchConfig) : JSNumber.Integral :=
  let '(maxScore, appliedWeight) :=
    if 0 <? exactMatch breakdown
    then (exactMatch breakdown, exactMatchWeight config)
    else if 0 <? aliasMatch breakdown
    then (aliasMatch breakdown, aliasMatchWeight config)
    else (fuzzyMatch breakdown, fuzzyMatchWeight config) in
  let weightedScore := JSNumber.mul (JSNumber.ofZ maxScore) appliedWeight in
  JSNumber.Math_min (JSNumber.Integer 100)
    (JSNumber.Math_max (JSNumber.Integer 0)
       (JSNumber.Math_round weightedScore)).

Definition calculateConfidence (query targetName : string)
           (aliases : option (list string)) (config : MatchConfig)
  : ConfidenceBreakdown :=
  let aliases := match aliases with Some l => l | None => [] end in
  if falsy query || falsy targetName
  then mkBreakdown 0 0 0 (JSNumber.Integer 0)
  else
    let exact := if isExactMatch query targetName then 100 else 0 in
    let fuzzy := calculateSimilarity query targetName in
    let alias := match aliases with
                 | [] => 0
                 | _ :: _ => ConfidenceScorer.aliasLoop query aliases 0
                 end in
    let breakdown := mkBreakdown exact fuzzy alias (JSNumber.Integer 0) in
    mkBreakdown exact fuzzy alias (calculateWeightedScore breakdown config).

End Numeric.

(* ================================================================== *)
(** ** lib/services/entity-matcher.ts *)
(* ================================================================== *)

Module EntityMatcher.
Import JS ConfidenceScorer.

(** The matcher object holds its configuration only. *)
Definition toArtistMatch (a : MatchableArtist * ConfidenceBreakdown)
  : ArtistMatch :=
  {| am_id := artist_id (fst a);
     am_name := artist_name (fst a);
     am_confidence := weighted (snd a);
     am_breakdown := snd a |}.

Definition toVenueMatch (v : MatchableVenue * ConfidenceBreakdown)
  : VenueMatch :=
  {| vm_id := venue_id (fst v);
     vm_name := venue_name (fst v);
     vm_city := venue_city (fst v);
     vm_confidence := weighted (snd v);
     vm_breakdown := snd v |}.

Definition matchArtists (config : MatchConfig) (query : string)
           (artists : list MatchableArtist) : list ArtistMatch :=
  if falsy (trim query) || (List.length artists =? 0)%nat then []
  else
    map toArtistMatch
        (scoreEntities artist_name artist_aliases (trim query) artists config).

(** The test of the city filter; the filter is applied when
    [cityFilter?.trim()] is truthy, that is when the filter is
    present and not made of white space only. *)
Definition cityMatches (cityFilter : string) (venue : MatchableVenue) : bool :=
  includes (toLowerCase (venue_city venue)) (toLowerCase cityFilter).

Definition matchVenues (config : MatchConfig) (query : string)
           (venues : list MatchableVenue) (cityFilter : option string)
  : list VenueMatch :=
  if falsy (trim query) || (List.length venues =? 0)%nat then []
  else
    let filteredVenues :=
      match cityFilter with
      | Some f => if falsy (trim f) then venues
                  else filter (cityMatches f) venues
      | None => venues
      end in
    map toVenueMatch
        (scoreEntities venue_name venue_aliases (trim query) filteredVenues
                       config).

Definition findBestArtist (config : MatchConfig) (query : string)
           (artists : list MatchableArtist) : option ArtistMatch :=
  match matchArtists config query artists with
  | m :: _ => Some m
  | [] => None
  end.

Definition findBestVenue (config : MatchConfig) (query : string)
           (venues : list MatchableVenue) (cityFilter : option string)
  : option VenueMatch :=
  match matchVenues config query venues cityFilter with
  | m :: _ => Some m
  | [] => None
  end.


Definition getAutocompleteConfig : MatchConfig :=
  {| minSimilarity := 50;
     minConfidence := 60;
     maxResults := 5;
     exactMatchWeight := 1;
     fuzzyMatchWeight := 7 # 10;
     aliasMatchWeight := 95 # 100 |}.

Definition getPrecisionConfig : MatchConfig :=
  {| minSimilarity := 70;
     minConfidence := 80;
     maxResults := 20;
     exactMatchWeight := 1;
     fuzzyMatchWeight := 85 # 100;
     aliasMatchWeight := 9 # 10 |}.

End EntityMatcher.

(* ================================================================== *)
(** ** lib/services/text-normalizer.ts *)
(* ================================================================== *)

Module TextNormalizer.
Import JS.

Record NormalizationConfig : Type := mkNormalizationConfig {
  cfg_removeAccents : bool;
  cfg_lowercase : bool;
  cfg_removePunctuation : bool;
  cfg_normalizeWhitespace : bool;
  cfg_removeStopWords : bool;
  cfg_removeArticles : bool;
  cfg_convertUnicode : bool
}.

Definition STOP_WORDS : list string :=
  (["and"; "or"; "but"; "in"; "on"; "at"; "to"; "for"; "of"; "with"; "by";
   "from"; "up"; "about"; "into"; "through"; "during"; "before"; "after";
   "above"; "below"; "between"; "among"; "under"; "over"; "against";
   "within"; "without"])%string.

Definition ARTICLES : list string := (["a"; "an"; "the"])%string.

Definition setHas (s : list string) (w : string) : bool :=
  existsb (String.eqb w) s.

(** Every key of UNICODE_MAP is a character outside ASCII and NFD
    leaves ASCII text alone, so on the modelled domain neither
    [removeAccents] nor [convertUnicode] finds anything to replace. *)
Definition removeAccents (text : string) : string := text.
Definition convertUnicode (text : string) : string := text.

Definition keptByPunctuation (c : ascii) : bool :=
  isWordChar c || isWhiteSpace c
  || Ascii.eqb c "'"%char || Ascii.eqb c "-"%char.

Definition isHyphenOrApostrophe (c : ascii) : bool :=
  Ascii.eqb c "-"%char || Ascii.eqb c "'"%char.

Definition removePunctuation (text : string) : string :=
  let blanked :=
    map (fun c => if keptByPunctuation c then c else " "%char) (chars text) in
  str (collapseRuns (replaceRuns isHyphenOrApostrophe false blanked)).

Definition normalizeWhitespace (text : string) : string :=
  str (collapseRuns (trimChars (chars text))).

Definition splitWords (text : string) : list string :=
  map str (splitRuns [] false (chars text)).

Definition joinWords (words : list string) : string :=
  str (joinSpace (map chars words)).

Definition removeStopWords (text : string) : string :=
  joinWords
    (filter (fun word => negb (setHas STOP_WORDS (toLowerCase word)))
            (splitWords text)).

Definition removeArticles (text : string) : string :=
  let words := splitWords text in
  if (1 <? List.length words)%nat
  then joinWords
         (filter (fun word => negb (setHas ARTICLES (toLowerCase word))) words)
  else text.

Definition normalizeText (text : string) (fullConfig : NormalizationConfig)
  : string :=
  let step (enabled : bool) (f : string -> string) (s : string) :=
    if enabled then f s else s in
  let n1 := step (cfg_convertUnicode fullConfig) convertUnicode text in
  let n2 := step (cfg_removeAccents fullConfig) removeAccents n1 in
  let n3 := step (cfg_lowercase fullConfig) toLowerCase n2 in
  let n4 := step (cfg_removePunctuation fullConfig) removePunctuation n3 in
  let n5 := step (cfg_normalizeWhitespace fullConfig) normalizeWhitespace n4 in
  let n6 := step (cfg_removeArticles fullConfig) removeArticles n5 in
  let n7 := step (cfg_removeStopWords fullConfig) removeStopWords n6 in
  normalizeWhitespace n7.

Definition normalizeForMatching (text : string) : string :=
  normalizeText text
    {| cfg_removeAccents := true;
       cfg_lowercase := true;
       cfg_removePunctuation := true;
       cfg_normalizeWhitespace := true;
       cfg_removeStopWords := false;
       cfg_removeArticles := true;
       cfg_convertUnicode := true |}.

Definition levenshteinDistance (str1 str2 : string) : Z :=
  EditDistance.distance str1 str2.

Definition calculateSimilarity (text1 text2 : string) : Z :=
  let normalized1 := normalizeForMatching text1 in
  let normalized2 := normalizeForMatching text2 in
  if (normalized1 =? normalized2)%string then 100
  else if (len normalized1 =? 0) || (len normalized2 =? 0) then 0
  else
    let maxLength := Z.max (len normalized1) (len normalized2) in
    let distance := levenshteinDistance normalized1 normalized2 in
    Math_round ((1 - inject_Z distance / inject_Z maxLength) * 100)%Q.

End TextNormalizer.

(* ================================================================== *)
(** ** lib/services/cache/lru-cache.ts *)
(* ================================================================== *)

(** A JavaScript [Map] with string keys keeps its entries in insertion
    order: an association list without repeated keys.  A [Set] of
    strings is the list of its elements in insertion order. *)
Module JSMap.

Section Ops.
Context {V : Type}.

Fixpoint get (k : string) (m : list (string * V)) : option V :=
  match m with
  | [] => None
  | (k', v) :: r => if String.eqb k k' then Some v else get k r
  end.

Definition has (k : string) (m : list (string * V)) : bool :=
  match get k m with Some _ => true | None => false end.

(** [m.set(k, v)]: an existing key keeps its place, a new one goes
    to the end. *)
Fixpoint set (k : string) (v : V) (m : list (string * V))
  : list (string * V) :=
  match m with
  | [] => [(k, v)]
  | (k', v') :: r =>
      if String.eqb k k' then (k', v) :: r else (k', v') :: set k v r
  end.

Definition delete (k : string) (m : list (string * V)) : list (string * V) :=
  filter (fun e => negb (String.eqb k (fst e))) m.

Definition size (m : list (string * V)) : Z := Z.of_nat (List.length m).

Definition keys (m : list (string * V)) : list string := map fst m.
End Ops.

Definition setHas (k : string) (s : list string) : bool :=
  existsb (String.eqb k) s.

Definition setDelete (k : string) (s : list string) : list string :=
  filter (fun k' => negb (String.eqb k k')) s.

Definition setAdd (k : string) (s : list string) : list string :=
  if setHas k s then s else s ++ [k].

End JSMap.

(** [EntityMatcher.batchMatch].  The object [results] is used as a map
    from the query to its two result lists; an assignment to a key that
    is already there replaces its value. *)
Module EntityMatcherBatch.
Import JS EntityMatcher.

Definition batchMatch (config : MatchConfig) (queries : list string)
           (artists : list MatchableArtist) (venues : list MatchableVenue)
  : list (string * (list ArtistMatch * list VenueMatch)) :=
  fold_left
    (fun results query =>
       if falsy (trim query) then results
       else JSMap.set query
                      (matchArtists config query artists,
                       matchVenues config query venues None)
                      results)
    queries [].

End EntityMatcherBatch.

Module LRUCache.

Record CacheMetrics : Type := mkMetrics {
  hits : Z;
  misses : Z;
  evictions : Z;
  size_ : Z;
  hitRate : Q
}.

Record CacheEntry (T : Type) : Type := mkEntry {
  value : T;
  timestamp : Z;
  expiresAt : option Z;
  accessCount : Z
}.

Record LRUCacheConfig : Type := mkConfig {
  maxSize : Z;
  defaultTTL : Z;
  cleanupInterval : Z;
  enableMetrics : bool
}.

Definition DEFAULT_LRU_CONFIG : LRUCacheConfig :=
  {| maxSize := 1000;
     defaultTTL := 300000;
     cleanupInterval := 60000;
     enableMetrics := true |}.

(** The fields of the object.  The set [lock] is empty whenever a
    method is entered (each method that adds a key to it removes the
    key before returning, and calls do not interleave), and the timer
    only decides when [cleanup] runs; neither is part of the state. *)
Record t (T : Type) : Type := mkCache {
  cache : list (string * CacheEntry T);
  accessOrder : list string;
  config : LRUCacheConfig;
  metrics : CacheMetrics
}.

Section Methods.
Context {T : Type}.

Definition create (cfg : LRUCacheConfig) : t T :=
  {| cache := [];
     accessOrder := [];
     config := cfg;
     metrics := mkMetrics 0 0 0 0 0 |}.

Definition withMetrics (c : t T) (m : CacheMetrics) : t T :=
  {| cache := cache c; accessOrder := accessOrder c;
     config := config c; metrics := m |}.

Definition updateHitRate (m : CacheMetrics) : CacheMetrics :=
  let total := hits m + misses m in
  mkMetrics (hits m) (misses m) (evictions m) (size_ m)
    (if 0 <? total then (inject_Z (hits m) / inject_Z total * 100)%Q else 0%Q).

Definition recordHit (c : t T) : t T :=
  if enableMetrics (config c)
  then let m := metrics c in
       withMetrics c
         (updateHitRate (mkMetrics (hits m + 1) (misses m) (evictions m)
                                   (size_ m) (hitRate m)))
  else c.

Definition recordMiss (c : t T) : t T :=
  if enableMetrics (config c)
  then let m := metrics c in
       withMetrics c
         (updateHitRate (mkMetrics (hits m) (misses m + 1) (evictions m)
                                   (size_ m) (hitRate m)))
  else c.

Definition updateSize (c : t T) : t T :=
  let m := metrics c in
  withMetrics c
    (mkMetrics (hits m) (misses m) (evictions m) (JSMap.size (cache c))
               (hitRate m)).

Definition isExpired (now : Z) (entry : CacheEntry T) : bool :=
  match expiresAt entry with
  | Some e => e <? now
  | None => false
  end.

(** Removes [key] from the map and from the access order. *)
Definition dropKey (c : t T) (key : string) : t T :=
  {| cache := JSMap.delete key (cache c);
     accessOrder := JSMap.setDelete key (accessOrder c);
     config := config c; metrics := metrics c |}.

(** Moves [key] to the end of the access order. *)
Definition touch (c : t T) (key : string) : t T :=
  {| cache := cache c;
     accessOrder := JSMap.setAdd key (JSMap.setDelete key (accessOrder c));
     config := config c; metrics := metrics c |}.

(** [accessOrder.add(key)] *)
Definition appendOrder (c : t T) (key : string) : t T :=
  {| cache := cache c;
     accessOrder := JSMap.setAdd key (accessOrder c);
     config := config c; metrics := metrics c |}.

Definition putEntry (c : t T) (key : string) (entry : CacheEntry T) : t T :=
  {| cache := JSMap.set key entry (cache c);
     accessOrder := accessOrder c;
     config := config c; metrics := metrics c |}.

Definition get (c : t T) (now : Z) (key : string) : option T * t T :=
  match JSMap.get key (cache c) with
  | None => (None, recordMiss c)
  | Some entry =>
      if isExpired now entry
      then (None, recordMiss (updateSize (dropKey c key)))
      else
        let bumped := mkEntry (value entry) (timestamp entry)
                              (expiresAt entry) (accessCount entry + 1) in
        (Some (value entry), recordHit (putEntry (touch c key) key bumped))
  end.

(** [if (lruKey)] tests the key for truthiness: nothing is evicted
    when the access order is empty, nor when its first key is the
    empty string. *)
Definition evictLRU (c : t T) : t T :=
  match accessOrder c with
  | [] => c
  | lruKey :: _ =>
      if JS.falsy lruKey then c
      else
        let d := dropKey c lruKey in
        let m := metrics d in
        updateSize
          (withMetrics d
             (mkMetrics (hits m) (misses m) (evictions m + 1) (size_ m)
                        (hitRate m)))
  end.

Definition set (c : t T) (now : Z) (key : string) (v : T) (ttl : option Z)
  : t T :=
  let effectiveTTL :=
    match ttl with Some x => x | None => defaultTTL (config c) end in
  let expires :=
    if 0 <? effectiveTTL then Some (now + effectiveTTL) else None in
  let entry := mkEntry v now expires 1 in
  if JSMap.has key (cache c)
  then touch (putEntry c key entry) key
  else
    let c1 := if maxSize (config c) <=? JSMap.size (cache c)
              then evictLRU c else c in
    updateSize (appendOrder (putEntry c1 key entry) key).

Definition has (c : t T) (now : Z) (key : string) : bool * t T :=
  match JSMap.get key (cache c) with
  | None => (false, c)
  | Some entry =>
      if isExpired now entry
      then (false, updateSize (dropKey c key))
      else (true, c)
  end.

Definition delete (c : t T) (key : string) : bool * t T :=
  if JSMap.has key (cache c)
  then (true, updateSize (dropKey c key))
  else (false, c).

Definition resetMetrics (c : t T) : t T :=
  withMetrics c (mkMetrics 0 0 0 (JSMap.size (cache c)) 0).

Definition clear (c : t T) : t T :=
  resetMetrics {| cache := []; accessOrder := [];
                  config := config c; metrics := metrics c |}.

Definition size (c : t T) : Z := JSMap.size (cache c).

Definition getMetrics (c : t T) : CacheMetrics := metrics c.

Definition keys (c : t T) : list string := JSMap.keys (cache c).

(** [cleanup]: every expired entry leaves the map and the access
    order; the number of entries removed is returned. *)
Definition cleanup (c : t T) (now : Z) : Z * t T :=
  let expired := filter (fun e => isExpired now (snd e)) (cache c) in
  let removed := Z.of_nat (List.length expired) in
  let c' := fold_left dropKey (map fst expired) c in
  (removed, if 0 <? removed then updateSize c' else c').

End Methods.

End LRUCache.

(* ================================================================== *)
(** ** lib/services/cache/matcher-cache.ts *)
(* ================================================================== *)

Module MatcherCache.
Import JS.

Record MatcherCacheConfig : Type := mkConfig {
  maxSize : Z;
  defaultTTL : Z;
  cleanupInterval : Z;
  enableMetrics : bool;
  artistCacheTTL : Z;
  venueCacheTTL : Z;
  aliasCacheTTL : Z;
  enableWarming : bool;
  warmingQueries : list string
}.

(** The three caches.  The response-time statistics, which are fed
    from [performance.now()] and never read by a lookup, are left
    out. *)
Record t : Type := mkMatcherCache {
  artistCache : LRUCache.t (list ArtistMatch);
  venueCache : LRUCache.t (list VenueMatch);
  aliasCache : LRUCache.t (list string);
  config : MatcherCacheConfig
}.

(** [Math.floor(maxSize * 0.5)], [* 0.4] and [* 0.1] *)
Definition create (cfg : MatcherCacheConfig) : t :=
  let sub (share : Z) (ttl : Z) :=
    LRUCache.mkConfig (maxSize cfg * share / 10) ttl
                      (cleanupInterval cfg) (enableMetrics cfg) in
  {| artistCache := LRUCache.create (sub 5 (artistCacheTTL cfg));
     venueCache := LRUCache.create (sub 4 (venueCacheTTL cfg));
     aliasCache := LRUCache.create (sub 1 (aliasCacheTTL cfg));
     config := cfg |}.

Section Keys.
(** [hashConfig] prints the six numbers of the configuration and
    keeps the first eight characters of the base64 text of that
    string ([Buffer] is a facility of the platform); the lookups
    use it only as a function of the configuration. *)
Variable hashConfig : MatchConfig -> string.

Definition generateArtistCacheKey (query : string) (cfg : MatchConfig)
  : string :=
  ("artist:" ++ trim (toLowerCase query) ++ ":" ++ hashConfig cfg)%string.

Definition generateVenueCacheKey (query : string) (cfg : MatchConfig)
           (cityFilter : option string) : string :=
  let city :=
    match cityFilter with
    | Some f => if falsy f then EmptyString
                else (":" ++ trim (toLowerCase f))%string
    | None => EmptyString
    end in
  ("venue:" ++ trim (toLowerCase query) ++ city ++ ":"
   ++ hashConfig cfg)%string.

Definition getArtistMatches (mc : t) (now : Z) (query : string)
           (cfg : MatchConfig) : option (list ArtistMatch) * t :=
  let '(result, c) :=
    LRUCache.get (artistCache mc) now (generateArtistCacheKey query cfg) in
  (result, mkMatcherCache c (venueCache mc) (aliasCache mc) (config mc)).

Definition setArtistMatches (mc : t) (now : Z) (query : string)
           (cfg : MatchConfig) (matches : list ArtistMatch) : t :=
  mkMatcherCache
    (LRUCache.set (artistCache mc) now (generateArtistCacheKey query cfg)
                  matches None)
    (venueCache mc) (aliasCache mc) (config mc).

Definition getVenueMatches (mc : t) (now : Z) (query : string)
           (cfg : MatchConfig) (cityFilter : option string)
  : option (list VenueMatch) * t :=
  let '(result, c) :=
    LRUCache.get (venueCache mc) now
                 (generateVenueCacheKey query cfg cityFilter) in
  (result, mkMatcherCache (artistCache mc) c (aliasCache mc) (config mc)).

Definition setVenueMatches (mc : t) (now : Z) (query : string)
           (cfg : MatchConfig) (matches : list VenueMatch)
           (cityFilter : option string) : t :=
  mkMatcherCache (artistCache mc)
    (LRUCache.set (venueCache mc) now
                  (generateVenueCacheKey query cfg cityFilter) matches None)
    (aliasCache mc) (config mc).
End Keys.

Inductive EntityType : Type := artist | venue.

Definition getAliases (mc : t) (now : Z) (entityId : string)
  : option (list string) * t :=
  let '(result, c) := LRUCache.get (aliasCache mc) now entityId in
  (result, mkMatcherCache (artistCache mc) (venueCache mc) c (config mc)).

Definition setAliases (mc : t) (now : Z) (entityId : string)
           (aliases : list string) : t :=
  mkMatcherCache (artistCache mc) (venueCache mc)
                 (LRUCache.set (aliasCache mc) now entityId aliases None)
                 (config mc).

(** The loop of [invalidateEntity] over [cache.keys()]. *)
Definition invalidateKeys {T : Type} (cache : LRUCache.t T)
           (entityId : string) : LRUCache.t T :=
  fold_left
    (fun c key =>
       if includes key entityId then snd (LRUCache.delete c key) else c)
    (LRUCache.keys cache) cache.

Definition invalidateEntity (mc : t) (entityType : EntityType)
           (entityId : string) : t :=
  match entityType with
  | artist =>
      mkMatcherCache (invalidateKeys (artistCache mc) entityId)
                     (venueCache mc) (aliasCache mc) (config mc)
  | venue =>
      mkMatcherCache (artistCache mc)
                     (invalidateKeys (venueCache mc) entityId)
                     (aliasCache mc) (config mc)
  end.

Definition clear (mc : t) : t :=
  mkMatcherCache (LRUCache.clear (artistCache mc))
                 (LRUCache.clear (venueCache mc))
                 (LRUCache.clear (aliasCache mc)) (config mc).

End MatcherCache.

(* ================================================================== *)
(** ** lib/services/cache/cached-entity-matcher.ts *)
(* ================================================================== *)

Module CachedEntityMatcher.
Import JS.

(** The object: the configuration inherited from [EntityMatcher] and
    the cache. *)
Record t : Type := mkCachedMatcher {
  config : MatchConfig;
  cache : MatcherCache.t
}.

Definition create (matchConfig : MatchConfig)
           (cacheConfig : MatcherCache.MatcherCacheConfig) : t :=
  {| config := matchConfig; cache := MatcherCache.create cacheConfig |}.

Section Methods.
Variable hashConfig : MatchConfig -> string.

(** [nowGet] and [nowSet] are the readings of the clock at the
    lookup and at the store. *)
Definition matchArtists (m : t) (nowGet nowSet : Z) (query : string)
           (artists : list MatchableArtist) : list ArtistMatch * t :=
  if falsy (trim query) || (List.length artists =? 0)%nat then ([], m)
  else
    let cfg := config m in
    let '(cachedResult, c1) :=
      MatcherCache.getArtistMatches hashConfig (cache m) nowGet query cfg in
    match cachedResult with
    | Some r => (r, mkCachedMatcher cfg c1)
    | None =>
        let result := EntityMatcher.matchArtists cfg query artists in
        (result,
         mkCachedMatcher cfg
           (MatcherCache.setArtistMatches hashConfig c1 nowSet query cfg
                                          result))
    end.

Definition matchVenues (m : t) (nowGet nowSet : Z) (query : string)
           (venues : list MatchableVenue) (cityFilter : option string)
  : list VenueMatch * t :=
  if falsy (trim query) || (List.length venues =? 0)%nat then ([], m)
  else
    let cfg := config m in
    let '(cachedResult, c1) :=
      MatcherCache.getVenueMatches hashConfig (cache m) nowGet query cfg
                                   cityFilter in
    match cachedResult with
    | Some r => (r, mkCachedMatcher cfg c1)
    | None =>
        let result := EntityMatcher.matchVenues cfg query venues cityFilter in
        (result,
         mkCachedMatcher cfg
           (MatcherCache.setVenueMatches hashConfig c1 nowSet query cfg
                                         result cityFilter))
    end.

Definition findBestArtist (m : t) (nowGet nowSet : Z) (query : string)
           (artists : list MatchableArtist) : option ArtistMatch * t :=
  let '(matches, m') := matchArtists m nowGet nowSet query artists in
  (match matches with first :: _ => Some first | [] => None end, m').

Definition findBestVenue (m : t) (nowGet nowSet : Z) (query : string)
           (venues : list MatchableVenue) (cityFilter : option string)
  : option VenueMatch * t :=
  let '(matches, m') := matchVenues m nowGet nowSet query venues cityFilter in
  (match matches with first :: _ => Some first | [] => None end, m').
End Methods.

Definition invalidateCache (m : t) (entityType : MatcherCache.EntityType)
           (entityId : string) : t :=
  mkCachedMatcher (config m)
                  (MatcherCache.invalidateEntity (cache m) entityType entityId).

Definition clearCache (m : t) : t :=
  mkCachedMatcher (config m) (MatcherCache.clear (cache m)).

End CachedEntityMatcher.

(** [batchMatch] of the cached matcher.  One pass of its loop reads
    the clock up to eight times, once in every lookup and every store;
    [BatchClock] holds these readings in the order of the calls, and
    [clockAt i] gives the readings of the pass for the [i]-th query.
    The calls [this.matchArtists] and [this.matchVenues] are the
    cached ones. *)
Module CachedEntityMatcherBatch.
Import JS.

Record BatchClock : Type := mkBatchClock {
  atGetArtists : Z;
  atGetVenues : Z;
  atMatchArtistsGet : Z;
  atMatchArtistsSet : Z;
  atMatchVenuesGet : Z;
  atMatchVenuesSet : Z;
  atSetArtists : Z;
  atSetVenues : Z
}.

Section Methods.
Variable hashConfig : MatchConfig -> string.

Definition batchStep (artists : list MatchableArtist)
           (venues : list MatchableVenue) (clk : BatchClock)
           (results : list (string * (list ArtistMatch * list VenueMatch)))
           (m : CachedEntityMatcher.t) (query : string)
  : list (string * (list ArtistMatch * list VenueMatch))
    * CachedEntityMatcher.t :=
  if falsy (trim query) then (results, m)
  else
    let config := CachedEntityMatcher.config m in
    let '(cachedArtists, c1) :=
      MatcherCache.getArtistMatches hashConfig (CachedEntityMatcher.cache m)
                                    (atGetArtists clk) query config in
    let '(cachedVenues, c2) :=
      MatcherCache.getVenueMatches hashConfig c1 (atGetVenues clk) query
                                   config None in
    let m2 := CachedEntityMatcher.mkCachedMatcher config c2 in
    match cachedArtists, cachedVenues with
    | Some a, Some v => (JSMap.set query (a, v) results, m2)
    | _, _ =>
        let '(artistResults, m3) :=
          match cachedArtists with
          | Some a => (a, m2)
          | None =>
              CachedEntityMatcher.matchArtists hashConfig m2
                (atMatchArtistsGet clk) (atMatchArtistsSet clk) query artists
          end in
        let '(venueResults, m4) :=
          match cachedVenues with
          | Some v => (v, m3)
          | None =>
              CachedEntityMatcher.matchVenues hashConfig m3
                (atMatchVenuesGet clk) (atMatchVenuesSet clk) query venues
                None
          end in
        let results' := JSMap.set query (artistResults, venueResults) results in
        let c5 :=
          match cachedArtists with
          | None =>
              MatcherCache.setArtistMatches hashConfig
                (CachedEntityMatcher.cache m4) (atSetArtists clk) query config
                artistResults
          | Some _ => CachedEntityMatcher.cache m4
          end in
        let c6 :=
          match cachedVenues with
          | None =>
              MatcherCache.setVenueMatches hashConfig c5 (atSetVenues clk)
                query config venueResults None
          | Some _ => c5
          end in
        (results', CachedEntityMatcher.mkCachedMatcher config c6)
    end.

Fixpoint batchLoop (artists : list MatchableArtist)
         (venues : list MatchableVenue) (clockAt : nat -> BatchClock)
         (i : nat)
         (results : list (string * (list ArtistMatch * list VenueMatch)))
         (m : CachedEntityMatcher.t) (queries : list string)
  : list (string * (list ArtistMatch * list VenueMatch))
    * CachedEntityMatcher.t :=
  match queries with
  | [] => (results, m)
  | query :: rest =>
      let '(results', m') :=
        batchStep artists venues (clockAt i) results m query in
      batchLoop artists venues clockAt (S i) results' m' rest
  end.

Definition batchMatch (m : CachedEntityMatcher.t) (clockAt : nat -> BatchClock)
           (queries : list string) (artists : list MatchableArtist)
           (venues : list MatchableVenue)
  : list (string * (list ArtistMatch * list VenueMatch))
    * CachedEntityMatcher.t :=
  batchLoop artists venues clockAt 0 [] m queries.
End Methods.

End CachedEntityMatcherBatch.

(* ================================================================== *)
(** * Vocabulary of the specification *)
(* ================================================================== *)

Import JS Levenshtein ConfidenceScorer EntityMatcher.

(** [clamp(x, lo, hi)] as the specification writes it, on exact
    values. *)
Definition clamp (x lo hi : Q) : Q := Qmin hi (Qmax lo x).

(** The order of two numbers by their values; false when one of them
    is NaN. *)
Definition numberLeb (x y : JSNumber.number) : bool :=
  match x, y with
  | S754_nan, _ | _, S754_nan => false
  | S754_infinity true, _ => true
  | _, S754_infinity false => true
  | S754_infinity false, _ => false
  | _, S754_infinity true => false
  | _, _ => Qle_bool (JSNumber.toQ x) (JSNumber.toQ y)
  end.

(** [clamp(x, lo, hi)] on numbers: [lo] for a number up to [lo], [hi]
    for a number from [hi] on, otherwise the number itself; NaN for
    NaN. *)
Definition clampNumber (x lo hi : JSNumber.number) : JSNumber.number :=
  match x with
  | S754_nan => S754_nan
  | _ => if numberLeb x lo then lo else if numberLeb hi x then hi else x
  end.

(** The selection as the specification words it: the first of the exact,
    alias and fuzzy sub-scores, in that order, that is greater than
    zero, paired with its weight; the fuzzy score when the other two are
    zero. *)
Definition bestApplicable (b : Numeric.ConfidenceBreakdown)
           (cfg : Numeric.MatchConfig) : Z * JSNumber.number :=
  if 0 <? Numeric.exactMatch b
  then (Numeric.exactMatch b, Numeric.exactMatchWeight cfg)
  else if 0 <? Numeric.aliasMatch b
  then (Numeric.aliasMatch b, Numeric.aliasMatchWeight cfg)
  else (Numeric.fuzzyMatch b, Numeric.fuzzyMatchWeight cfg).

(** The three weights are finite numbers. *)
Definition finiteWeights (cfg : Numeric.MatchConfig) : bool :=
  JSNumber.isFinite (Numeric.exactMatchWeight cfg)
  && JSNumber.isFinite (Numeric.fuzzyMatchWeight cfg)
  && JSNumber.isFinite (Numeric.aliasMatchWeight cfg).

(** A configuration with the numbers its literals denote, and a
    breakdown with its weighted score as a number. *)
Definition numericConfig (cfg : MatchConfig) : Numeric.MatchConfig :=
  Numeric.mkMatchConfig
    (JSNumber.ofQ (minSimilarity cfg)) (JSNumber.ofQ (minConfidence cfg))
    (JSNumber.ofZ (maxResults cfg))
    (JSNumber.ofQ (exactMatchWeight cfg))
    (JSNumber.ofQ (fuzzyMatchWeight cfg))
    (JSNumber.ofQ (aliasMatchWeight cfg)).

Definition numericBreakdown (b : ConfidenceBreakdown)
  : Numeric.ConfidenceBreakdown :=
  Numeric.mkBreakdown (exactMatch b) (fuzzyMatch b) (aliasMatch b)
                      (JSNumber.Integer (weighted b)).

(** The default configuration with another weight for fuzzy matches. *)
Definition withFuzzyWeight (w : JSNumber.number) : Numeric.MatchConfig :=
  Numeric.mkMatchConfig
    (JSNumber.ofZ 60) (JSNumber.ofZ 70) (JSNumber.ofZ 10)
    (JSNumber.ofZ 1) w (JSNumber.ofQ (9 # 10)).

(** The candidates that meet the confidence threshold, scored, in input
    order. *)
Definition passing {T : Type} (name : T -> string)
           (aliases : T -> option (list string))
           (query : string) (entities : list T) (cfg : MatchConfig)
  : list (T * ConfidenceBreakdown) :=
  filter (fun item => meetsConfidenceThreshold (snd item) cfg)
         (map (scored name aliases query cfg) entities).

(** The comparator [(a, b) => key b - key a], and the order in which it
    ranks. *)
Definition descendingBy {A : Type} (key : A -> Z) (a b : A) : Z :=
  key b - key a.

Definition rankedBefore {A : Type} (key : A -> Z) (a b : A) : Prop :=
  key b <= key a.

(** A query that is empty or made of white space only. *)
Definition blank (s : string) : Prop :=
  forallb isWhiteSpace (chars s) = true.

(** [city] contains [cityFilter] as a substring, letter case aside. *)
Definition containsIgnoringCase (city cityFilter : string) : Prop :=
  includes (toLowerCase city) (toLowerCase cityFilter) = true.

(** The operations of a cache as a caller, or the cleanup timer, issues
    them; each carries the reading of the clock that it observes. *)
Inductive CacheOp (T : Type) : Type :=
| OpGet (now : Z) (key : string)
| OpHas (now : Z) (key : string)
| OpSet (now : Z) (key : string) (v : T) (ttl : option Z)
| OpDelete (key : string)
| OpCleanup (now : Z)
| OpClear
| OpResetMetrics.

Arguments OpGet {T} now key.
Arguments OpHas {T} now key.
Arguments OpSet {T} now key v ttl.
Arguments OpDelete {T} key.
Arguments OpCleanup {T} now.
Arguments OpClear {T}.
Arguments OpResetMetrics {T}.

Definition stepOp {T : Type} (c : LRUCache.t T) (op : CacheOp T)
  : LRUCache.t T :=
  match op with
  | OpGet now key => snd (LRUCache.get c now key)
  | OpHas now key => snd (LRUCache.has c now key)
  | OpSet now key v ttl => LRUCache.set c now key v ttl
  | OpDelete key => snd (LRUCache.delete c key)
  | OpCleanup now => snd (LRUCache.cleanup c now)
  | OpClear => LRUCache.clear c
  | OpResetMetrics => LRUCache.resetMetrics c
  end.

Definition runOps {T : Type} (c : LRUCache.t T) (ops : list (CacheOp T))
  : LRUCache.t T :=
  fold_left stepOp ops c.

(** [op] stores a value under [key]. *)
Definition setsKey {T : Type} (key : string) (op : CacheOp T) : bool :=
  match op with
  | OpSet _ key' _ _ => String.eqb key key'
  | _ => false
  end.

(** The operations that remove nothing but expired entries. *)
Definition readsOnly {T : Type} (op : CacheOp T) : bool :=
  match op with
  | OpGet _ _ | OpHas _ _ | OpCleanup _ => true
  | _ => false
  end.

(** [ops] stores one value under each key of [ks], in that order, and
    does nothing else. *)
Definition storesKeys {T : Type} (ops : list (CacheOp T)) (ks : list string)
  : Prop :=
  Forall2 (fun op k => exists now v ttl, op = OpSet (T := T) now k v ttl)
          ops ks.

(** The entry that [set] stores. *)
Definition storedEntry {T : Type} (c : LRUCache.t T) (now : Z) (v : T)
           (ttl : option Z) : LRUCache.CacheEntry T :=
  let effectiveTTL :=
    match ttl with
    | Some x => x
    | None => LRUCache.defaultTTL (LRUCache.config c)
    end in
  LRUCache.mkEntry v now
    (if 0 <? effectiveTTL then Some (now + effectiveTTL) else None) 1.

(** The edit distance by its recurrence, on two strings read from their
    last character backwards: what one cell of the table holds. *)
Fixpoint lev (a b : list ascii) {struct a} : nat :=
  match a with
  | [] => List.length b
  | x :: a' =>
      (fix inner (b : list ascii) : nat :=
         match b with
         | [] => S (List.length a')
         | y :: b' =>
             if Ascii.eqb x y then lev a' b'
             else S (Nat.min (lev a' b) (Nat.min (inner b') (lev a' b')))
         end) b
  end.

(** The prefixes of [t], each reversed, by increasing length, on top of
    [acc]: the columns of the table. *)
Fixpoint revPrefixes (t acc : list ascii) : list (list ascii) :=
  acc :: match t with
         | [] => []
         | d :: t' => revPrefixes t' (d :: acc)
         end.

(** The order in which [compareBestMatch] ranks two breakdowns: by the
    weighted score, then the exact, the alias and the fuzzy score. *)
Definition breakdownLe (a b : ConfidenceBreakdown) : Prop :=
  weighted a < weighted b
  \/ (weighted a = weighted b
      /\ (exactMatch a < exactMatch b
          \/ (exactMatch a = exactMatch b
              /\ (aliasMatch a < aliasMatch b
                  \/ (aliasMatch a = aliasMatch b
                      /\ fuzzyMatch a <= fuzzyMatch b))))).


(** The access order lists the keys of the map, each once. *)
Definition orderMatchesKeys (order keys : list string) : Prop :=
  NoDup order /\ NoDup keys /\ forall k, In k order <-> In k keys.

Definition wellFormed {T : Type} (c : LRUCache.t T) : Prop :=
  orderMatchesKeys (LRUCache.accessOrder c) (JSMap.keys (LRUCache.cache c)).

(** [op] stores a value under the empty string. *)
Definition setsEmptyKey {T : Type} (op : CacheOp T) : bool :=
  match op with
  | OpSet _ key _ _ => falsy key
  | _ => false
  end.

(** [op] is a call of [get]. *)
Definition isGet {T : Type} (op : CacheOp T) : bool :=
  match op with
  | OpGet _ _ => true
  | _ => false
  end.

(** [op] resets the counters of the metrics. *)
Definition resetsCounters {T : Type} (op : CacheOp T) : bool :=
  match op with
  | OpClear | OpResetMetrics => true
  | _ => false
  end.

(** No key of the cache is the empty string. *)
Definition keysNonEmpty {T : Type} (c : LRUCache.t T) : Prop :=
  Forall (fun k => falsy k = false) (JSMap.keys (LRUCache.cache c)).

(** The counters are not negative and the hit rate is the one that
    [updateHitRate] computes from them. *)
Definition countersConsistent (m : LRUCache.CacheMetrics) : Prop :=
  0 <= LRUCache.hits m /\ 0 <= LRUCache.misses m
  /\ 0 <= LRUCache.evictions m
  /\ LRUCache.hitRate (LRUCache.updateHitRate m) = LRUCache.hitRate m.

(** Whether [op], run in the state [c], is a [get] that returns a
    value ([Some true]), a [get] that returns [undefined]
    ([Some false]), or no [get] at all. *)
Definition getOutcome {T : Type} (c : LRUCache.t T) (op : CacheOp T)
  : option bool :=
  match op with
  | OpGet now key =>
      Some (match fst (LRUCache.get c now key) with
            | Some _ => true
            | None => false
            end)
  | _ => None
  end.

(** The outcomes of the calls of [get] among [ops], run from [c]. *)
Fixpoint getOutcomes {T : Type} (c : LRUCache.t T) (ops : list (CacheOp T))
  : list bool :=
  match ops with
  | [] => []
  | op :: rest =>
      match getOutcome c op with
      | Some b => b :: getOutcomes (stepOp c op) rest
      | None => getOutcomes (stepOp c op) rest
      end
  end.

Definition countTrue (l : list bool) : Z :=
  Z.of_nat (List.length (filter (fun b => b) l)).

Definition countFalse (l : list bool) : Z :=
  Z.of_nat (List.length (filter negb l)).

(** A space, a digit, a lower-case letter or an underscore. *)
Definition inMatchingAlphabet (c : ascii) : bool :=
  let n := nat_of_ascii c in
  ((n =? 32) || ((48 <=? n) && (n <=? 57)) || ((97 <=? n) && (n <=? 122))
   || (n =? 95))%nat.

(** A word character or a space. *)
Definition wordOrSpace (c : ascii) : bool :=
  isWordChar c || Ascii.eqb c " "%char.

(** Every value in the cache satisfies [P], together with its key. *)
Definition valuesSatisfy {T : Type} (P : string -> T -> Prop)
           (c : LRUCache.t T) : Prop :=
  forall k e,
    JSMap.get k (LRUCache.cache c) = Some e -> P k (LRUCache.value e).

(** The calls made on a cached matcher.  The calls of [matchArtists]
    all pass the same list of artists, which is a parameter of
    [stepCall]. *)
Inductive MatcherCall : Type :=
| CallMatchArtists (nowGet nowSet : Z) (query : string)
| CallMatchVenues (nowGet nowSet : Z) (query : string)
                  (venues : list MatchableVenue) (cityFilter : option string)
| CallInvalidateCache (entityType : MatcherCache.EntityType)
                      (entityId : string)
| CallClearCache.

Definition stepCall (hashConfig : MatchConfig -> string)
           (artists : list MatchableArtist)
           (m : CachedEntityMatcher.t) (call : MatcherCall)
  : CachedEntityMatcher.t :=
  match call with
  | CallMatchArtists nowGet nowSet query =>
      snd (CachedEntityMatcher.matchArtists hashConfig m nowGet nowSet
                                            query artists)
  | CallMatchVenues nowGet nowSet query venues cityFilter =>
      snd (CachedEntityMatcher.matchVenues hashConfig m nowGet nowSet
                                           query venues cityFilter)
  | CallInvalidateCache entityType entityId =>
      CachedEntityMatcher.invalidateCache m entityType entityId
  | CallClearCache => CachedEntityMatcher.clearCache m
  end.

Definition runCalls (hashConfig : MatchConfig -> string)
           (artists : list MatchableArtist)
           (m : CachedEntityMatcher.t) (calls : list MatcherCall)
  : CachedEntityMatcher.t :=
  fold_left (stepCall hashConfig artists) calls m.

(** The value stored under an artist key is what the uncached matcher
    returns for a query of that key. *)
Definition artistResultOf (hashConfig : MatchConfig -> string)
           (cfg : MatchConfig) (artists : list MatchableArtist)
           (k : string) (v : list ArtistMatch) : Prop :=
  exists q,
    k = MatcherCache.generateArtistCacheKey hashConfig q cfg
    /\ v = EntityMatcher.matchArtists cfg q artists.

(* ================================================================== *)
(** * Properties *)
(* ================================================================== *)

(** ** The embedding on the inputs of the repository's tests *)

Example normalizeString_article :
  normalizeString "  Guns  N'  Roses, the "%string = "guns n roses"%string.
Proof. reflexivity. Qed.

Example similarity_typo : calculateSimilarity "Beatles" "Beatls" = 86.
Proof. vm_compute. reflexivity. Qed.

Example normalizer_similarity_cases :
  TextNormalizer.calculateSimilarity "The Beatles" "Beatles" = 100
  /\ TextNormalizer.calculateSimilarity "BEATLES" "beatles" = 100
  /\ TextNormalizer.calculateSimilarity "test" EmptyString = 0
  /\ TextNormalizer.calculateSimilarity EmptyString "test" = 0
  /\ TextNormalizer.calculateSimilarity "AC/DC" "ACDC" = 80
  /\ TextNormalizer.calculateSimilarity "Beatles" "Queen"
     = TextNormalizer.calculateSimilarity "Queen" "Beatles".
Proof. vm_compute. repeat split; reflexivity. Qed.

(** The scenario of the specification for an alias-driven match. *)
Example alias_scenario :
  calculateConfidence "MSG" "Madison Square Garden"
                      (Some ["MSG"; "The Garden"]%string) DEFAULT_MATCH_CONFIG
  = mkBreakdown 0 14 100 90.
Proof. vm_compute. reflexivity. Qed.

(** cache.test.ts: with capacity 5, a sixth key evicts the first; a
    [get] of the first key in between makes the second the victim. *)
Example eviction_tests :
  let cfg := LRUCache.mkConfig 5 1000 0 true in
  let fill := [OpSet 0 "key1" 1; OpSet 0 "key2" 2; OpSet 0 "key3" 3;
               OpSet 0 "key4" 4; OpSet 0 "key5" 5] in
  let fill := map (fun f => f (@None Z)) fill in
  let plain := runOps (LRUCache.create cfg) (fill ++ [OpSet 1 "key6" 6 None]) in
  let touched := runOps (LRUCache.create cfg)
                        (fill ++ [OpGet 1 "key1"; OpSet 1 "key6" 6 None]) in
  LRUCache.size plain = 5
  /\ fst (LRUCache.get plain 2 "key1") = None
  /\ fst (LRUCache.get plain 2 "key6") = Some 6
  /\ fst (LRUCache.get touched 2 "key1") = Some 1
  /\ fst (LRUCache.get touched 2 "key2") = None.
Proof. vm_compute. repeat split; reflexivity. Qed.

(** ** Rounding and clamping *)

Lemma Math_round_comp (x y : Q) : (x == y)%Q -> Math_round x = Math_round y.
Proof.
  intros E. unfold Math_round. now rewrite E.
Qed.

Lemma Math_round_mono (x y : Q) : (x <= y)%Q -> Math_round x <= Math_round y.
Proof.
  intros L. unfold Math_round. apply Qfloor_resp_le.
  apply Qplus_le_compat; [exact L | apply Qle_refl].
Qed.

Lemma Math_round_Z (n : Z) : Math_round (inject_Z n) = n.
Proof.
  unfold Math_round, Qfloor, Qplus, inject_Z. cbn [Qnum Qden].
  change (Z.pos (1 * 2)) with 2.
  replace (n * 2 + 1 * 1) with (1 + n * 2) by lia.
  rewrite Z.div_add by lia. reflexivity.
Qed.

(** Rounding after clamping to [0, 100] is clamping after rounding. *)
Lemma round_clamp (x : Q) :
  Z.min 100 (Z.max 0 (Math_round x)) = Math_round (clamp x 0 100).
Proof.
  unfold clamp.
  destruct (Qlt_le_dec x 0) as [Hneg | Hpos].
  - assert (E : (Qmin 100 (Qmax 0 x) == 0)%Q).
    { rewrite Q.max_l by (apply Qlt_le_weak; exact Hneg).
      apply Q.min_r. discriminate. }
    rewrite (Math_round_comp E).
    assert (Math_round x <= Math_round 0)
      by (apply Math_round_mono, Qlt_le_weak, Hneg).
    change (Math_round 0) with 0 in *. lia.
  - destruct (Qlt_le_dec 100 x) as [Hbig | Hsmall].
    + assert (E : (Qmin 100 (Qmax 0 x) == 100)%Q).
      { rewrite Q.max_r by exact Hpos.
        apply Q.min_l. apply Qlt_le_weak; exact Hbig. }
      rewrite (Math_round_comp E).
      assert (Math_round 100 <= Math_round x)
        by (apply Math_round_mono, Qlt_le_weak, Hbig).
      change (Math_round 100) with 100 in *. lia.
    + assert (E : (Qmin 100 (Qmax 0 x) == x)%Q).
      { rewrite Q.max_r by exact Hpos. apply Q.min_r. exact Hsmall. }
      rewrite (Math_round_comp E).
      assert (Math_round 0 <= Math_round x) by (apply Math_round_mono, Hpos).
      assert (Math_round x <= Math_round 100)
        by (apply Math_round_mono, Hsmall).
      change (Math_round 0) with 0 in *.
      change (Math_round 100) with 100 in *. lia.
Qed.

(** ** Numbers *)

Section NumberFacts.
Import JSNumber.

Lemma Math_max_Integer (a b : Z) :
  Math_max (Integer a) (Integer b) = Integer (Z.max a b).
Proof.
  unfold Math_max, leb. destruct (Z.leb_spec a b); f_equal; lia.
Qed.

Lemma Math_min_Integer (a b : Z) :
  Math_min (Integer a) (Integer b) = Integer (Z.min a b).
Proof.
  unfold Math_min, leb. destruct (Z.leb_spec a b); f_equal; lia.
Qed.

(** Clamping a number that is not NaN gives an integer from 0 to 100. *)
Lemma clamped_integral (x : Integral) :
  x <> NotANumber ->
  exists z, Math_min (Integer 100) (Math_max (Integer 0) x) = Integer z
            /\ 0 <= z <= 100.
Proof.
  intros N. destruct x as [| [|] | r]; [congruence | | |].
  - exists 0. split; [reflexivity | lia].
  - exists 100. split; [reflexivity | lia].
  - rewrite Math_max_Integer, Math_min_Integer. eexists.
    split; [reflexivity | lia].
Qed.

Lemma toZ_clamped_range (x : Integral) :
  0 <= toZ (Math_min (Integer 100) (Math_max (Integer 0) x)) <= 100.
Proof.
  destruct x as [| [|] | r]; [cbn; lia | cbn; lia | cbn; lia |].
  rewrite Math_max_Integer, Math_min_Integer. cbn [toZ]. lia.
Qed.

(** The rounding of the library gives NaN for no mantissa that is not
    negative. *)
Lemma shr_1_nonneg (mrs : shr_record) :
  0 <= shr_m mrs -> 0 <= shr_m (shr_1 mrs).
Proof.
  destruct mrs as [m r s]. cbn [shr_m shr_1]. intros H.
  destruct m as [| q | q]; [cbn; lia | | lia].
  destruct q; cbn; lia.
Qed.

Lemma iter_shr_1_nonneg (n : positive) (mrs : shr_record) :
  0 <= shr_m mrs -> 0 <= shr_m (SpecFloat.iter_pos shr_1 n mrs).
Proof.
  revert mrs. induction n as [n IH | n IH |]; intros mrs H;
    cbn [SpecFloat.iter_pos].
  - apply IH, IH, shr_1_nonneg, H.
  - apply IH, IH, H.
  - apply shr_1_nonneg, H.
Qed.

Lemma shr_fexp_nonneg (m e : Z) (l : location) :
  0 <= m -> 0 <= shr_m (fst (shr_fexp prec emax m e l)).
Proof.
  intros H. unfold shr_fexp, shr.
  assert (R : shr_m (shr_record_of_loc m l) = m)
    by (destruct l as [| []]; reflexivity).
  destruct (_ - e) as [| n | n]; cbn [fst]; rewrite ?R; try exact H.
  apply iter_shr_1_nonneg. now rewrite R.
Qed.

Lemma round_nearest_even_nonneg (m : Z) (l : location) :
  0 <= m -> 0 <= round_nearest_even m l.
Proof.
  intros H. unfold round_nearest_even.
  destruct l as [| []]; [exact H | | exact H | lia].
  destruct (Z.even m); lia.
Qed.

Lemma binary_round_aux_not_nan (s : bool) (m e : Z) (l : location) :
  0 <= m -> binary_round_aux prec emax s m e l <> S754_nan.
Proof.
  intros H. unfold binary_round_aux.
  pose proof (shr_fexp_nonneg e l H) as H1.
  destruct (shr_fexp prec emax m e l) as [mrs1 e1]. cbn [fst] in H1.
  pose proof (round_nearest_even_nonneg (loc_of_shr_record mrs1) H1) as H2.
  pose proof (shr_fexp_nonneg e1 loc_Exact H2) as H3.
  destruct (shr_fexp prec emax _ e1 loc_Exact) as [mrs2 e2].
  cbn [fst] in H3.
  destruct (shr_m mrs2) as [| q | q]; [discriminate | | lia].
  destruct (e2 <=? _); discriminate.
Qed.

(** The product of two finite numbers is not NaN. *)
Lemma mul_finite_not_nan (x y : number) :
  isFinite x = true -> isFinite y = true -> mul x y <> S754_nan.
Proof.
  intros Fx Fy. unfold mul.
  destruct x as [sx | sx | | sx mx ex]; try discriminate Fx;
    destruct y as [sy | sy | | sy my ey]; try discriminate Fy;
    cbn [SFmul]; try discriminate.
  apply binary_round_aux_not_nan. lia.
Qed.

(** The scores, which are integers from 0 to 100, are finite numbers. *)
Lemma ofZ_score_finite (s : Z) : 0 <= s <= 100 -> isFinite (ofZ s) = true.
Proof.
  intros H.
  assert (A : forallb (fun n => isFinite (ofZ (Z.of_nat n))) (seq 0 101)
              = true) by (vm_compute; reflexivity).
  rewrite forallb_forall in A.
  rewrite <- (Z2Nat.id s) by lia. apply A. apply in_seq. lia.
Qed.

Lemma Math_round_not_nan (x : number) :
  x <> S754_nan -> Math_round x <> NotANumber.
Proof. destruct x; [discriminate | discriminate | congruence | discriminate]. Qed.

(** The weighted score of a score from 0 to 100 under a finite weight
    is an integer from 0 to 100. *)
Lemma clamped_product_integral (s : Z) (w : number) :
  0 <= s <= 100 -> isFinite w = true ->
  exists z,
    Math_min (Integer 100)
      (Math_max (Integer 0) (Math_round (mul (ofZ s) w))) = Integer z
    /\ 0 <= z <= 100.
Proof.
  intros Hs Fw. apply clamped_integral, Math_round_not_nan.
  apply mul_finite_not_nan; [now apply ofZ_score_finite | exact Fw].
Qed.

Lemma toQ_hundred : (toQ (ofZ 100) == 100)%Q.
Proof. vm_compute. reflexivity. Qed.

(** Rounding after clamping to [0, 100] is clamping after rounding,
    for every number. *)
Lemma round_clamp_number (x : number) :
  Math_min (Integer 100) (Math_max (Integer 0) (Math_round x))
  = Math_round (clampNumber x (ofZ 0) (ofZ 100)).
Proof.
  destruct x as [s | [|] | | s m e]; try reflexivity.
  unfold clampNumber. cbv beta iota.
  set (x := S754_finite s m e).
  change (Math_round x) with (Integer (JS.Math_round (toQ x))) at 1.
  rewrite Math_max_Integer, Math_min_Integer.
  change (ofZ 0) with (S754_zero false).
  change (numberLeb x (S754_zero false)) with (Qle_bool (toQ x) 0).
  destruct (Qle_bool (toQ x) 0) eqn:L0.
  - apply Qle_bool_iff in L0. apply Math_round_mono in L0.
    change (JS.Math_round 0) with 0 in L0.
    change (Math_round (S754_zero false)) with (Integer 0). f_equal. lia.
  - assert (P : (0 <= toQ x)%Q).
    { apply Qlt_le_weak, Qnot_le_lt. intros L. apply Qle_bool_iff in L.
      congruence. }
    apply Math_round_mono in P. change (JS.Math_round 0) with 0 in P.
    replace (numberLeb (ofZ 100) x)
      with (Qle_bool (toQ (ofZ 100)) (toQ x)) by (vm_compute; reflexivity).
    destruct (Qle_bool (toQ (ofZ 100)) (toQ x)) eqn:L1.
    + apply Qle_bool_iff in L1. rewrite toQ_hundred in L1.
      apply Math_round_mono in L1. change (JS.Math_round 100) with 100 in L1.
      replace (Math_round (ofZ 100)) with (Integer 100)
        by (vm_compute; reflexivity).
      f_equal. lia.
    + assert (U : (toQ x <= 100)%Q).
      { apply Qlt_le_weak, Qnot_le_lt. intros L.
        rewrite <- toQ_hundred in L. apply Qle_bool_iff in L. congruence. }
      apply Math_round_mono in U. change (JS.Math_round 100) with 100 in U.
      change (Math_round x) with (Integer (JS.Math_round (toQ x))).
      f_equal. lia.
Qed.

End NumberFacts.

(** The doubles that the weights of the repository's configurations
    denote, and a product that the rounding brings onto a half: 5 times
    the double of 0.3, which lies below 0.3, is the double 1.5. *)
Example number_literals :
  JSNumber.ofQ 1 = S754_finite false 4503599627370496 (-52)
  /\ JSNumber.ofQ (8 # 10) = S754_finite false 7205759403792794 (-53)
  /\ JSNumber.ofQ (9 # 10) = S754_finite false 8106479329266893 (-53)
  /\ JSNumber.ofQ (95 # 100) = S754_finite false 8556839292003942 (-53)
  /\ JSNumber.ofQ (85 # 100) = S754_finite false 7656119366529843 (-53)
  /\ JSNumber.ofQ (1 # 10) = S754_finite false 7205759403792794 (-56)
  /\ JSNumber.mul (JSNumber.ofZ 5) (JSNumber.ofQ (3 # 10))
     = JSNumber.ofQ (3 # 2)
  /\ JSNumber.Math_round
       (JSNumber.mul (JSNumber.ofZ 5) (JSNumber.ofQ (3 # 10)))
     = JSNumber.Integer 2.
Proof. vm_compute. repeat split; reflexivity. Qed.

(** On the repository's autocomplete preset, whose weight for fuzzy
    matches is 0.7: the double nearest to 0.7 lies below it, and the
    products of 85 and of 45 with it round to 59 and to 31. *)
Example autocomplete_weight :
  JSNumber.ofQ (7 # 10) = S754_finite false 6305039478318694 (-53)
  /\ calculateWeightedScore (mkBreakdown 0 85 0 0) getAutocompleteConfig = 59
  /\ calculateWeightedScore (mkBreakdown 0 45 0 0) getAutocompleteConfig = 31.
Proof. vm_compute. repeat split; reflexivity. Qed.

(** ** The confidence scorer *)

Lemma calculateWeightedScore_spec (b : Numeric.ConfidenceBreakdown)
      (cfg : Numeric.MatchConfig) :
  Numeric.calculateWeightedScore b cfg
  = JSNumber.Math_round
      (clampNumber
         (JSNumber.mul (JSNumber.ofZ (fst (bestApplicable b cfg)))
                       (snd (bestApplicable b cfg)))
         (JSNumber.ofZ 0) (JSNumber.ofZ 100)).
Proof.
  unfold Numeric.calculateWeightedScore, bestApplicable.
  destruct (0 <? Numeric.exactMatch b);
    [| destruct (0 <? Numeric.aliasMatch b)];
    cbn [fst snd]; apply round_clamp_number.
Qed.

Lemma finiteWeights_fields (cfg : Numeric.MatchConfig) :
  finiteWeights cfg = true ->
  JSNumber.isFinite (Numeric.exactMatchWeight cfg) = true
  /\ JSNumber.isFinite (Numeric.fuzzyMatchWeight cfg) = true
  /\ JSNumber.isFinite (Numeric.aliasMatchWeight cfg) = true.
Proof.
  unfold finiteWeights. intros H.
  apply andb_true_iff in H. destruct H as [H H3].
  apply andb_true_iff in H. destruct H as [H1 H2]. auto.
Qed.

(** Zero times a finite number rounds to zero. *)
Lemma zero_product (w : JSNumber.number) :
  JSNumber.isFinite w = true ->
  JSNumber.Math_round
    (clampNumber (JSNumber.mul (JSNumber.ofZ 0) w)
                 (JSNumber.ofZ 0) (JSNumber.ofZ 100))
  = JSNumber.Integer 0.
Proof.
  intros F. destruct w as [sw | sw | | sw mw ew]; try discriminate F;
    destruct sw; reflexivity.
Qed.

(** C1. For every query, target name and alias list, and for every
    configuration whose three weights are finite numbers, the
    [weighted] field of the breakdown that [calculateConfidence]
    returns is [round (clamp (s * w, 0, 100))], where [(s, w)] is the
    exact score with the exact weight if the exact score is positive,
    otherwise the alias score with the alias weight if that score is
    positive, otherwise the fuzzy score with the fuzzy weight, and
    where [s * w] is the product of the two doubles as the processor
    rounds it: one sub-score is weighted, the three are never added or
    blended. *)
Theorem C1_weighted_priority
        (query targetName : string) (aliases : option (list string))
        (cfg : Numeric.MatchConfig) :
  finiteWeights cfg = true ->
  let b := Numeric.calculateConfidence query targetName aliases cfg in
  Numeric.weighted b
  = JSNumber.Math_round
      (clampNumber
         (JSNumber.mul (JSNumber.ofZ (fst (bestApplicable b cfg)))
                       (snd (bestApplicable b cfg)))
         (JSNumber.ofZ 0) (JSNumber.ofZ 100)).
Proof.
  intros F. destruct (finiteWeights_fields cfg F) as (_ & Ff & _).
  unfold Numeric.calculateConfidence.
  destruct (falsy query || falsy targetName).
  - cbv zeta.
    change (bestApplicable
              (Numeric.mkBreakdown 0 0 0 (JSNumber.Integer 0)) cfg)
      with (0, Numeric.fuzzyMatchWeight cfg).
    cbn [fst snd Numeric.weighted]. symmetry. now apply zero_product.
  - cbv zeta. cbn [Numeric.weighted].
    rewrite calculateWeightedScore_spec. reflexivity.
Qed.

Lemma C1_weighted_priority_witness :
  finiteWeights (numericConfig getAutocompleteConfig) = true
  /\ Numeric.weighted
       (Numeric.calculateConfidence
          "abcdefghijklmnopqrst" "abcdefghijklmnopqxyz" None
          (numericConfig getAutocompleteConfig))
     = JSNumber.Integer 59.
Proof.
  split; [vm_compute; reflexivity |].
  refine (eq_trans
            (C1_weighted_priority
               "abcdefghijklmnopqrst" "abcdefghijklmnopqxyz" None
               (numericConfig getAutocompleteConfig) _) _);
    vm_compute; reflexivity.
Defined.

(** C1 as stated fails in two ways.  It covers every configuration, but
    with an infinite weight and an empty query the weighted score is 0
    where the formula gives NaN, the product of 0 and infinity.  And
    the product is not the exact one: for the fuzzy score 85 under the
    weight 0.7 of the autocomplete preset the weighted score is 59,
    where 85 times seven tenths rounds to 60. *)
Lemma C1_counterexample :
  (Numeric.weighted
     (Numeric.calculateConfidence EmptyString "Queen" None
        (withFuzzyWeight (S754_infinity false)))
   = JSNumber.Integer 0
   /\ bestApplicable
        (Numeric.calculateConfidence EmptyString "Queen" None
           (withFuzzyWeight (S754_infinity false)))
        (withFuzzyWeight (S754_infinity false))
      = (0, S754_infinity false)
   /\ JSNumber.Math_round
        (clampNumber (JSNumber.mul (JSNumber.ofZ 0) (S754_infinity false))
                     (JSNumber.ofZ 0) (JSNumber.ofZ 100))
      = JSNumber.NotANumber)
  /\ (Numeric.weighted
        (Numeric.calculateConfidence
           "abcdefghijklmnopqrst" "abcdefghijklmnopqxyz" None
           (numericConfig getAutocompleteConfig))
      = JSNumber.Integer 59
      /\ bestApplicable
           (Numeric.calculateConfidence
              "abcdefghijklmnopqrst" "abcdefghijklmnopqxyz" None
              (numericConfig getAutocompleteConfig))
           (numericConfig getAutocompleteConfig)
         = (85, JSNumber.ofQ (7 # 10))
      /\ Math_round (clamp (85 * (7 # 10)) 0 100) = 60).
Proof. vm_compute. repeat split; reflexivity. Qed.

Lemma similarity_ratio_le (m d : Z) :
  0 <= d -> 0 <= m ->
  (inject_Z (m - d) / inject_Z m * 100 <= 100)%Q.
Proof.
  intros Hd Hm.
  assert (R : (inject_Z (m - d) / inject_Z m <= 1)%Q).
  { destruct (Z.eq_dec m 0) as [-> | Hne].
    - unfold Qdiv. change (/ inject_Z 0)%Q with 0%Q.
      rewrite Qmult_0_r. discriminate.
    - apply Qle_shift_div_r.
      + change 0%Q with (inject_Z 0). rewrite <- Zlt_Qlt. lia.
      + rewrite Qmult_1_l. rewrite <- Zle_Qle. lia. }
  apply (Qmult_le_compat_r _ _ 100) in R; [| discriminate].
  exact R.
Qed.

Lemma levenshtein_get_nonneg (s t : string) : 0 <= levenshtein_get s t.
Proof. unfold levenshtein_get, EditDistance.distance. lia. Qed.

Lemma len_nonneg (s : string) : 0 <= len s.
Proof. unfold len. lia. Qed.

Lemma calculateSimilarity_bounds (str1 str2 : string) :
  0 <= calculateSimilarity str1 str2 <= 100.
Proof.
  unfold calculateSimilarity.
  destruct (falsy str1 || falsy str2); [lia |].
  destruct (str1 =? str2)%string; [lia |].
  destruct (normalizeString str1 =? normalizeString str2)%string; [lia |].
  split; [lia |].
  apply Z.max_lub; [lia |].
  change 100 with (Math_round 100) at 2.
  apply Math_round_mono, similarity_ratio_le.
  - apply levenshtein_get_nonneg.
  - pose proof (len_nonneg (normalizeString str1)). lia.
Qed.

Lemma aliasLoop_bounds (query : string) (aliases : list string) (best : Z) :
  0 <= best <= 100 -> 0 <= aliasLoop query aliases best <= 100.
Proof.
  revert best. induction aliases as [| alias rest IH]; intros best Hb; cbn.
  - exact Hb.
  - destruct (isExactMatch query alias); [lia |].
    apply IH. pose proof (calculateSimilarity_bounds query alias). lia.
Qed.

(** The scores of a breakdown are integers from 0 to 100, whatever the
    configuration. *)
Lemma numeric_scores (query targetName : string)
      (aliases : option (list string)) (cfg : Numeric.MatchConfig) :
  let b := Numeric.calculateConfidence query targetName aliases cfg in
  (0 <= Numeric.exactMatch b <= 100) /\ (0 <= Numeric.fuzzyMatch b <= 100)
  /\ (0 <= Numeric.aliasMatch b <= 100).
Proof.
  unfold Numeric.calculateConfidence.
  destruct (falsy query || falsy targetName); cbn.
  - lia.
  - split; [destruct (isExactMatch query targetName); lia |].
    split; [apply calculateSimilarity_bounds |].
    destruct aliases as [[| a l] |]; try lia.
    apply (aliasLoop_bounds query (a :: l)). lia.
Qed.

(** The weighted score of a breakdown whose scores lie between 0 and
    100, under finite weights. *)
Lemma weighted_score_integral (b : Numeric.ConfidenceBreakdown)
      (cfg : Numeric.MatchConfig) :
  finiteWeights cfg = true ->
  0 <= Numeric.exactMatch b <= 100 -> 0 <= Numeric.fuzzyMatch b <= 100 ->
  0 <= Numeric.aliasMatch b <= 100 ->
  exists z, Numeric.calculateWeightedScore b cfg = JSNumber.Integer z
            /\ 0 <= z <= 100.
Proof.
  intros F He Hf Ha. destruct (finiteWeights_fields cfg F) as (Fe & Ff & Fa).
  unfold Numeric.calculateWeightedScore.
  destruct (0 <? Numeric.exactMatch b);
    [| destruct (0 <? Numeric.aliasMatch b)];
    now apply clamped_product_integral.
Qed.

(** C10. For every query, target name and alias list, and for every
    configuration whose three weights are finite numbers, whatever
    their size or sign, each of the four fields of the breakdown
    returned by [calculateConfidence] lies between 0 and 100: the three
    scores are integers in that range, and so is the weighted score,
    which is clamped after the weight is applied. *)
Theorem C10_breakdown_bounds
        (query targetName : string) (aliases : option (list string))
        (cfg : Numeric.MatchConfig) :
  finiteWeights cfg = true ->
  let b := Numeric.calculateConfidence query targetName aliases cfg in
  (0 <= Numeric.exactMatch b <= 100) /\ (0 <= Numeric.fuzzyMatch b <= 100)
  /\ (0 <= Numeric.aliasMatch b <= 100)
  /\ exists z, Numeric.weighted b = JSNumber.Integer z /\ 0 <= z <= 100.
Proof.
  intros F. cbv zeta.
  destruct (numeric_scores query targetName aliases cfg) as (He & Hf & Ha).
  split; [exact He |]. split; [exact Hf |]. split; [exact Ha |].
  revert He Hf Ha. unfold Numeric.calculateConfidence.
  destruct (falsy query || falsy targetName);
    cbn [Numeric.exactMatch Numeric.fuzzyMatch Numeric.aliasMatch
         Numeric.weighted]; intros He Hf Ha.
  - exists 0. split; [reflexivity | lia].
  - now apply weighted_score_integral.
Qed.

Lemma C10_breakdown_bounds_witness :
  finiteWeights (withFuzzyWeight (JSNumber.ofQ (25 # 10))) = true
  /\ exists z,
       Numeric.weighted
         (Numeric.calculateConfidence "Beatles" "Beatls" None
            (withFuzzyWeight (JSNumber.ofQ (25 # 10))))
       = JSNumber.Integer z
       /\ 0 <= z <= 100.
Proof.
  split; [vm_compute; reflexivity |].
  apply (C10_breakdown_bounds "Beatles" "Beatls" None
           (withFuzzyWeight (JSNumber.ofQ (25 # 10)))).
  vm_compute. reflexivity.
Defined.

(** C10 as stated covers every configuration, but a weight that is
    infinite or NaN makes the weighted score NaN when the selected
    score is 0 (the product of 0 and infinity is NaN), or whatever the
    score when the weight is NaN, and NaN passes through [Math.round],
    [Math.max] and [Math.min]. *)
Lemma C10_counterexample :
  Numeric.weighted
    (Numeric.calculateConfidence "a" "b" None
       (withFuzzyWeight (S754_infinity false)))
  = JSNumber.NotANumber
  /\ Numeric.weighted
       (Numeric.calculateConfidence "Beatles" "Beatls" None
          (withFuzzyWeight S754_nan))
     = JSNumber.NotANumber.
Proof. vm_compute. split; reflexivity. Qed.

(** For a configuration whose weights denote finite numbers, the
    scorer of [MatchConfig] is the scorer for any numbers. *)
Lemma calculateConfidence_numeric (query targetName : string)
      (aliases : option (list string)) (cfg : MatchConfig) :
  finiteWeights (numericConfig cfg) = true ->
  Numeric.calculateConfidence query targetName aliases (numericConfig cfg)
  = numericBreakdown (calculateConfidence query targetName aliases cfg).
Proof.
  intros F.
  pose proof (numeric_scores query targetName aliases (numericConfig cfg))
    as S.
  revert S. unfold Numeric.calculateConfidence, calculateConfidence.
  destruct (falsy query || falsy targetName); [reflexivity |].
  cbv zeta.
  cbn [Numeric.exactMatch Numeric.fuzzyMatch Numeric.aliasMatch].
  intros (He & Hf & Ha).
  unfold numericBreakdown.
  cbn [exactMatch fuzzyMatch aliasMatch weighted]. f_equal.
  match goal with
  | |- Numeric.calculateWeightedScore ?nb _ = _ =>
      destruct (@weighted_score_integral nb (numericConfig cfg) F He Hf Ha)
        as (z & E & _)
  end.
  rewrite E. f_equal. revert E.
  unfold Numeric.calculateWeightedScore, calculateWeightedScore.
  cbn [Numeric.exactMatch Numeric.fuzzyMatch Numeric.aliasMatch
       exactMatch fuzzyMatch aliasMatch numericConfig
       Numeric.exactMatchWeight Numeric.fuzzyMatchWeight
       Numeric.aliasMatchWeight].
  destruct (0 <? _); [| destruct (0 <? _)]; intros ->; reflexivity.
Qed.

(** C7. Matching the query Beatles against the single candidate named
    The Beatles, with aliases Beatles and Fab Four, under the default
    configuration: the two names are equal after normalization (the
    leading article is removed), the exact score is 100 and the weighted
    confidence, which is what [matchArtists] reports, is at least 90. *)
Theorem C7_beatles_scenario :
  let candidate :=
    mkArtist "a1" "The Beatles" (Some ["Beatles"; "Fab Four"]%string) in
  let b := calculateConfidence "Beatles" (artist_name candidate)
             (artist_aliases candidate) DEFAULT_MATCH_CONFIG in
  normalizeString "The Beatles" = normalizeString "Beatles"
  /\ exactMatch b = 100
  /\ 90 <= weighted b
  /\ exists m, matchArtists DEFAULT_MATCH_CONFIG "Beatles" [candidate] = [m]
               /\ am_name m = "The Beatles"%string
               /\ exactMatch (am_breakdown m) = 100
               /\ 90 <= am_confidence m.
Proof.
  cbv zeta. split; [reflexivity |].
  split; [vm_compute; reflexivity |].
  split; [vm_compute; discriminate |].
  eexists. split; [vm_compute; reflexivity |].
  cbn. split; [reflexivity |]. split; [reflexivity | lia].
Qed.

(** ** Sorting, slicing and [scoreEntities] *)

Section SortFacts.
Context {A : Type} (key : A -> Z).

Lemma insertSorted_perm (x : A) (l : list A) :
  Permutation (insertSorted (descendingBy key) x l) (x :: l).
Proof.
  induction l as [| y r IH]; cbn.
  - apply Permutation_refl.
  - destruct (descendingBy key x y <=? 0).
    + apply Permutation_refl.
    + eapply perm_trans; [apply perm_skip, IH | apply perm_swap].
Qed.

Lemma sort_perm (l : list A) : Permutation (sort (descendingBy key) l) l.
Proof.
  induction l as [| x r IH]; cbn.
  - apply perm_nil.
  - eapply perm_trans; [apply insertSorted_perm | apply perm_skip, IH].
Qed.

Lemma insertSorted_sorted (x : A) (l : list A) :
  Sorted (rankedBefore key) l ->
  Sorted (rankedBefore key) (insertSorted (descendingBy key) x l).
Proof.
  induction l as [| y r IH]; intros S; cbn.
  - repeat constructor.
  - destruct (Z.leb_spec (descendingBy key x y) 0) as [Hle | Hgt].
    + constructor; [exact S |]. constructor.
      unfold rankedBefore, descendingBy in *. lia.
    + inversion S as [| ? ? Sr Hd]; subst.
      constructor; [apply IH, Sr |].
      destruct r as [| z r']; cbn.
      * constructor. unfold rankedBefore, descendingBy in *. lia.
      * destruct (Z.leb_spec (descendingBy key x z) 0).
        -- constructor. unfold rankedBefore, descendingBy in *. lia.
        -- inversion Hd; subst. constructor. assumption.
Qed.

Lemma sort_sorted (l : list A) :
  StronglySorted (rankedBefore key) (sort (descendingBy key) l).
Proof.
  apply Sorted_StronglySorted.
  - intros a b c Hab Hbc. unfold rankedBefore in *. lia.
  - induction l as [| x r IH]; cbn.
    + constructor.
    + apply insertSorted_sorted, IH.
Qed.

(** Stability: the elements of any one key keep their order. *)
Lemma insertSorted_stable (w : Z) (x : A) (l : list A) :
  filter (fun a => key a =? w) (insertSorted (descendingBy key) x l)
  = filter (fun a => key a =? w) (x :: l).
Proof.
  induction l as [| y r IH]; cbn.
  - reflexivity.
  - destruct (Z.leb_spec (descendingBy key x y) 0) as [Hle | Hgt]; cbn.
    + reflexivity.
    + rewrite IH. cbn.
      destruct (Z.eqb_spec (key x) w) as [Ex | Nx];
        destruct (Z.eqb_spec (key y) w) as [Ey | Ny];
        try reflexivity.
      unfold descendingBy in Hgt. lia.
Qed.

Lemma sort_stable (w : Z) (l : list A) :
  filter (fun a => key a =? w) (sort (descendingBy key) l)
  = filter (fun a => key a =? w) l.
Proof.
  induction l as [| x r IH]; cbn.
  - reflexivity.
  - rewrite insertSorted_stable. cbn. now rewrite IH.
Qed.
End SortFacts.

Lemma slice0_nonneg {A : Type} (l : list A) (e : Z) :
  0 <= e -> slice0 l e = firstn (Z.to_nat e) l.
Proof.
  intros He. unfold slice0.
  destruct (Z.ltb_spec e 0) as [Hlt | _]; [lia |].
  destruct (Z.le_ge_cases e (Z.of_nat (List.length l))) as [Hle | Hge].
  - now rewrite Z.min_l.
  - rewrite Z.min_r by exact Hge. rewrite Nat2Z.id.
    rewrite firstn_all. symmetry. apply firstn_all2. lia.
Qed.

Lemma slice0_incl {A : Type} (l : list A) (e : Z) (x : A) :
  In x (slice0 l e) -> In x l.
Proof.
  unfold slice0. intros H.
  rewrite <- (firstn_skipn (Z.to_nat
      (if e <? 0 then Z.max (Z.of_nat (List.length l) + e) 0
       else Z.min e (Z.of_nat (List.length l)))) l).
  apply in_or_app. now left.
Qed.

Section ScoreEntitiesFacts.
Context {T : Type} (name : T -> string) (aliases : T -> option (list string)).

Lemma scoreEntities_incl (query : string) (entities : list T)
      (cfg : MatchConfig) (x : T * ConfidenceBreakdown) :
  In x (scoreEntities name aliases query entities cfg) ->
  In x (passing name aliases query entities cfg).
Proof.
  unfold scoreEntities, passing.
  destruct (falsy query || (List.length entities =? 0)%nat); [intros [] |].
  intros H. apply slice0_incl in H.
  eapply Permutation_in; [| exact H].
  apply (sort_perm (fun a : T * ConfidenceBreakdown => weighted (snd a))).
Qed.

Lemma scoreEntities_from_input (query : string) (entities : list T)
      (cfg : MatchConfig) (x : T * ConfidenceBreakdown) :
  In x (scoreEntities name aliases query entities cfg) ->
  In (fst x) entities
  /\ snd x = calculateConfidence query (name (fst x)) (aliases (fst x)) cfg
  /\ meetsConfidenceThreshold (snd x) cfg = true.
Proof.
  intros H. apply scoreEntities_incl in H. unfold passing in H.
  apply filter_In in H. destruct H as [H M].
  apply in_map_iff in H. destruct H as [e [<- He]].
  cbn. auto.
Qed.

Lemma scoreEntities_nil (query : string) (cfg : MatchConfig) :
  scoreEntities name aliases query [] cfg = [].
Proof.
  unfold scoreEntities. cbn. now rewrite orb_true_r.
Qed.
End ScoreEntitiesFacts.

(** ** The entity matcher *)

Lemma dropWhile_all {A : Type} (p : A -> bool) (l : list A) :
  forallb p l = true -> dropWhile p l = [].
Proof.
  induction l as [| x r IH]; cbn; [reflexivity |].
  intros H. apply andb_true_iff in H. destruct H as [Hx Hr].
  rewrite Hx. apply IH, Hr.
Qed.

Lemma dropWhile_nil {A : Type} (p : A -> bool) (l : list A) :
  dropWhile p l = [] -> forallb p l = true.
Proof.
  induction l as [| x r IH]; cbn; [reflexivity |].
  destruct (p x); [exact IH | discriminate].
Qed.

Lemma trim_blank (s : string) : blank s -> trim s = EmptyString.
Proof.
  unfold blank, trim, trimChars. intros H.
  rewrite (dropWhile_all _ _ H). reflexivity.
Qed.

Lemma trim_not_blank (s : string) : ~ blank s -> falsy (trim s) = false.
Proof.
  unfold blank, trim, trimChars. intros H.
  destruct (rev (dropWhile isWhiteSpace
                   (rev (dropWhile isWhiteSpace (chars s))))) as [| c r] eqn:E;
    [| reflexivity].
  exfalso. apply H.
  apply (f_equal (@rev ascii)) in E. rewrite rev_involutive in E. cbn in E.
  apply dropWhile_nil in E.
  rewrite forallb_forall in E.
  apply dropWhile_nil.
  destruct (dropWhile isWhiteSpace (chars s)) as [| c r] eqn:D; [reflexivity |].
  exfalso.
  assert (W : isWhiteSpace c = true).
  { apply E. apply in_rev. rewrite rev_involutive. now left. }
  clear E. revert D W. generalize (chars s) as l.
  induction l as [| x l IH]; cbn; [discriminate |].
  destruct (isWhiteSpace x) eqn:Wx; [exact IH |].
  intros [= -> ->]. congruence.
Qed.

(** C9. Whatever the configuration, [matchArtists] and [matchVenues]
    return the empty array when the query is empty or made of white
    space only, and when the list of candidates is empty.  Both are
    total functions: no input makes them fail. *)
Theorem C9_empty_inputs
        (cfg : MatchConfig) (query : string)
        (artists : list MatchableArtist) (venues : list MatchableVenue)
        (cityFilter : option string) :
  (blank query \/ artists = [] -> matchArtists cfg query artists = [])
  /\ (blank query \/ venues = [] ->
      matchVenues cfg query venues cityFilter = []).
Proof.
  split; intros [B | ->].
  - unfold matchArtists. now rewrite (trim_blank B).
  - unfold matchArtists. cbn. now rewrite orb_true_r.
  - unfold matchVenues. now rewrite (trim_blank B).
  - unfold matchVenues. cbn. now rewrite orb_true_r.
Qed.

Lemma C9_empty_inputs_witness :
  matchArtists DEFAULT_MATCH_CONFIG "   "
               [mkArtist "a1" "The Beatles" None] = []
  /\ matchVenues DEFAULT_MATCH_CONFIG "Garden" [] (Some "Boston"%string) = [].
Proof.
  split.
  - apply (proj1 (C9_empty_inputs DEFAULT_MATCH_CONFIG "   "
                    [mkArtist "a1" "The Beatles" None] [] None)).
    left. reflexivity.
  - apply (proj2 (C9_empty_inputs DEFAULT_MATCH_CONFIG "Garden"
                    [] [] (Some "Boston"%string))).
    right. reflexivity.
Defined.

Lemma matchVenues_prefilter (cfg : MatchConfig) (query : string)
      (venues : list MatchableVenue) (f : string) :
  falsy (trim f) = false ->
  matchVenues cfg query venues (Some f)
  = matchVenues cfg query (filter (cityMatches f) venues) None.
Proof.
  intros Hf. unfold matchVenues. rewrite Hf.
  destruct (falsy (trim query)); [reflexivity |]. cbn [orb].
  destruct venues as [| v vs]; [reflexivity |].
  cbn [List.length Nat.eqb].
  destruct (filter (cityMatches f) (v :: vs)) as [| w ws] eqn:E.
  - cbn. now rewrite scoreEntities_nil.
  - reflexivity.
Qed.

(** C8, as the code has it.  For every query, list of venues and city
    filter that is not empty or white space only, the candidates whose
    city does not contain the filter (letter case aside) are removed
    before scoring, so that every venue in the result of [matchVenues]
    is one of the given venues and has a city containing the filter. *)
Theorem C8_city_filter
        (cfg : MatchConfig) (query : string)
        (venues : list MatchableVenue) (cityFilter : string) :
  ~ blank cityFilter ->
  matchVenues cfg query venues (Some cityFilter)
  = matchVenues cfg query (filter (cityMatches cityFilter) venues) None
  /\ forall m, In m (matchVenues cfg query venues (Some cityFilter)) ->
       containsIgnoringCase (vm_city m) cityFilter
       /\ exists v, In v venues
                    /\ containsIgnoringCase (venue_city v) cityFilter
                    /\ m = toVenueMatch
                             (v, calculateConfidence (trim query) (venue_name v)
                                   (venue_aliases v) cfg).
Proof.
  intros NB. pose proof (trim_not_blank NB) as Hf.
  split; [apply matchVenues_prefilter, Hf |].
  intros m Hm. rewrite (matchVenues_prefilter _ _ _ _ Hf) in Hm.
  unfold matchVenues in Hm.
  destruct (falsy (trim query) || _); [destruct Hm |].
  apply in_map_iff in Hm. destruct Hm as [[v b] [<- Hx]].
  apply scoreEntities_from_input in Hx. cbn [fst snd] in Hx.
  destruct Hx as [Hin [Hb _]].
  apply filter_In in Hin. destruct Hin as [Hin Hc].
  split; [exact Hc |].
  exists v. repeat split; [exact Hin | exact Hc | now rewrite Hb].
Qed.

Lemma C8_city_filter_witness :
  let venues := [mkVenue "v1" "The Garden" None "Boston";
                 mkVenue "v2" "Garden" None "New York"] in
  let m := toVenueMatch
             (mkVenue "v2" "Garden" None "New York",
              calculateConfidence "Garden" "Garden" None
                                  DEFAULT_MATCH_CONFIG) in
  ~ blank "york"
  /\ In m (matchVenues DEFAULT_MATCH_CONFIG "Garden" venues
                       (Some "york"%string))
  /\ containsIgnoringCase (vm_city m) "york".
Proof.
  cbv zeta.
  assert (NB : ~ blank "york") by (vm_compute; discriminate).
  assert (Hin : In (toVenueMatch
             (mkVenue "v2" "Garden" None "New York",
              calculateConfidence "Garden" "Garden" None DEFAULT_MATCH_CONFIG))
            (matchVenues DEFAULT_MATCH_CONFIG "Garden"
               [mkVenue "v1" "The Garden" None "Boston";
                mkVenue "v2" "Garden" None "New York"] (Some "york"%string)))
    by (vm_compute; left; reflexivity).
  split; [exact NB |]. split; [exact Hin |].
  exact (proj1 (proj2 (C8_city_filter DEFAULT_MATCH_CONFIG "Garden"
                         [mkVenue "v1" "The Garden" None "Boston";
                          mkVenue "v2" "Garden" None "New York"] NB) _ Hin)).
Defined.

(** C8 as stated fails for a filter that is not empty but is made of
    white space only: the filter is then ignored, and a venue whose city
    does not contain it is returned. *)
Lemma C8_counterexample :
  let cityFilter := " "%string in
  let venues := [mkVenue "v1" "Garden" None "Boston"] in
  cityFilter <> EmptyString
  /\ exists m, In m (matchVenues DEFAULT_MATCH_CONFIG "Garden" venues
                                 (Some cityFilter))
               /\ vm_city m = "Boston"%string
               /\ includes (toLowerCase (vm_city m)) (toLowerCase cityFilter)
                  = false.
Proof.
  cbv zeta. split; [discriminate |].
  eexists. split; [vm_compute; left; reflexivity |].
  split; reflexivity.
Qed.

(** ** Ranking by [scoreEntities] *)

Lemma meets_iff (b : ConfidenceBreakdown) (cfg : MatchConfig) :
  meetsConfidenceThreshold b cfg = true
  <-> (minConfidence cfg <= inject_Z (weighted b))%Q.
Proof. unfold meetsConfidenceThreshold. apply Qle_bool_iff. Qed.

Lemma passing_iff {T : Type} (name : T -> string)
      (aliases : T -> option (list string)) (query : string)
      (entities : list T) (cfg : MatchConfig) (x : T * ConfidenceBreakdown) :
  In x (passing name aliases query entities cfg)
  <-> In (fst x) entities
      /\ snd x = calculateConfidence query (name (fst x)) (aliases (fst x)) cfg
      /\ (minConfidence cfg <= inject_Z (weighted (snd x)))%Q.
Proof.
  unfold passing. rewrite filter_In, in_map_iff, meets_iff. split.
  - intros [[e [<- He]] M]. cbn in *. auto.
  - intros [He [Hb M]]. split; [| exact M].
    exists (fst x). split; [| exact He].
    unfold scored. rewrite <- Hb. now destruct x.
Qed.

(** C2, as the code has it.  For every non-empty query, list of
    entities and configuration whose [maxResults] is not negative, the
    result of [scoreEntities] is the first [maxResults] elements of the
    ranking of the qualifying entities, where an entity qualifies when
    its weighted score is at least [minConfidence] and the ranking
    orders the qualifying entities by non-increasing weighted score,
    entities of equal score staying in input order.  So every entity
    returned qualifies, the result is sorted, it has
    [min (maxResults, number of qualifying entities)] elements, and
    every qualifying entity is returned when there are at most
    [maxResults] of them. *)
Theorem C2_scoreEntities_ranked
        {T : Type} (name : T -> string) (aliases : T -> option (list string))
        (query : string) (entities : list T) (cfg : MatchConfig) :
  falsy query = false ->
  0 <= maxResults cfg ->
  let result := scoreEntities name aliases query entities cfg in
  let qualifying := passing name aliases query entities cfg in
  (forall x, In x qualifying <->
             In (fst x) entities
             /\ snd x = calculateConfidence query (name (fst x))
                                            (aliases (fst x)) cfg
             /\ (minConfidence cfg <= inject_Z (weighted (snd x)))%Q)
  /\ Forall (fun x => (minConfidence cfg <= inject_Z (weighted (snd x)))%Q)
            result
  /\ Z.of_nat (List.length result)
     = Z.min (maxResults cfg) (Z.of_nat (List.length qualifying))
  /\ exists rest,
       Permutation (result ++ rest) qualifying
       /\ StronglySorted (fun a b => weighted (snd b) <= weighted (snd a))
                         (result ++ rest)
       /\ (forall w,
              filter (fun a => weighted (snd a) =? w) (result ++ rest)
              = filter (fun a => weighted (snd a) =? w) qualifying)
       /\ (Z.of_nat (List.length qualifying) <= maxResults cfg -> rest = []).
Proof.
  intros Hq Hmax result qualifying.
  split; [intros x; apply passing_iff |].
  split.
  { apply Forall_forall. intros x Hx.
    apply scoreEntities_from_input in Hx. now apply meets_iff. }
  set (key := fun a : T * ConfidenceBreakdown => weighted (snd a)).
  set (ranked := sort (descendingBy key) qualifying).
  assert (R : result = firstn (Z.to_nat (maxResults cfg)) ranked).
  { unfold result, scoreEntities. rewrite Hq. cbn [orb].
    destruct entities as [| e es].
    - cbn. now rewrite firstn_nil.
    - cbn [List.length Nat.eqb]. now apply slice0_nonneg. }
  assert (L : List.length ranked = List.length qualifying)
    by apply Permutation_length, sort_perm.
  split.
  { rewrite R, length_firstn, L. lia. }
  exists (skipn (Z.to_nat (maxResults cfg)) ranked).
  rewrite R, firstn_skipn. repeat split.
  - apply sort_perm.
  - apply (sort_sorted key).
  - intros w. apply (sort_stable key).
  - intros Hle. apply skipn_all2. lia.
Qed.

Lemma C2_scoreEntities_ranked_witness :
  let cfg := mkMatchConfig 60 70 1 1 (8 # 10) (9 # 10) in
  let entities := [mkArtist "a1" "Queen" None; mkArtist "a2" "Queen" None] in
  falsy "Queen" = false
  /\ 0 <= maxResults cfg
  /\ Z.of_nat (List.length (scoreEntities artist_name artist_aliases
                                          "Queen" entities cfg))
     = Z.min (maxResults cfg)
             (Z.of_nat (List.length (passing artist_name artist_aliases
                                             "Queen" entities cfg))).
Proof.
  cbv zeta. split; [reflexivity |]. split; [discriminate |].
  exact (proj1 (proj2 (proj2
           (@C2_scoreEntities_ranked _ artist_name artist_aliases "Queen"
              [mkArtist "a1" "Queen" None; mkArtist "a2" "Queen" None]
              (mkMatchConfig 60 70 1 1 (8 # 10) (9 # 10))
              eq_refl ltac:(discriminate))))).
Defined.

(** C2 as stated fails when more than [maxResults] entities qualify: the
    result is cut to [maxResults] elements, so an entity whose weighted
    score meets the threshold can be missing from it. *)
Lemma C2_counterexample :
  let cfg := mkMatchConfig 60 70 1 1 (8 # 10) (9 # 10) in
  let first := mkArtist "a1" "Queen" None in
  let second := mkArtist "a2" "Queen" None in
  let result := scoreEntities artist_name artist_aliases "Queen"
                              [first; second] cfg in
  (minConfidence cfg
   <= inject_Z (weighted (calculateConfidence "Queen" (artist_name second)
                                              (artist_aliases second) cfg)))%Q
  /\ map fst result = [first]
  /\ ~ In second (map fst result).
Proof.
  cbv zeta. split; [vm_compute; discriminate |].
  split; [vm_compute; reflexivity |].
  vm_compute. intros [H | []]. discriminate H.
Qed.

(** ** Similarity of a string with itself, and of empty strings *)

Lemma falsy_false (s : string) : s <> EmptyString -> falsy s = false.
Proof. destruct s; [congruence | reflexivity]. Qed.

Lemma len_zero (s : string) : len s = 0 -> s = EmptyString.
Proof. destruct s; [reflexivity | unfold len; cbn; lia]. Qed.

(** C4, as the code has it.  The similarity of the text normalizer is
    100 for a string and itself, so also for two empty strings, and 0
    when exactly one of the two strings is empty after normalization.
    The similarity used by the matcher is 100 for a string and itself
    when the string is not empty, and 0 whenever one of its arguments is
    the empty string, the other being empty or not. *)
Theorem C4_similarity_identity (s t : string) :
  TextNormalizer.calculateSimilarity s s = 100
  /\ TextNormalizer.calculateSimilarity EmptyString EmptyString = 100
  /\ TextNormalizer.normalizeForMatching EmptyString = EmptyString
  /\ (TextNormalizer.normalizeForMatching s = EmptyString ->
      TextNormalizer.normalizeForMatching t <> EmptyString ->
      TextNormalizer.calculateSimilarity s t = 0
      /\ TextNormalizer.calculateSimilarity t s = 0)
  /\ (s <> EmptyString -> Levenshtein.calculateSimilarity s s = 100)
  /\ Levenshtein.calculateSimilarity EmptyString t = 0
  /\ Levenshtein.calculateSimilarity t EmptyString = 0.
Proof.
  split; [| split; [reflexivity | split; [reflexivity |]]].
  2: split; [| split; [| split]].
  - unfold TextNormalizer.calculateSimilarity. now rewrite String.eqb_refl.
  - intros Hs Ht. split.
    + unfold TextNormalizer.calculateSimilarity. rewrite Hs.
      destruct (String.eqb_spec EmptyString
                  (TextNormalizer.normalizeForMatching t));
        [congruence | reflexivity].
    + unfold TextNormalizer.calculateSimilarity. rewrite Hs.
      destruct (String.eqb_spec (TextNormalizer.normalizeForMatching t)
                  EmptyString);
        [congruence |].
      cbn. now rewrite orb_true_r.
  - intros Hs. unfold Levenshtein.calculateSimilarity.
    rewrite (falsy_false Hs). cbn. now rewrite String.eqb_refl.
  - reflexivity.
  - unfold Levenshtein.calculateSimilarity. cbn. now rewrite orb_true_r.
Qed.

Lemma C4_similarity_identity_witness :
  TextNormalizer.calculateSimilarity EmptyString "Queen" = 0
  /\ TextNormalizer.calculateSimilarity "Queen" EmptyString = 0
  /\ Levenshtein.calculateSimilarity "Queen" "Queen" = 100.
Proof.
  destruct (C4_similarity_identity EmptyString "Queen")
    as (_ & _ & _ & H & _).
  destruct (C4_similarity_identity "Queen" "Queen")
    as (_ & _ & _ & _ & K & _).
  destruct (H eq_refl ltac:(vm_compute; discriminate)) as [H1 H2].
  split; [exact H1 |]. split; [exact H2 |].
  apply K. discriminate.
Defined.

(** C4 as stated fails in two places: the similarity used by the matcher
    gives 0, not 100, for two empty strings; and the similarity of the
    text normalizer gives 100, not 0, for an empty string and a string
    of white space, which is empty only after normalization. *)
Lemma C4_counterexample :
  Levenshtein.calculateSimilarity EmptyString EmptyString = 0
  /\ TextNormalizer.calculateSimilarity EmptyString " " = 100.
Proof. split; vm_compute; reflexivity. Qed.

(** ** The map and the set of the cache *)

Section JSMapFacts.
Context {V : Type}.
Implicit Types (m : list (string * V)) (k : string).

Lemma get_set_same k (v : V) m : JSMap.get k (JSMap.set k v m) = Some v.
Proof.
  induction m as [| [k' v'] r IH]; cbn.
  - now rewrite String.eqb_refl.
  - destruct (String.eqb_spec k k') as [-> | N]; cbn.
    + now rewrite String.eqb_refl.
    + destruct (String.eqb_spec k k'); [congruence | exact IH].
Qed.

Lemma get_set_other k k' (v : V) m :
  k <> k' -> JSMap.get k (JSMap.set k' v m) = JSMap.get k m.
Proof.
  intros N. induction m as [| [k2 v2] r IH]; cbn.
  - destruct (String.eqb_spec k k'); [congruence | reflexivity].
  - destruct (String.eqb_spec k' k2) as [-> | N2]; cbn.
    + destruct (String.eqb_spec k k2); [congruence | reflexivity].
    + destruct (String.eqb_spec k k2); [reflexivity | exact IH].
Qed.

Lemma get_delete_same k m : JSMap.get k (JSMap.delete k m) = None.
Proof.
  induction m as [| [k' v'] r IH]; cbn; [reflexivity |].
  destruct (String.eqb_spec k k') as [-> | N]; cbn; [exact IH |].
  destruct (String.eqb_spec k k'); [congruence | exact IH].
Qed.

Lemma get_delete_other k k' m :
  k <> k' -> JSMap.get k (JSMap.delete k' m) = JSMap.get k m.
Proof.
  intros N. induction m as [| [k2 v2] r IH]; cbn; [reflexivity |].
  destruct (String.eqb_spec k' k2) as [-> | N2]; cbn.
  - destruct (String.eqb_spec k k2); [congruence | exact IH].
  - destruct (String.eqb_spec k k2); [reflexivity | exact IH].
Qed.

Lemma get_In k m (v : V) : JSMap.get k m = Some v -> In (k, v) m.
Proof.
  induction m as [| [k' v'] r IH]; cbn; [discriminate |].
  destruct (String.eqb_spec k k') as [-> | N].
  - intros [= ->]. now left.
  - intros H. right. apply IH, H.
Qed.

Lemma get_None_keys k m : JSMap.get k m = None <-> ~ In k (JSMap.keys m).
Proof.
  induction m as [| [k' v'] r IH]; cbn.
  - split; [intros _ [] | reflexivity].
  - destruct (String.eqb_spec k k') as [-> | N].
    + split; [discriminate | intros H; exfalso; apply H; now left].
    + rewrite IH. split.
      * intros H [E | I]; [congruence | exact (H I)].
      * intros H I. apply H. now right.
Qed.

Lemma has_false_keys k m : JSMap.has k m = false <-> ~ In k (JSMap.keys m).
Proof.
  unfold JSMap.has. rewrite <- get_None_keys.
  destruct (JSMap.get k m); split; congruence.
Qed.

Lemma set_fresh k (v : V) m :
  ~ In k (JSMap.keys m) -> JSMap.set k v m = m ++ [(k, v)].
Proof.
  induction m as [| [k' v'] r IH]; cbn; intros H; [reflexivity |].
  destruct (String.eqb_spec k k') as [-> | N].
  - exfalso. apply H. now left.
  - f_equal. apply IH. intros I. apply H. now right.
Qed.

Lemma keys_set_present k (v : V) m :
  In k (JSMap.keys m) -> JSMap.keys (JSMap.set k v m) = JSMap.keys m.
Proof.
  induction m as [| [k' v'] r IH]; cbn; intros H; [destruct H |].
  destruct (String.eqb_spec k k') as [-> | N]; cbn; [reflexivity |].
  f_equal. apply IH. destruct H; [congruence | assumption].
Qed.

Lemma keys_delete k m :
  JSMap.keys (JSMap.delete k m) = JSMap.setDelete k (JSMap.keys m).
Proof.
  unfold JSMap.keys, JSMap.delete, JSMap.setDelete.
  induction m as [| [k' v'] r IH]; cbn; [reflexivity |].
  destruct (String.eqb k k'); cbn; now rewrite IH.
Qed.

Lemma size_keys m : JSMap.size m = Z.of_nat (List.length (JSMap.keys m)).
Proof. unfold JSMap.size, JSMap.keys. now rewrite length_map. Qed.
End JSMapFacts.

Lemma setDelete_absent (k : string) (s : list string) :
  ~ In k s -> JSMap.setDelete k s = s.
Proof.
  induction s as [| k' r IH]; cbn; intros H; [reflexivity |].
  destruct (String.eqb_spec k k') as [-> | N]; cbn.
  - exfalso. apply H. now left.
  - f_equal. apply IH. intros I. apply H. now right.
Qed.

Lemma setDelete_head (k : string) (s : list string) :
  ~ In k s -> JSMap.setDelete k (k :: s) = s.
Proof.
  intros H. cbn. rewrite String.eqb_refl. cbn. now apply setDelete_absent.
Qed.

Lemma setDelete_In (k k' : string) (s : list string) :
  In k (JSMap.setDelete k' s) <-> In k s /\ k <> k'.
Proof.
  unfold JSMap.setDelete. rewrite filter_In.
  destruct (String.eqb_spec k' k); cbn; intuition congruence.
Qed.

Lemma setDelete_NoDup (k : string) (s : list string) :
  NoDup s -> NoDup (JSMap.setDelete k s).
Proof. apply NoDup_filter. Qed.

Lemma setAdd_fresh (k : string) (s : list string) :
  ~ In k s -> JSMap.setAdd k s = s ++ [k].
Proof.
  intros H. unfold JSMap.setAdd, JSMap.setHas.
  destruct (existsb (String.eqb k) s) eqn:E; [| reflexivity].
  apply existsb_exists in E. destruct E as [x [I E]].
  apply String.eqb_eq in E. subst. contradiction.
Qed.

(** ** The LRU cache *)

Section LRUFacts.
Context {T : Type}.
Implicit Types (c : LRUCache.t T) (k key : string).

(** Book-keeping of the metrics touches neither the map nor the access
    order nor the configuration. *)
Lemma recordMiss_fields c :
  LRUCache.cache (LRUCache.recordMiss c) = LRUCache.cache c
  /\ LRUCache.accessOrder (LRUCache.recordMiss c) = LRUCache.accessOrder c
  /\ LRUCache.config (LRUCache.recordMiss c) = LRUCache.config c
  /\ LRUCache.evictions (LRUCache.metrics (LRUCache.recordMiss c))
     = LRUCache.evictions (LRUCache.metrics c).
Proof.
  unfold LRUCache.recordMiss.
  destruct (LRUCache.enableMetrics (LRUCache.config c)); cbn; auto.
Qed.

Lemma recordHit_fields c :
  LRUCache.cache (LRUCache.recordHit c) = LRUCache.cache c
  /\ LRUCache.accessOrder (LRUCache.recordHit c) = LRUCache.accessOrder c
  /\ LRUCache.config (LRUCache.recordHit c) = LRUCache.config c
  /\ LRUCache.evictions (LRUCache.metrics (LRUCache.recordHit c))
     = LRUCache.evictions (LRUCache.metrics c).
Proof.
  unfold LRUCache.recordHit.
  destruct (LRUCache.enableMetrics (LRUCache.config c)); cbn; auto.
Qed.

Lemma cache_recordMiss c :
  LRUCache.cache (LRUCache.recordMiss c) = LRUCache.cache c.
Proof. apply recordMiss_fields. Qed.

Lemma cache_recordHit c :
  LRUCache.cache (LRUCache.recordHit c) = LRUCache.cache c.
Proof. apply recordHit_fields. Qed.

(** What [evictLRU] leaves in the map: everything, or everything but
    the first key of the access order. *)
Lemma cache_evictLRU c :
  LRUCache.cache (LRUCache.evictLRU c) = LRUCache.cache c
  \/ exists lruKey,
       LRUCache.cache (LRUCache.evictLRU c)
       = JSMap.delete lruKey (LRUCache.cache c).
Proof.
  unfold LRUCache.evictLRU.
  destruct (LRUCache.accessOrder c) as [| lruKey r]; [now left |].
  destruct (falsy lruKey); [now left |].
  right. exists lruKey. reflexivity.
Qed.

Lemma cache_set c now key v ttl :
  exists c1,
    LRUCache.cache (LRUCache.set c now key v ttl)
    = JSMap.set key (storedEntry c now v ttl) (LRUCache.cache c1)
    /\ (LRUCache.cache c1 = LRUCache.cache c
        \/ exists lruKey,
             JSMap.has key (LRUCache.cache c) = false
             /\ LRUCache.cache c1 = JSMap.delete lruKey (LRUCache.cache c)).
Proof.
  unfold LRUCache.set, storedEntry.
  destruct (JSMap.has key (LRUCache.cache c)) eqn:H.
  - exists c. cbn. auto.
  - destruct (LRUCache.maxSize (LRUCache.config c)
              <=? JSMap.size (LRUCache.cache c)).
    + exists (LRUCache.evictLRU c). cbn. split; [reflexivity |].
      destruct (cache_evictLRU c) as [E | [lruKey E]]; [now left |].
      right. exists lruKey. auto.
    + exists c. cbn. auto.
Qed.

Lemma get_after_set c now key v ttl :
  JSMap.get key (LRUCache.cache (LRUCache.set c now key v ttl))
  = Some (storedEntry c now v ttl).
Proof.
  destruct (cache_set c now key v ttl) as [c1 [E _]].
  rewrite E. apply get_set_same.
Qed.

(** Looking a key up gives the stored value or a miss, according to
    the expiry of the entry. *)
Lemma get_result c now key :
  fst (LRUCache.get c now key)
  = match JSMap.get key (LRUCache.cache c) with
    | Some entry => if LRUCache.isExpired now entry then None
                    else Some (LRUCache.value entry)
    | None => None
    end.
Proof.
  unfold LRUCache.get.
  destruct (JSMap.get key (LRUCache.cache c)) as [entry |]; [| reflexivity].
  destruct (LRUCache.isExpired now entry); reflexivity.
Qed.

Lemma has_result c now key :
  fst (LRUCache.has c now key)
  = match JSMap.get key (LRUCache.cache c) with
    | Some entry => negb (LRUCache.isExpired now entry)
    | None => false
    end.
Proof.
  unfold LRUCache.has.
  destruct (JSMap.get key (LRUCache.cache c)) as [entry |]; [| reflexivity].
  destruct (LRUCache.isExpired now entry); reflexivity.
Qed.

Lemma cache_fold_dropKey (ks : list string) c :
  LRUCache.cache (fold_left LRUCache.dropKey ks c)
  = fold_left (fun m k => JSMap.delete k m) ks (LRUCache.cache c).
Proof.
  revert c. induction ks as [| k r IH]; intros c; cbn; [reflexivity |].
  now rewrite IH.
Qed.

Lemma cache_cleanup c now :
  LRUCache.cache (snd (LRUCache.cleanup c now))
  = fold_left (fun m k => JSMap.delete k m)
      (map fst (filter (fun e => LRUCache.isExpired now (snd e))
                       (LRUCache.cache c)))
      (LRUCache.cache c).
Proof.
  unfold LRUCache.cleanup. cbn [snd].
  destruct (0 <? _); cbn; apply cache_fold_dropKey.
Qed.

Lemma get_fold_delete_sub k (ks : list string)
      (m : list (string * LRUCache.CacheEntry T)) e :
  JSMap.get k (fold_left (fun m k => JSMap.delete k m) ks m) = Some e ->
  JSMap.get k m = Some e.
Proof.
  revert m. induction ks as [| k' r IH]; intros m; cbn; [auto |].
  intros H. apply IH in H.
  destruct (String.eqb_spec k k') as [-> | N].
  - now rewrite get_delete_same in H.
  - now rewrite get_delete_other in H.
Qed.

Lemma get_fold_delete_keep k (ks : list string)
      (m : list (string * LRUCache.CacheEntry T)) :
  ~ In k ks ->
  JSMap.get k (fold_left (fun m k => JSMap.delete k m) ks m) = JSMap.get k m.
Proof.
  revert m. induction ks as [| k' r IH]; intros m H; cbn; [reflexivity |].
  rewrite IH by (intros I; apply H; now right).
  apply get_delete_other. intros ->. apply H. now left.
Qed.
End LRUFacts.

(** ** Expiry *)

Section ExpiryFacts.
Context {T : Type}.
Implicit Types (c : LRUCache.t T) (k key : string) (op : CacheOp T).

Lemma get_delete_sub k key (m : list (string * LRUCache.CacheEntry T)) e :
  JSMap.get k (JSMap.delete key m) = Some e -> JSMap.get k m = Some e.
Proof.
  destruct (String.eqb_spec k key) as [-> | N].
  - now rewrite get_delete_same.
  - now rewrite get_delete_other.
Qed.

(** As long as nothing is stored under [k] again, the entry found
    under [k], if any, keeps its expiry time. *)
Lemma stepOp_keeps_expiry k (e0 : Z) c op :
  setsKey k op = false ->
  (forall e, JSMap.get k (LRUCache.cache c) = Some e ->
             LRUCache.expiresAt e = Some e0) ->
  forall e, JSMap.get k (LRUCache.cache (stepOp c op)) = Some e ->
            LRUCache.expiresAt e = Some e0.
Proof.
  intros Hop Inv e.
  destruct op as [now key | now key | now key v ttl | key | now | |];
    cbn [stepOp].
  - unfold LRUCache.get.
    destruct (JSMap.get key (LRUCache.cache c)) as [entry |] eqn:G; cbn [snd].
    + destruct (LRUCache.isExpired now entry); cbn [snd].
      * rewrite cache_recordMiss. cbn. intros H.
        apply get_delete_sub in H. auto.
      * rewrite cache_recordHit. cbn.
        destruct (String.eqb_spec k key) as [-> | N].
        -- rewrite get_set_same. intros [= <-]. cbn. auto.
        -- rewrite get_set_other by exact N. auto.
    + rewrite cache_recordMiss. auto.
  - unfold LRUCache.has.
    destruct (JSMap.get key (LRUCache.cache c)) as [entry |] eqn:G; cbn [snd].
    + destruct (LRUCache.isExpired now entry); cbn; [| auto].
      intros H. apply get_delete_sub in H. auto.
    + auto.
  - cbn in Hop. apply String.eqb_neq in Hop.
    destruct (cache_set c now key v ttl) as [c1 [E [E1 | [lruKey [_ E1]]]]];
      rewrite E, get_set_other, E1 by exact Hop; [auto |].
    intros H. apply get_delete_sub in H. auto.
  - unfold LRUCache.delete.
    destruct (JSMap.has key (LRUCache.cache c)); cbn; [| auto].
    intros H. apply get_delete_sub in H. auto.
  - rewrite cache_cleanup. intros H.
    apply get_fold_delete_sub in H. auto.
  - cbn. discriminate.
  - cbn. auto.
Qed.

Lemma runOps_keeps_expiry k (e0 : Z) (ops : list (CacheOp T)) c :
  Forall (fun op => setsKey k op = false) ops ->
  (forall e, JSMap.get k (LRUCache.cache c) = Some e ->
             LRUCache.expiresAt e = Some e0) ->
  forall e, JSMap.get k (LRUCache.cache (runOps c ops)) = Some e ->
            LRUCache.expiresAt e = Some e0.
Proof.
  intros F. revert c. induction F as [| op ops Hop F IH]; intros c Inv.
  - exact Inv.
  - cbn. apply IH. now apply stepOp_keeps_expiry.
Qed.

(** No key occurs twice in the map of a cache. *)
Lemma NoDup_keys_set key (e : LRUCache.CacheEntry T)
      (m : list (string * LRUCache.CacheEntry T)) :
  NoDup (JSMap.keys m) -> NoDup (JSMap.keys (JSMap.set key e m)).
Proof.
  intros N. destruct (in_dec string_dec key (JSMap.keys m)) as [I | NI].
  - now rewrite keys_set_present.
  - rewrite set_fresh by exact NI. unfold JSMap.keys in *.
    rewrite map_app. cbn.
    eapply Permutation_NoDup; [apply Permutation_cons_append |].
    now constructor.
Qed.

Lemma NoDup_keys_delete key (m : list (string * LRUCache.CacheEntry T)) :
  NoDup (JSMap.keys m) -> NoDup (JSMap.keys (JSMap.delete key m)).
Proof. intros N. rewrite keys_delete. now apply setDelete_NoDup. Qed.

Lemma NoDup_keys_fold_delete (ks : list string)
      (m : list (string * LRUCache.CacheEntry T)) :
  NoDup (JSMap.keys m) ->
  NoDup (JSMap.keys (fold_left (fun m k => JSMap.delete k m) ks m)).
Proof.
  revert m. induction ks as [| k r IH]; intros m N; cbn; [exact N |].
  apply IH, NoDup_keys_delete, N.
Qed.

Lemma stepOp_NoDup c op :
  NoDup (JSMap.keys (LRUCache.cache c)) ->
  NoDup (JSMap.keys (LRUCache.cache (stepOp c op))).
Proof.
  intros N.
  destruct op as [now key | now key | now key v ttl | key | now | |];
    cbn [stepOp].
  - unfold LRUCache.get.
    destruct (JSMap.get key (LRUCache.cache c)) as [entry |]; cbn [snd].
    + destruct (LRUCache.isExpired now entry); cbn [snd].
      * rewrite cache_recordMiss. cbn. now apply NoDup_keys_delete.
      * rewrite cache_recordHit. cbn. now apply NoDup_keys_set.
    + now rewrite cache_recordMiss.
  - unfold LRUCache.has.
    destruct (JSMap.get key (LRUCache.cache c)) as [entry |]; cbn [snd];
      [| exact N].
    destruct (LRUCache.isExpired now entry); cbn;
      [now apply NoDup_keys_delete | exact N].
  - destruct (cache_set c now key v ttl) as [c1 [E [E1 | [lruKey [_ E1]]]]];
      rewrite E; apply NoDup_keys_set; rewrite E1;
      [exact N | now apply NoDup_keys_delete].
  - unfold LRUCache.delete.
    destruct (JSMap.has key (LRUCache.cache c)); cbn;
      [now apply NoDup_keys_delete | exact N].
  - rewrite cache_cleanup. now apply NoDup_keys_fold_delete.
  - cbn. constructor.
  - cbn. exact N.
Qed.

Lemma runOps_NoDup (ops : list (CacheOp T)) c :
  NoDup (JSMap.keys (LRUCache.cache c)) ->
  NoDup (JSMap.keys (LRUCache.cache (runOps c ops))).
Proof.
  revert c. induction ops as [| op ops IH]; intros c N; cbn; [exact N |].
  apply IH, stepOp_NoDup, N.
Qed.

Lemma NoDup_keys_unique k (e e' : LRUCache.CacheEntry T)
      (m : list (string * LRUCache.CacheEntry T)) :
  NoDup (JSMap.keys m) -> In (k, e) m -> In (k, e') m -> e = e'.
Proof.
  induction m as [| [k0 e0] r IH]; cbn; intros N I I'; [destruct I |].
  inversion N as [| ? ? NI N']; subst.
  destruct I as [[= -> ->] | I]; destruct I' as [[= <-] | I'].
  - reflexivity.
  - exfalso. apply NI. apply (in_map fst) in I'. exact I'.
  - exfalso. apply NI. apply (in_map fst) in I. exact I.
  - auto.
Qed.

(** An entry without expiry time survives every lookup and every
    cleanup. *)
Lemma stepOp_keeps_permanent k (v : T) c op :
  readsOnly op = true ->
  NoDup (JSMap.keys (LRUCache.cache c)) ->
  (exists e, JSMap.get k (LRUCache.cache c) = Some e
             /\ LRUCache.expiresAt e = None /\ LRUCache.value e = v) ->
  exists e, JSMap.get k (LRUCache.cache (stepOp c op)) = Some e
            /\ LRUCache.expiresAt e = None /\ LRUCache.value e = v.
Proof.
  intros Hop N [e [G [X V]]].
  assert (Alive : forall now, LRUCache.isExpired now e = false)
    by (intros now; unfold LRUCache.isExpired; now rewrite X).
  destruct op as [now key | now key | | | now | |];
    try discriminate Hop; cbn [stepOp].
  - unfold LRUCache.get.
    destruct (JSMap.get key (LRUCache.cache c)) as [entry |] eqn:G';
      cbn [snd].
    + destruct (LRUCache.isExpired now entry) eqn:Ex; cbn [snd].
      * rewrite cache_recordMiss. cbn.
        destruct (String.eqb_spec k key) as [-> | Nk].
        -- rewrite G in G'. injection G' as <-. rewrite Alive in Ex.
           discriminate.
        -- rewrite get_delete_other by exact Nk. eauto.
      * rewrite cache_recordHit. cbn.
        destruct (String.eqb_spec k key) as [-> | Nk].
        -- rewrite get_set_same. rewrite G in G'. injection G' as <-.
           eexists. split; [reflexivity |]. cbn. auto.
        -- rewrite get_set_other by exact Nk. eauto.
    + rewrite cache_recordMiss. eauto.
  - unfold LRUCache.has.
    destruct (JSMap.get key (LRUCache.cache c)) as [entry |] eqn:G';
      cbn [snd]; [| eauto].
    destruct (LRUCache.isExpired now entry) eqn:Ex; cbn; [| eauto].
    destruct (String.eqb_spec k key) as [-> | Nk].
    + rewrite G in G'. injection G' as <-. rewrite Alive in Ex.
      discriminate.
    + rewrite get_delete_other by exact Nk. eauto.
  - rewrite cache_cleanup, get_fold_delete_keep; [eauto |].
    intros I. apply in_map_iff in I. destruct I as [[k' e'] [Ek I]].
    cbn in Ek. subst k'. apply filter_In in I. destruct I as [I Ex].
    cbn in Ex. apply get_In in G.
    rewrite (@NoDup_keys_unique k e' e _ N I G), Alive in Ex. discriminate.
Qed.

Lemma runOps_keeps_permanent k (v : T) (ops : list (CacheOp T)) c :
  Forall (fun op => readsOnly op = true) ops ->
  NoDup (JSMap.keys (LRUCache.cache c)) ->
  (exists e, JSMap.get k (LRUCache.cache c) = Some e
             /\ LRUCache.expiresAt e = None /\ LRUCache.value e = v) ->
  exists e, JSMap.get k (LRUCache.cache (runOps c ops)) = Some e
            /\ LRUCache.expiresAt e = None /\ LRUCache.value e = v.
Proof.
  intros F. revert c. induction F as [| op ops Hop F IH]; intros c N Inv.
  - exact Inv.
  - cbn. apply IH; [now apply stepOp_NoDup |].
    now apply stepOp_keeps_permanent.
Qed.
End ExpiryFacts.

(** C5. Take a cache in any state it can reach, and store a value under
    a key.  If the entry is given a time to live [ttl > 0] then, as long
    as nothing is stored under the key again, once more than [ttl]
    milliseconds have passed since the [set] a [get] of the key is a
    miss and [has] answers false.  If the entry is given the time to
    live 0 then it never expires, whatever the default of the cache:
    after any number of lookups and cleanups, at any time, [get] returns
    the value and [has] answers true. *)
Theorem C5_ttl_expiry
        {T : Type} (cfg : LRUCache.LRUCacheConfig) (history : list (CacheOp T))
        (now : Z) (key : string) (v : T) (ttl : Z)
        (ops : list (CacheOp T)) (now' : Z) :
  let c := runOps (LRUCache.create cfg) history in
  (0 < ttl ->
   Forall (fun op => setsKey key op = false) ops ->
   now + ttl < now' ->
   let c' := runOps (LRUCache.set c now key v (Some ttl)) ops in
   fst (LRUCache.get c' now' key) = None
   /\ fst (LRUCache.has c' now' key) = false)
  /\ (Forall (fun op => readsOnly op = true) ops ->
      let c' := runOps (LRUCache.set c now key v (Some 0)) ops in
      fst (LRUCache.get c' now' key) = Some v
      /\ fst (LRUCache.has c' now' key) = true).
Proof.
  intros c. split.
  - intros Httl F Hlate c'.
    assert (Inv : forall e, JSMap.get key (LRUCache.cache c') = Some e ->
                            LRUCache.expiresAt e = Some (now + ttl)).
    { apply runOps_keeps_expiry; [exact F |].
      intros e. rewrite get_after_set. intros [= <-].
      unfold storedEntry. cbn.
      destruct (Z.ltb_spec 0 ttl); [reflexivity | lia]. }
    rewrite get_result, has_result.
    destruct (JSMap.get key (LRUCache.cache c')) as [e |]; [| auto].
    unfold LRUCache.isExpired. rewrite (Inv e eq_refl).
    destruct (Z.ltb_spec (now + ttl) now'); [auto | lia].
  - intros F c'.
    assert (Inv : exists e, JSMap.get key (LRUCache.cache c') = Some e
                            /\ LRUCache.expiresAt e = None
                            /\ LRUCache.value e = v).
    { apply runOps_keeps_permanent; [exact F | |].
      - apply (stepOp_NoDup c (OpSet now key v (Some 0))).
        apply runOps_NoDup. constructor.
      - eexists. split; [apply get_after_set |]. cbn. auto. }
    destruct Inv as [e [G [X V]]].
    rewrite get_result, has_result, G.
    unfold LRUCache.isExpired. rewrite X, V. auto.
Qed.

Lemma C5_ttl_expiry_witness :
  let c := runOps (LRUCache.create LRUCache.DEFAULT_LRU_CONFIG)
                  [OpSet 0 "first" 1 None] in
  let short := runOps (LRUCache.set c 100 "key" 7 (Some 50))
                      [OpGet 120 "key"; OpSet 130 "other" 2 None] in
  let permanent := runOps (LRUCache.set c 100 "key" 7 (Some 0))
                          [OpCleanup 1000000; OpGet 2000000 "first"] in
  (fst (LRUCache.get short 151 "key") = None
   /\ fst (LRUCache.has short 151 "key") = false)
  /\ (fst (LRUCache.get permanent 3000000 "key") = Some 7
      /\ fst (LRUCache.has permanent 3000000 "key") = true).
Proof.
  cbv zeta. split.
  - apply (proj1 (@C5_ttl_expiry Z LRUCache.DEFAULT_LRU_CONFIG
                    [OpSet 0 "first" 1 None] 100 "key" 7 50
                    [OpGet 120 "key"; OpSet 130 "other" 2 None] 151)).
    + lia.
    + repeat constructor.
    + lia.
  - apply (proj2 (@C5_ttl_expiry Z LRUCache.DEFAULT_LRU_CONFIG
                    [OpSet 0 "first" 1 None] 100 "key" 7 0
                    [OpCleanup 1000000; OpGet 2000000 "first"] 3000000)).
    repeat constructor.
Defined.

(** ** Eviction *)

Section EvictionFacts.
Context {T : Type}.
Implicit Types (c : LRUCache.t T) (k : string).

(** Storing under a new key while there is room appends the key and
    evicts nothing. *)
Lemma set_fresh_room c now k (v : T) ttl :
  ~ In k (JSMap.keys (LRUCache.cache c)) ->
  ~ In k (LRUCache.accessOrder c) ->
  JSMap.size (LRUCache.cache c) < LRUCache.maxSize (LRUCache.config c) ->
  let c' := LRUCache.set c now k v ttl in
  JSMap.keys (LRUCache.cache c') = JSMap.keys (LRUCache.cache c) ++ [k]
  /\ LRUCache.accessOrder c' = LRUCache.accessOrder c ++ [k]
  /\ LRUCache.evictions (LRUCache.metrics c')
     = LRUCache.evictions (LRUCache.metrics c)
  /\ LRUCache.config c' = LRUCache.config c.
Proof.
  intros NK NA Room. unfold LRUCache.set.
  rewrite (proj2 (has_false_keys k (LRUCache.cache c)) NK).
  destruct (Z.leb_spec (LRUCache.maxSize (LRUCache.config c))
                       (JSMap.size (LRUCache.cache c))); [lia |].
  cbn. rewrite set_fresh by exact NK. rewrite setAdd_fresh by exact NA.
  unfold JSMap.keys. rewrite map_app. auto.
Qed.

(** Storing under a new key when the cache is full evicts the first
    key of the access order, provided that key is not the empty
    string, and appends the new key. *)
Lemma set_fresh_full c now k (v : T) ttl (k1 : string) (rest : list string) :
  JSMap.keys (LRUCache.cache c) = k1 :: rest ->
  LRUCache.accessOrder c = k1 :: rest ->
  NoDup (k1 :: rest) ->
  k1 <> EmptyString ->
  ~ In k (k1 :: rest) ->
  LRUCache.maxSize (LRUCache.config c) <= JSMap.size (LRUCache.cache c) ->
  let c' := LRUCache.set c now k v ttl in
  JSMap.keys (LRUCache.cache c') = rest ++ [k]
  /\ LRUCache.accessOrder c' = rest ++ [k]
  /\ LRUCache.evictions (LRUCache.metrics c')
     = LRUCache.evictions (LRUCache.metrics c) + 1
  /\ LRUCache.config c' = LRUCache.config c.
Proof.
  intros HK HA ND N1 NI Full. unfold LRUCache.set.
  assert (NK : ~ In k (JSMap.keys (LRUCache.cache c))) by now rewrite HK.
  rewrite (proj2 (has_false_keys k (LRUCache.cache c)) NK).
  destruct (Z.leb_spec (LRUCache.maxSize (LRUCache.config c))
                       (JSMap.size (LRUCache.cache c))); [| lia].
  unfold LRUCache.evictLRU. rewrite HA, (falsy_false N1).
  inversion ND as [| ? ? N1r NDr]; subst.
  assert (NR : ~ In k rest) by (intros I; apply NI; now right).
  cbn -[JSMap.setDelete JSMap.delete].
  assert (KD : JSMap.keys (JSMap.delete k1 (LRUCache.cache c)) = rest)
    by (rewrite keys_delete, HK; now apply setDelete_head).
  rewrite set_fresh by now rewrite KD.
  rewrite HA, (setDelete_head k1 rest N1r), (setAdd_fresh k rest NR).
  unfold JSMap.keys in *. rewrite map_app, KD. auto.
Qed.

(** A [set] evicts at most one entry, and none while there is room. *)
Lemma set_evictions c now k (v : T) ttl :
  let before := LRUCache.evictions (LRUCache.metrics c) in
  let after :=
    LRUCache.evictions (LRUCache.metrics (LRUCache.set c now k v ttl)) in
  before <= after <= before + 1
  /\ (JSMap.size (LRUCache.cache c) < LRUCache.maxSize (LRUCache.config c) ->
      after = before)
  /\ (JSMap.has k (LRUCache.cache c) = true -> after = before).
Proof.
  unfold LRUCache.set.
  destruct (JSMap.has k (LRUCache.cache c)); cbn; [lia |].
  destruct (Z.leb_spec (LRUCache.maxSize (LRUCache.config c))
                       (JSMap.size (LRUCache.cache c))).
  - unfold LRUCache.evictLRU.
    destruct (LRUCache.accessOrder c) as [| lruKey r]; cbn; [lia |].
    destruct (falsy lruKey); cbn; [lia |].
    repeat split; try lia; try discriminate.
  - cbn. repeat split; try lia; try discriminate.
Qed.

Lemma fill_below_capacity (ops : list (CacheOp T)) (ks : list string) :
  storesKeys ops ks ->
  forall c,
    JSMap.keys (LRUCache.cache c) = LRUCache.accessOrder c ->
    NoDup (LRUCache.accessOrder c ++ ks) ->
    Z.of_nat (List.length (LRUCache.accessOrder c) + List.length ks)
    <= LRUCache.maxSize (LRUCache.config c) ->
    let c' := runOps c ops in
    JSMap.keys (LRUCache.cache c') = LRUCache.accessOrder c ++ ks
    /\ LRUCache.accessOrder c' = LRUCache.accessOrder c ++ ks
    /\ LRUCache.evictions (LRUCache.metrics c')
       = LRUCache.evictions (LRUCache.metrics c)
    /\ LRUCache.config c' = LRUCache.config c.
Proof.
  induction 1 as [| op k ops ks [now [v [ttl ->]]] F IH]; intros c HK ND Cap.
  - cbn. rewrite app_nil_r. auto.
  - cbn [runOps fold_left stepOp].
    assert (NA : ~ In k (LRUCache.accessOrder c)).
    { intros I. apply NoDup_remove_2 in ND. apply ND.
      apply in_or_app. now left. }
    destruct (@set_fresh_room c now k v ttl) as (K1 & A1 & E1 & C1).
    + now rewrite HK.
    + exact NA.
    + rewrite size_keys, HK. cbn [List.length] in Cap. lia.
    + specialize (IH (LRUCache.set c now k v ttl)).
      rewrite A1, C1, <- app_assoc in IH. cbn [app] in IH.
      destruct IH as (K2 & A2 & E2 & C2).
      * now rewrite K1, HK.
      * exact ND.
      * rewrite length_app. cbn [List.length] in *. lia.
      * fold (runOps (LRUCache.set c now k v ttl) ops).
        rewrite K2, A2, E2, C2, E1. auto.
Qed.

(** Storing [maxSize + 1] distinct keys in a new cache of capacity
    [maxSize >= 1], the first of them not the empty string, evicts
    once, and evicts the first key. *)
Lemma overflow_evicts_first (cfg : LRUCache.LRUCacheConfig)
      (ops : list (CacheOp T)) (ks : list string) :
  1 <= LRUCache.maxSize cfg ->
  storesKeys ops ks ->
  NoDup ks ->
  Z.of_nat (List.length ks) = LRUCache.maxSize cfg + 1 ->
  hd EmptyString ks <> EmptyString ->
  let c := runOps (LRUCache.create cfg) ops in
  LRUCache.evictions (LRUCache.getMetrics c) = 1
  /\ LRUCache.keys c = tl ks
  /\ LRUCache.size c = LRUCache.maxSize cfg.
Proof.
  intros Pos F ND Len Hd.
  destruct (@exists_last _ ks) as [ks1 [klast ->]].
  { intros ->. cbn in Len. lia. }
  rewrite length_app in Len. cbn [List.length] in Len.
  apply Forall2_app_inv_r in F.
  destruct F as (ops1 & ops2 & F1 & F2 & ->).
  inversion F2 as [| op ? ? ? [now [v [ttl ->]]] F3]; subst.
  inversion F3; subst.
  unfold runOps. rewrite fold_left_app. cbn [fold_left stepOp].
  fold (runOps (LRUCache.create (T := T) cfg) ops1).
  destruct (@fill_below_capacity ops1 ks1 F1 (LRUCache.create cfg))
    as (K1 & A1 & E1 & C1).
  - reflexivity.
  - cbn. now apply NoDup_remove_1 in ND; rewrite app_nil_r in ND.
  - cbn. lia.
  - cbn [LRUCache.create LRUCache.accessOrder LRUCache.metrics
           LRUCache.evictions LRUCache.config app] in K1, A1, E1, C1.
    destruct ks1 as [| k1 rest]; [cbn in Len; lia |].
    cbn [hd app] in Hd.
    destruct (@set_fresh_full (runOps (LRUCache.create cfg) ops1)
                              now klast v ttl k1 rest)
      as (K2 & A2 & E2 & C2).
    + exact K1.
    + exact A1.
    + apply NoDup_remove_1 in ND. now rewrite app_nil_r in ND.
    + exact Hd.
    + apply NoDup_remove_2 in ND. now rewrite app_nil_r in ND.
    + rewrite size_keys, K1, C1. cbn [List.length] in *. lia.
    + unfold LRUCache.getMetrics, LRUCache.keys, LRUCache.size.
      rewrite E2, E1, size_keys.
      fold (JSMap.keys (LRUCache.cache
             (LRUCache.set (runOps (LRUCache.create cfg) ops1)
                           now klast v ttl))).
      rewrite K2. cbn [tl app].
      split; [lia |]. split; [reflexivity |].
      rewrite length_app. cbn [List.length] in *. lia.
Qed.
End EvictionFacts.

(** C3. A cache of capacity 1 that is given first the empty string as a
    key and then a second key evicts nothing: [evictLRU] takes the empty
    string, which is falsy, for the absence of a key.  The cache then
    holds two entries, one more than its capacity.  With any other first
    key the same two calls evict that key, as they should. *)
Theorem C3_empty_key_not_evicted :
  let cfg := LRUCache.mkConfig 1 0 0 true in
  let c := runOps (LRUCache.create cfg)
                  [OpSet 0 EmptyString 10 None; OpSet 1 "a" 20 None] in
  let d := runOps (LRUCache.create cfg)
                  [OpSet 0 "b" 10 None; OpSet 1 "a" 20 None] in
  (LRUCache.evictions (LRUCache.getMetrics c) = 0
   /\ LRUCache.keys c = [EmptyString; "a"%string]
   /\ LRUCache.size c = 2)
  /\ (LRUCache.evictions (LRUCache.getMetrics d) = 1
      /\ LRUCache.keys d = ["a"%string]
      /\ LRUCache.size d = 1).
Proof. vm_compute. repeat split; reflexivity. Qed.

(** ** The caching decorator *)

Section DecoratorFacts.
Variable hashConfig : MatchConfig -> string.

Lemma getArtistMatches_get (mc : MatcherCache.t) (now : Z) (query : string)
      (cfg : MatchConfig) :
  MatcherCache.getArtistMatches hashConfig mc now query cfg
  = (fst (LRUCache.get (MatcherCache.artistCache mc) now
            (MatcherCache.generateArtistCacheKey hashConfig query cfg)),
     MatcherCache.mkMatcherCache
       (snd (LRUCache.get (MatcherCache.artistCache mc) now
               (MatcherCache.generateArtistCacheKey hashConfig query cfg)))
       (MatcherCache.venueCache mc) (MatcherCache.aliasCache mc)
       (MatcherCache.config mc)).
Proof.
  unfold MatcherCache.getArtistMatches.
  now destruct (LRUCache.get _ _ _).
Qed.

Lemma getVenueMatches_get (mc : MatcherCache.t) (now : Z) (query : string)
      (cfg : MatchConfig) (cityFilter : option string) :
  MatcherCache.getVenueMatches hashConfig mc now query cfg cityFilter
  = (fst (LRUCache.get (MatcherCache.venueCache mc) now
            (MatcherCache.generateVenueCacheKey hashConfig query cfg
               cityFilter)),
     MatcherCache.mkMatcherCache
       (MatcherCache.artistCache mc)
       (snd (LRUCache.get (MatcherCache.venueCache mc) now
               (MatcherCache.generateVenueCacheKey hashConfig query cfg
                  cityFilter)))
       (MatcherCache.aliasCache mc) (MatcherCache.config mc)).
Proof.
  unfold MatcherCache.getVenueMatches.
  now destruct (LRUCache.get _ _ _).
Qed.

(** A lookup right after a store of the same key finds the stored
    value or, the entry having expired, nothing. *)
Lemma get_set_value {T : Type} (c : LRUCache.t T) (now now' : Z)
      (key : string) (v : T) (ttl : option Z) :
  fst (LRUCache.get (LRUCache.set c now key v ttl) now' key) = None
  \/ fst (LRUCache.get (LRUCache.set c now key v ttl) now' key) = Some v.
Proof.
  rewrite get_result, get_after_set.
  destruct (LRUCache.isExpired now' (storedEntry c now v ttl));
    [now left | now right].
Qed.

Lemma get_create {T : Type} (cfg : LRUCache.LRUCacheConfig) (now : Z)
      (key : string) :
  fst (LRUCache.get (LRUCache.create (T := T) cfg) now key) = None.
Proof. reflexivity. Qed.

Lemma cached_matchArtists_fst (m : CachedEntityMatcher.t) (tg ts : Z)
      (query : string) (artists : list MatchableArtist) :
  falsy (trim query) || (List.length artists =? 0)%nat = false ->
  fst (CachedEntityMatcher.matchArtists hashConfig m tg ts query artists)
  = match fst (LRUCache.get
                 (MatcherCache.artistCache (CachedEntityMatcher.cache m)) tg
                 (MatcherCache.generateArtistCacheKey hashConfig query
                    (CachedEntityMatcher.config m))) with
    | Some r => r
    | None => EntityMatcher.matchArtists (CachedEntityMatcher.config m)
                                         query artists
    end.
Proof.
  intros G. unfold CachedEntityMatcher.matchArtists.
  rewrite G, getArtistMatches_get.
  now destruct (fst (LRUCache.get _ _ _)).
Qed.

Lemma cached_matchArtists_miss (m : CachedEntityMatcher.t) (tg ts : Z)
      (query : string) (artists : list MatchableArtist) :
  falsy (trim query) || (List.length artists =? 0)%nat = false ->
  fst (LRUCache.get
         (MatcherCache.artistCache (CachedEntityMatcher.cache m)) tg
         (MatcherCache.generateArtistCacheKey hashConfig query
            (CachedEntityMatcher.config m))) = None ->
  MatcherCache.artistCache
    (CachedEntityMatcher.cache
       (snd (CachedEntityMatcher.matchArtists hashConfig m tg ts
                                              query artists)))
  = LRUCache.set
      (snd (LRUCache.get
              (MatcherCache.artistCache (CachedEntityMatcher.cache m)) tg
              (MatcherCache.generateArtistCacheKey hashConfig query
                 (CachedEntityMatcher.config m))))
      ts
      (MatcherCache.generateArtistCacheKey hashConfig query
         (CachedEntityMatcher.config m))
      (EntityMatcher.matchArtists (CachedEntityMatcher.config m)
                                  query artists)
      None
  /\ CachedEntityMatcher.config
       (snd (CachedEntityMatcher.matchArtists hashConfig m tg ts
                                              query artists))
     = CachedEntityMatcher.config m.
Proof.
  intros G E. unfold CachedEntityMatcher.matchArtists.
  rewrite G, getArtistMatches_get, E. split; reflexivity.
Qed.

Lemma cached_matchVenues_fst (m : CachedEntityMatcher.t) (tg ts : Z)
      (query : string) (venues : list MatchableVenue)
      (cityFilter : option string) :
  falsy (trim query) || (List.length venues =? 0)%nat = false ->
  fst (CachedEntityMatcher.matchVenues hashConfig m tg ts query venues
                                       cityFilter)
  = match fst (LRUCache.get
                 (MatcherCache.venueCache (CachedEntityMatcher.cache m)) tg
                 (MatcherCache.generateVenueCacheKey hashConfig query
                    (CachedEntityMatcher.config m) cityFilter)) with
    | Some r => r
    | None => EntityMatcher.matchVenues (CachedEntityMatcher.config m)
                                        query venues cityFilter
    end.
Proof.
  intros G. unfold CachedEntityMatcher.matchVenues.
  rewrite G, getVenueMatches_get.
  now destruct (fst (LRUCache.get _ _ _)).
Qed.

Lemma cached_matchVenues_miss (m : CachedEntityMatcher.t) (tg ts : Z)
      (query : string) (venues : list MatchableVenue)
      (cityFilter : option string) :
  falsy (trim query) || (List.length venues =? 0)%nat = false ->
  fst (LRUCache.get
         (MatcherCache.venueCache (CachedEntityMatcher.cache m)) tg
         (MatcherCache.generateVenueCacheKey hashConfig query
            (CachedEntityMatcher.config m) cityFilter)) = None ->
  MatcherCache.venueCache
    (CachedEntityMatcher.cache
       (snd (CachedEntityMatcher.matchVenues hashConfig m tg ts
                                             query venues cityFilter)))
  = LRUCache.set
      (snd (LRUCache.get
              (MatcherCache.venueCache (CachedEntityMatcher.cache m)) tg
              (MatcherCache.generateVenueCacheKey hashConfig query
                 (CachedEntityMatcher.config m) cityFilter)))
      ts
      (MatcherCache.generateVenueCacheKey hashConfig query
         (CachedEntityMatcher.config m) cityFilter)
      (EntityMatcher.matchVenues (CachedEntityMatcher.config m)
                                 query venues cityFilter)
      None
  /\ CachedEntityMatcher.config
       (snd (CachedEntityMatcher.matchVenues hashConfig m tg ts
                                             query venues cityFilter))
     = CachedEntityMatcher.config m.
Proof.
  intros G E. unfold CachedEntityMatcher.matchVenues.
  rewrite G, getVenueMatches_get, E. split; reflexivity.
Qed.

Lemma cached_matchArtists_twice (matchCfg : MatchConfig)
      (cacheCfg : MatcherCache.MatcherCacheConfig) (query : string)
      (artists : list MatchableArtist) (t1 t2 t3 t4 : Z) :
  let m0 := CachedEntityMatcher.create matchCfg cacheCfg in
  let first := CachedEntityMatcher.matchArtists hashConfig m0 t1 t2
                                                query artists in
  let second := CachedEntityMatcher.matchArtists hashConfig (snd first) t3 t4
                                                 query artists in
  fst first = EntityMatcher.matchArtists matchCfg query artists
  /\ fst second = EntityMatcher.matchArtists matchCfg query artists.
Proof.
  cbv zeta.
  destruct (falsy (trim query) || (List.length artists =? 0)%nat) eqn:G.
  - unfold CachedEntityMatcher.matchArtists, EntityMatcher.matchArtists.
    rewrite G. cbn [fst snd]. auto.
  - destruct (@cached_matchArtists_miss
                (CachedEntityMatcher.create matchCfg cacheCfg)
                t1 t2 query artists G eq_refl) as [S C].
    split.
    + now rewrite cached_matchArtists_fst.
    + rewrite cached_matchArtists_fst by exact G. rewrite S, C.
      match goal with
      | |- context [LRUCache.get (LRUCache.set ?c ?n ?k ?v ?ttl) ?n' ?k] =>
          destruct (get_set_value c n n' k v ttl) as [E | E]
      end; rewrite E; reflexivity.
Qed.

Lemma cached_matchVenues_twice (matchCfg : MatchConfig)
      (cacheCfg : MatcherCache.MatcherCacheConfig) (query : string)
      (venues : list MatchableVenue) (cityFilter : option string)
      (t1 t2 t3 t4 : Z) :
  let m0 := CachedEntityMatcher.create matchCfg cacheCfg in
  let first := CachedEntityMatcher.matchVenues hashConfig m0 t1 t2
                                               query venues cityFilter in
  let second := CachedEntityMatcher.matchVenues hashConfig (snd first) t3 t4
                                                query venues cityFilter in
  fst first = EntityMatcher.matchVenues matchCfg query venues cityFilter
  /\ fst second = EntityMatcher.matchVenues matchCfg query venues cityFilter.
Proof.
  cbv zeta.
  destruct (falsy (trim query) || (List.length venues =? 0)%nat) eqn:G.
  - unfold CachedEntityMatcher.matchVenues, EntityMatcher.matchVenues.
    rewrite G. cbn [fst snd]. auto.
  - destruct (@cached_matchVenues_miss
                (CachedEntityMatcher.create matchCfg cacheCfg)
                t1 t2 query venues cityFilter G eq_refl) as [S C].
    split.
    + now rewrite cached_matchVenues_fst.
    + rewrite cached_matchVenues_fst by exact G. rewrite S, C.
      match goal with
      | |- context [LRUCache.get (LRUCache.set ?c ?n ?k ?v ?ttl) ?n' ?k] =>
          destruct (get_set_value c n n' k v ttl) as [E | E]
      end; rewrite E; reflexivity.
Qed.

(** The repeated call is answered by the cache when the entry has not
    expired in between. *)
Lemma repeated_call_hits_cache (matchCfg : MatchConfig)
      (cacheCfg : MatcherCache.MatcherCacheConfig) (query : string)
      (artists : list MatchableArtist) (t1 t2 t3 : Z) :
  falsy (trim query) || (List.length artists =? 0)%nat = false ->
  t3 <= t2 + MatcherCache.artistCacheTTL cacheCfg ->
  let m0 := CachedEntityMatcher.create matchCfg cacheCfg in
  let first := CachedEntityMatcher.matchArtists hashConfig m0 t1 t2
                                                query artists in
  fst (MatcherCache.getArtistMatches hashConfig
         (CachedEntityMatcher.cache (snd first)) t3 query matchCfg)
  = Some (EntityMatcher.matchArtists matchCfg query artists).
Proof.
  intros G Fresh. cbv zeta.
  destruct (@cached_matchArtists_miss
              (CachedEntityMatcher.create matchCfg cacheCfg)
              t1 t2 query artists G eq_refl) as [S _].
  rewrite getArtistMatches_get. cbn [fst].
  change (CachedEntityMatcher.config
            (CachedEntityMatcher.create matchCfg cacheCfg))
    with matchCfg in S.
  rewrite S, get_result, get_after_set.
  unfold LRUCache.isExpired, storedEntry.
  cbn [LRUCache.expiresAt LRUCache.value].
  destruct (0 <? _); [| reflexivity].
  match goal with
  | |- context [?a <? t3] => destruct (Z.ltb_spec a t3) as [L | L]
  end; [| reflexivity].
  exfalso. revert L.
  unfold CachedEntityMatcher.create, MatcherCache.create, LRUCache.get,
    LRUCache.create, LRUCache.recordMiss.
  cbn. destruct (MatcherCache.enableMetrics cacheCfg); cbn; lia.
Qed.
End DecoratorFacts.

(** C6. Starting from an empty cache, for every query, list of
    candidates and city filter, the first call of the cached
    [matchArtists] (respectively [matchVenues]) returns the list that
    the uncached matcher returns with the same configuration, and so
    does the same call repeated at once with the same candidates,
    whether it is served from the cache or, the entry having expired,
    computed again. *)
Theorem C6_cached_equals_uncached
        (hashConfig : MatchConfig -> string) (matchCfg : MatchConfig)
        (cacheCfg : MatcherCache.MatcherCacheConfig) (query : string)
        (artists : list MatchableArtist) (venues : list MatchableVenue)
        (cityFilter : option string) (t1 t2 t3 t4 : Z) :
  let m0 := CachedEntityMatcher.create matchCfg cacheCfg in
  let firstA := CachedEntityMatcher.matchArtists hashConfig m0 t1 t2
                                                 query artists in
  let secondA := CachedEntityMatcher.matchArtists hashConfig (snd firstA) t3 t4
                                                  query artists in
  let firstV := CachedEntityMatcher.matchVenues hashConfig m0 t1 t2
                                                query venues cityFilter in
  let secondV := CachedEntityMatcher.matchVenues hashConfig (snd firstV) t3 t4
                                                 query venues cityFilter in
  fst firstA = EntityMatcher.matchArtists matchCfg query artists
  /\ fst secondA = EntityMatcher.matchArtists matchCfg query artists
  /\ fst firstV = EntityMatcher.matchVenues matchCfg query venues cityFilter
  /\ fst secondV = EntityMatcher.matchVenues matchCfg query venues cityFilter.
Proof.
  cbv zeta.
  destruct (cached_matchArtists_twice hashConfig matchCfg cacheCfg query
              artists t1 t2 t3 t4) as [A1 A2].
  destruct (cached_matchVenues_twice hashConfig matchCfg cacheCfg query
              venues cityFilter t1 t2 t3 t4) as [V1 V2].
  auto.
Qed.

(* ================================================================== *)
(** * Further properties of the code *)
(* ================================================================== *)

(** ** The edit distance *)

Lemma lev_nil_r (a : list ascii) : lev a [] = List.length a.
Proof. destruct a; reflexivity. Qed.

Lemma lev_cons_cons (x y : ascii) (a b : list ascii) :
  lev (x :: a) (y :: b)
  = if Ascii.eqb x y then lev a b
    else S (Nat.min (lev a (y :: b)) (Nat.min (lev (x :: a) b) (lev a b))).
Proof. reflexivity. Qed.

Lemma lev_sym (a b : list ascii) : lev a b = lev b a.
Proof.
  revert b. induction a as [| x a IHa]; intros b.
  - now rewrite lev_nil_r.
  - induction b as [| y b IHb].
    + now rewrite lev_nil_r.
    + rewrite !lev_cons_cons, Ascii.eqb_sym.
      rewrite IHb, (IHa (y :: b)), (IHa b).
      destruct (Ascii.eqb y x); [reflexivity |]. f_equal. lia.
Qed.

Lemma lev_le_max (a b : list ascii) :
  (lev a b <= Nat.max (List.length a) (List.length b))%nat.
Proof.
  revert b. induction a as [| x a IHa]; intros b.
  - cbn. lia.
  - induction b as [| y b IHb].
    + rewrite lev_nil_r. cbn. lia.
    + rewrite lev_cons_cons. specialize (IHa b). cbn [List.length].
      destruct (Ascii.eqb x y); lia.
Qed.

Lemma lev_zero_iff (a b : list ascii) : lev a b = 0%nat <-> a = b.
Proof.
  revert b. induction a as [| x a IHa]; intros b.
  - cbn. destruct b; cbn; split; congruence.
  - destruct b as [| y b].
    + rewrite lev_nil_r. cbn. split; congruence.
    + rewrite lev_cons_cons.
      destruct (Ascii.eqb_spec x y) as [-> | N].
      * rewrite IHa. split; congruence.
      * split; [discriminate | congruence].
Qed.

Lemma revPrefixes_length (t acc : list ascii) :
  List.length (revPrefixes t acc) = S (List.length t).
Proof.
  revert acc. induction t as [| d t IH]; intros acc; cbn; [reflexivity |].
  now rewrite IH.
Qed.

Lemma revPrefixes_lengths (t acc : list ascii) :
  map (@List.length ascii) (revPrefixes t acc)
  = seq (List.length acc) (S (List.length t)).
Proof.
  revert acc. induction t as [| d t IH]; intros acc; [reflexivity |].
  cbn [revPrefixes map List.length]. rewrite IH. reflexivity.
Qed.

Lemma revPrefixes_last (t acc : list ascii) (d : list ascii) :
  last (revPrefixes t acc) d = rev t ++ acc.
Proof.
  revert acc. induction t as [| c t IH]; intros acc; [reflexivity |].
  cbn [revPrefixes]. specialize (IH (c :: acc)).
  destruct (revPrefixes t (c :: acc)) as [| p ps] eqn:E.
  - destruct t; discriminate E.
  - cbn [last]. cbn [last] in IH. rewrite IH. cbn [rev].
    now rewrite <- app_assoc.
Qed.

(** One row of the table holds the distances of the recurrence. *)
Lemma distanceRow_lev (c : ascii) (rp : list ascii) (t acc : list ascii) :
  EditDistance.distanceRow c (map (lev rp) (tl (revPrefixes t acc))) t
                           (lev (c :: rp) acc) (lev rp acc)
  = map (lev (c :: rp)) (tl (revPrefixes t acc)).
Proof.
  revert acc. induction t as [| d t IH]; intros acc; [reflexivity |].
  cbn [revPrefixes tl]. specialize (IH (d :: acc)).
  destruct t as [| d' t'].
  - cbn. now rewrite Nat.min_comm.
  - cbn [revPrefixes tl map] in *.
    cbn [EditDistance.distanceRow].
    rewrite lev_cons_cons in IH. rewrite lev_cons_cons.
    f_equal. exact IH.
Qed.

Lemma revPrefixes_head (t acc : list ascii) :
  revPrefixes t acc = acc :: tl (revPrefixes t acc).
Proof. destruct t; reflexivity. Qed.

Lemma next_row_lev (c : ascii) (rp t : list ascii) :
  S (List.length rp)
    :: EditDistance.distanceRow c
         (tl (map (lev rp) (revPrefixes t []))) t
         (S (List.length rp)) (hd 0%nat (map (lev rp) (revPrefixes t [])))
  = map (lev (c :: rp)) (revPrefixes t []).
Proof.
  pose proof (distanceRow_lev c rp t []) as H.
  rewrite !lev_nil_r in H. cbn [List.length] in H.
  rewrite (revPrefixes_head t []). cbn [map hd tl].
  rewrite lev_nil_r. f_equal. exact H.
Qed.

Lemma distanceRows_lev (s t rp : list ascii) :
  EditDistance.distanceRows s t (List.length rp)
                            (map (lev rp) (revPrefixes t []))
  = map (lev (rev s ++ rp)) (revPrefixes t []).
Proof.
  revert rp. induction s as [| c s IH]; intros rp; [reflexivity |].
  cbn [EditDistance.distanceRows rev]. rewrite <- app_assoc. cbn [app].
  rewrite <- (IH (c :: rp)). cbn [List.length].
  now rewrite next_row_lev.
Qed.

Lemma chars_length (s : string) :
  List.length (list_ascii_of_string s) = String.length s.
Proof. induction s as [| c s IH]; cbn; [reflexivity | now rewrite IH]. Qed.

Lemma last_map_nonempty {A B : Type} (f : A -> B) (l : list A) (d : B)
      (d' : A) :
  l <> [] -> last (map f l) d = f (last l d').
Proof.
  induction l as [| x l IH]; [congruence |]. intros _.
  destruct l as [| y l]; [reflexivity |].
  cbn [map last] in *. apply IH. discriminate.
Qed.

(** The table computes the recurrence. *)
Lemma distance_lev (s t : string) :
  EditDistance.distance s t
  = Z.of_nat (lev (rev (list_ascii_of_string s))
                  (rev (list_ascii_of_string t))).
Proof.
  unfold EditDistance.distance. f_equal.
  assert (R0 : seq 0 (S (String.length t))
               = map (lev []) (revPrefixes (list_ascii_of_string t) [])).
  { change (lev []) with (@List.length ascii).
    rewrite revPrefixes_lengths. cbn [List.length].
    now rewrite chars_length. }
  rewrite R0.
  pose proof (distanceRows_lev (list_ascii_of_string s)
                               (list_ascii_of_string t) []) as H.
  cbn [List.length] in H. rewrite H, app_nil_r.
  rewrite (@last_map_nonempty _ _ _ _ 0%nat []).
  - now rewrite revPrefixes_last, app_nil_r.
  - rewrite revPrefixes_head. discriminate.
Qed.

Lemma chars_inj (s t : string) :
  list_ascii_of_string s = list_ascii_of_string t -> s = t.
Proof.
  intros E. rewrite <- (string_of_list_ascii_of_string s),
              <- (string_of_list_ascii_of_string t). now rewrite E.
Qed.

Lemma distance_sym (s t : string) :
  EditDistance.distance s t = EditDistance.distance t s.
Proof. rewrite !distance_lev. now rewrite lev_sym. Qed.

Lemma distance_le_max (s t : string) :
  0 <= EditDistance.distance s t <= Z.max (len s) (len t).
Proof.
  rewrite distance_lev. unfold len.
  pose proof (lev_le_max (rev (list_ascii_of_string s))
                         (rev (list_ascii_of_string t))) as H.
  rewrite !length_rev, !chars_length in H. lia.
Qed.

(** X1. The table filled by [levenshteinDistance] holds the edit
    distance of the recurrence; the distance is symmetric, lies between
    0 and the length of the longer string, is 0 exactly when the two
    strings are equal, and against the empty string it is the length of
    the other string. *)
Theorem X1_edit_distance (s t : string) :
  TextNormalizer.levenshteinDistance s t
  = Z.of_nat (lev (rev (chars s)) (rev (chars t)))
  /\ TextNormalizer.levenshteinDistance s t
     = TextNormalizer.levenshteinDistance t s
  /\ 0 <= TextNormalizer.levenshteinDistance s t <= Z.max (len s) (len t)
  /\ (TextNormalizer.levenshteinDistance s t = 0 <-> s = t)
  /\ TextNormalizer.levenshteinDistance s EmptyString = len s.
Proof.
  unfold TextNormalizer.levenshteinDistance.
  split; [apply distance_lev |].
  split; [apply distance_sym |].
  split; [apply distance_le_max |].
  split.
  - rewrite distance_lev. split.
    + intros H. apply chars_inj.
      assert (E : lev (rev (list_ascii_of_string s))
                      (rev (list_ascii_of_string t)) = 0%nat) by lia.
      apply lev_zero_iff in E.
      apply (f_equal (@rev ascii)) in E. now rewrite !rev_involutive in E.
    + intros ->.
      now rewrite (proj2 (lev_zero_iff _ _) eq_refl).
  - rewrite distance_lev. cbn [list_ascii_of_string rev].
    rewrite lev_nil_r, length_rev, chars_length. reflexivity.
Qed.

(** ** Symmetry and range of the similarities *)

Lemma falsy_orb_comm (a b : string) :
  falsy a || falsy b = falsy b || falsy a.
Proof. apply orb_comm. Qed.

Lemma calculateSimilarity_sym (a b : string) :
  Levenshtein.calculateSimilarity a b = Levenshtein.calculateSimilarity b a.
Proof.
  unfold Levenshtein.calculateSimilarity.
  rewrite (orb_comm (falsy a)), (String.eqb_sym a b),
    (String.eqb_sym (normalizeString a)).
  unfold levenshtein_get.
  rewrite (distance_sym (normalizeString a)), (Z.max_comm (len (normalizeString a))).
  reflexivity.
Qed.

(** X2. Both similarity functions are symmetric in their two
    arguments. *)
Theorem X2_similarity_symmetric (a b : string) :
  Levenshtein.calculateSimilarity a b = Levenshtein.calculateSimilarity b a
  /\ TextNormalizer.calculateSimilarity a b
     = TextNormalizer.calculateSimilarity b a
  /\ forall caseSensitive,
       Levenshtein.calculateSimilarityWithCase a b caseSensitive
       = Levenshtein.calculateSimilarityWithCase b a caseSensitive.
Proof.
  split; [apply calculateSimilarity_sym |]. split.
  - unfold TextNormalizer.calculateSimilarity,
      TextNormalizer.levenshteinDistance.
    rewrite (String.eqb_sym (TextNormalizer.normalizeForMatching a)),
      (orb_comm (len (TextNormalizer.normalizeForMatching a) =? 0)),
      (distance_sym (TextNormalizer.normalizeForMatching a)),
      (Z.max_comm (len (TextNormalizer.normalizeForMatching a))).
    reflexivity.
  - intros cs. unfold Levenshtein.calculateSimilarityWithCase.
    rewrite (orb_comm (falsy a)), (String.eqb_sym a b).
    unfold levenshtein_get.
    destruct cs.
    + rewrite (String.eqb_sym (trim a)), (distance_sym (trim a)),
        (Z.max_comm (len (trim a))). reflexivity.
    + rewrite (String.eqb_sym (toLowerCase (trim a))),
        (distance_sym (toLowerCase (trim a))),
        (Z.max_comm (len (toLowerCase (trim a)))). reflexivity.
Qed.

Lemma ratio_bounds (m d : Z) :
  0 <= d <= m -> 0 < m ->
  (0 <= (1 - inject_Z d / inject_Z m) * 100 <= 100)%Q.
Proof.
  intros Hd Hm.
  assert (M : (0 < inject_Z m)%Q)
    by (change 0%Q with (inject_Z 0); rewrite <- Zlt_Qlt; lia).
  assert (U : (inject_Z d / inject_Z m <= 1)%Q).
  { apply Qle_shift_div_r; [exact M |].
    rewrite Qmult_1_l, <- Zle_Qle. lia. }
  assert (L : (0 <= inject_Z d / inject_Z m)%Q).
  { apply Qle_shift_div_l; [exact M |].
    rewrite Qmult_0_l. change 0%Q with (inject_Z 0).
    rewrite <- Zle_Qle. lia. }
  split.
  - apply Qmult_le_0_compat; [| discriminate].
    apply (Qplus_le_r _ _ (inject_Z d / inject_Z m)). ring_simplify.
    exact U.
  - setoid_replace 100%Q with (1 * 100)%Q at 2 by ring.
    apply Qmult_le_compat_r; [| discriminate].
    apply (Qplus_le_r _ _ (inject_Z d / inject_Z m - 1)). ring_simplify.
    exact L.
Qed.

(** X3. The similarity of the text normalizer is an integer between 0
    and 100, although the code does not clamp it: the edit distance
    never exceeds the length of the longer string. *)
Theorem X3_normalizer_similarity_range (text1 text2 : string) :
  0 <= TextNormalizer.calculateSimilarity text1 text2 <= 100.
Proof.
  unfold TextNormalizer.calculateSimilarity, TextNormalizer.levenshteinDistance.
  destruct (_ =? _)%string; [lia |].
  destruct (Z.eqb_spec (len (TextNormalizer.normalizeForMatching text1)) 0)
    as [| N1]; [cbn; lia |].
  destruct (Z.eqb_spec (len (TextNormalizer.normalizeForMatching text2)) 0)
    as [| N2]; [cbn; lia |].
  cbn [orb].
  pose proof (distance_le_max (TextNormalizer.normalizeForMatching text1)
                              (TextNormalizer.normalizeForMatching text2)) as D.
  pose proof (len_nonneg (TextNormalizer.normalizeForMatching text1)).
  destruct (@ratio_bounds
              (Z.max (len (TextNormalizer.normalizeForMatching text1))
                     (len (TextNormalizer.normalizeForMatching text2)))
              (EditDistance.distance
                 (TextNormalizer.normalizeForMatching text1)
                 (TextNormalizer.normalizeForMatching text2)) D ltac:(lia))
    as [L U].
  split.
  - change 0 with (Math_round 0) at 1. now apply Math_round_mono.
  - change 100 with (Math_round 100) at 2. now apply Math_round_mono.
Qed.

(** ** More on the confidence scorer *)

(** X4. [compareBestMatch] returns one of its two arguments, the one
    that ranks highest by weighted, exact, alias and fuzzy score in that
    order; since a breakdown has no other field, the order of the
    arguments does not matter, and the weighted score of the result is
    the larger of the two. *)
Theorem X4_compareBestMatch_maximum (a b : ConfidenceBreakdown) :
  let r := compareBestMatch a b in
  (r = a \/ r = b)
  /\ breakdownLe a r /\ breakdownLe b r
  /\ weighted r = Z.max (weighted a) (weighted b)
  /\ compareBestMatch b a = r.
Proof.
  destruct a as [ea fa aa wa], b as [eb fb ab wb].
  unfold compareBestMatch, breakdownLe. cbn [weighted exactMatch aliasMatch fuzzyMatch].
  destruct (Z.ltb_spec wa wb); [cbn; repeat split; auto; try lia;
    destruct (Z.ltb_spec wb wa); try lia; reflexivity |].
  destruct (Z.ltb_spec wb wa); [cbn; repeat split; auto; lia |].
  destruct (Z.ltb_spec ea eb); [cbn; repeat split; auto; try lia;
    destruct (Z.ltb_spec eb ea); try lia; reflexivity |].
  destruct (Z.ltb_spec eb ea); [cbn; repeat split; auto; lia |].
  destruct (Z.ltb_spec aa ab); [cbn; repeat split; auto; try lia;
    destruct (Z.ltb_spec ab aa); try lia; reflexivity |].
  destruct (Z.ltb_spec ab aa); [cbn; repeat split; auto; lia |].
  destruct (Z.ltb_spec fa fb).
  - cbn. repeat split; auto; try lia.
    destruct (Z.ltb_spec fb fa); try lia. reflexivity.
  - cbn. repeat split; auto; try lia.
    destruct (Z.ltb_spec fb fa); [reflexivity |].
    f_equal; lia.
Qed.

Lemma isExactMatch_similarity (a b : string) :
  isExactMatch a b = true -> Levenshtein.calculateSimilarity a b = 100.
Proof.
  unfold isExactMatch, Levenshtein.calculateSimilarity.
  destruct (falsy a || falsy b); [discriminate |].
  intros ->. now destruct (a =? b)%string.
Qed.

Lemma aliasLoop_ge (query : string) (aliases : list string) (best : Z) :
  0 <= best <= 100 ->
  best <= aliasLoop query aliases best
  /\ forall alias, In alias aliases ->
       Levenshtein.calculateSimilarity query alias
       <= aliasLoop query aliases best.
Proof.
  revert best. induction aliases as [| a rest IH]; intros best Hb; cbn.
  - split; [lia | intros ? []].
  - destruct (isExactMatch query a) eqn:E.
    + split; [lia |]. intros alias _.
      apply calculateSimilarity_bounds.
    + pose proof (calculateSimilarity_bounds query a) as Ba.
      destruct (IH (Z.max best (Levenshtein.calculateSimilarity query a)))
        as [G1 G2]; [lia |].
      split; [lia |].
      intros alias [<- | I]; [lia | now apply G2].
Qed.

Lemma aliasLoop_exact (query : string) (aliases : list string) (best : Z)
      (alias : string) :
  In alias aliases -> isExactMatch query alias = true ->
  aliasLoop query aliases best = 100.
Proof.
  revert best. induction aliases as [| a rest IH]; intros best I E; cbn.
  - destruct I.
  - destruct (isExactMatch query a) eqn:Ea; [reflexivity |].
    destruct I as [-> | I]; [congruence |].
    now apply IH.
Qed.

(** X5. In the breakdown of [calculateConfidence] the exact score is 0
    or 100, and an exact score of 100 comes with a fuzzy score of 100.
    For a non-empty query and name, the alias score is at least the
    similarity of the query with each alias, it is 100 as soon as one
    alias matches exactly, wherever it stands in the list, and it is 0
    when there is no alias. *)
Theorem X5_breakdown_relations
        (query targetName : string) (aliases : option (list string))
        (cfg : MatchConfig) :
  let b := calculateConfidence query targetName aliases cfg in
  let aliasList := match aliases with Some l => l | None => [] end in
  (exactMatch b = 0 \/ exactMatch b = 100)
  /\ (exactMatch b = 100 -> fuzzyMatch b = 100)
  /\ (aliasList = [] -> aliasMatch b = 0)
  /\ (falsy query = false -> falsy targetName = false ->
      (forall alias, In alias aliasList ->
         Levenshtein.calculateSimilarity query alias <= aliasMatch b)
      /\ forall alias, In alias aliasList ->
           isExactMatch query alias = true -> aliasMatch b = 100).
Proof.
  cbv zeta. unfold calculateConfidence.
  destruct (falsy query || falsy targetName) eqn:F.
  - cbn. split; [auto |]. split; [discriminate |]. split; [auto |].
    intros Fq Ft. rewrite Fq, Ft in F. discriminate.
  - cbn [exactMatch fuzzyMatch aliasMatch].
    split; [destruct (isExactMatch query targetName); auto |].
    split.
    { destruct (isExactMatch query targetName) eqn:E; [| discriminate].
      intros _. now apply isExactMatch_similarity. }
    split.
    { now intros ->. }
    intros _ _.
    destruct (match aliases with Some l => l | None => [] end)
      as [| a rest] eqn:EA.
    + split; intros ? [].
    + split.
      * intros alias I.
        now apply (proj2 (@aliasLoop_ge query (a :: rest) 0 ltac:(lia))).
      * intros alias I E.
        now apply (@aliasLoop_exact query (a :: rest) 0 alias).
Qed.

Lemma X5_breakdown_relations_witness :
  let b := calculateConfidence "MSG" "Madison Square Garden"
             (Some ["The Garden"; "MSG"]%string) DEFAULT_MATCH_CONFIG in
  aliasMatch b = 100
  /\ Levenshtein.calculateSimilarity "MSG" "The Garden" <= aliasMatch b.
Proof.
  cbv zeta.
  destruct (X5_breakdown_relations "MSG" "Madison Square Garden"
              (Some ["The Garden"; "MSG"]%string) DEFAULT_MATCH_CONFIG)
    as (_ & _ & _ & H).
  destruct (H eq_refl eq_refl) as [G1 G2].
  split.
  - apply (G2 "MSG"%string); [right; left; reflexivity | reflexivity].
  - apply G1. left. reflexivity.
Defined.

(** ** Searching a list of candidate strings *)

Lemma bestMatchLoop_spec (query : string) (minSim : Q)
      (candidates : list string) (bm : option string) (bs : Z) :
  let sim := Levenshtein.calculateSimilarity query in
  let r := bestMatchLoop query candidates minSim bm bs in
  bs <= snd r
  /\ (forall c, In c candidates -> (minSim <= inject_Z (sim c))%Q ->
                sim c <= snd r)
  /\ ((fst r = bm /\ snd r = bs)
      \/ exists l1 m l2,
           candidates = l1 ++ m :: l2
           /\ fst r = Some m /\ snd r = sim m
           /\ bs < snd r /\ (minSim <= inject_Z (snd r))%Q
           /\ forall c, In c l1 -> sim c < snd r).
Proof.
  cbv zeta. revert bm bs.
  induction candidates as [| c rest IH]; intros bm bs;
    cbn [bestMatchLoop].
  - cbn. split; [lia |]. split; [intros ? [] | left; auto].
  - destruct ((bs <? Levenshtein.calculateSimilarity query c)
              && Qle_bool minSim
                   (inject_Z (Levenshtein.calculateSimilarity query c)))
      eqn:Cond.
    + apply andb_true_iff in Cond. destruct Cond as [Lt Ge].
      apply Z.ltb_lt in Lt. apply Qle_bool_iff in Ge.
      destruct (IH (Some c) (Levenshtein.calculateSimilarity query c))
        as (G1 & G2 & G3).
      split; [lia |]. split.
      * intros c' [<- | I] Hc'; [exact G1 | now apply G2].
      * right. destruct G3 as [[E1 E2] | (l1 & m & l2 & E & F1 & F2 & F3 & F4 & F5)].
        -- exists [], c, rest. cbn [app]. rewrite E2.
           split; [reflexivity |]. split; [exact E1 |].
           split; [reflexivity |]. split; [exact Lt |].
           split; [exact Ge |]. intros ? [].
        -- exists (c :: l1), m, l2.
           split; [now rewrite E |]. split; [exact F1 |].
           split; [exact F2 |]. split; [lia |].
           split; [exact F4 |].
           intros c' [<- | I]; [lia | now apply F5].
    + destruct (IH bm bs) as (G1 & G2 & G3).
      assert (Small : Levenshtein.calculateSimilarity query c <= bs
                      \/ (inject_Z (Levenshtein.calculateSimilarity query c)
                          < minSim)%Q).
      { apply andb_false_iff in Cond. destruct Cond as [C | C].
        - left. apply Z.ltb_ge in C. exact C.
        - right. apply Qnot_le_lt. intros L.
          apply Qle_bool_iff in L. congruence. }
      split; [exact G1 |]. split.
      * intros c' [<- | I] Hc'; [| now apply G2].
        destruct Small as [S | S]; [lia |].
        exfalso. apply (Qlt_not_le _ _ S). exact Hc'.
      * destruct G3 as [E | (l1 & m & l2 & E & F1 & F2 & F3 & F4 & F5)];
          [now left |].
        right. exists (c :: l1), m, l2.
        split; [now rewrite E |]. split; [exact F1 |].
        split; [exact F2 |]. split; [exact F3 |].
        split; [exact F4 |].
        intros c' [<- | I]; [| now apply F5].
        destruct Small as [S | S]; [lia |].
        rewrite Zlt_Qlt. eapply Qlt_le_trans; [exact S | exact F4].
Qed.

Lemma similarity_falsy_l (query c : string) :
  falsy query = true -> Levenshtein.calculateSimilarity query c = 0.
Proof. unfold Levenshtein.calculateSimilarity. now intros ->. Qed.

Lemma similarity_falsy_r (query c : string) :
  falsy c = true -> Levenshtein.calculateSimilarity query c = 0.
Proof.
  unfold Levenshtein.calculateSimilarity. intros ->.
  now rewrite orb_true_r.
Qed.

(** X6. When [findBestMatch] returns a match, it is the first candidate
    of the highest similarity in the list, its similarity is positive
    and at least [minSimilarity].  When it returns null, every candidate
    has similarity 0 or a similarity below [minSimilarity]: a candidate
    of similarity 0 is never returned, not even for a threshold of 0. *)
Theorem X6_findBestMatch (query : string) (candidates : list string)
        (minSimilarity : Q) :
  let sim := Levenshtein.calculateSimilarity query in
  match findBestMatch query candidates minSimilarity with
  | Some (m, s) =>
      s = sim m /\ 0 < s /\ (minSimilarity <= inject_Z s)%Q
      /\ (forall c, In c candidates -> sim c <= s)
      /\ exists l1 l2, candidates = l1 ++ m :: l2
                       /\ forall c, In c l1 -> sim c < s
  | None =>
      forall c, In c candidates ->
                sim c = 0 \/ (inject_Z (sim c) < minSimilarity)%Q
  end.
Proof.
  cbv zeta. unfold findBestMatch.
  destruct (falsy query) eqn:Fq.
  { cbn. intros c _. left. now apply similarity_falsy_l. }
  cbn [orb].
  destruct candidates as [| c0 rest] eqn:EC; [intros ? [] |].
  cbn [List.length Nat.eqb]. rewrite <- EC. clear EC c0 rest.
  pose proof (bestMatchLoop_spec query minSimilarity candidates None 0) as H.
  cbv zeta in H.
  destruct (bestMatchLoop query candidates minSimilarity None 0) as [rm rs].
  cbn [fst snd] in H. destruct H as (G1 & G2 & G3).
  assert (NoneCase : rm = None ->
            forall c, In c candidates ->
              Levenshtein.calculateSimilarity query c = 0
              \/ (inject_Z (Levenshtein.calculateSimilarity query c)
                  < minSimilarity)%Q).
  { intros -> c I.
    destruct G3 as [[_ ->] | (l1 & m & l2 & _ & F1 & _)]; [| discriminate].
    destruct (Qlt_le_dec (inject_Z (Levenshtein.calculateSimilarity query c))
                         minSimilarity) as [L | L]; [now right |].
    left. pose proof (G2 c I L).
    pose proof (calculateSimilarity_bounds query c). lia. }
  destruct rm as [m |]; [| now apply NoneCase].
  destruct G3 as [[E _] | (l1 & m' & l2 & E & F1 & F2 & F3 & F4 & F5)];
    [discriminate |].
  injection F1 as <-.
  destruct (falsy m) eqn:Fm.
  { exfalso. rewrite (@similarity_falsy_r query m Fm) in F2. lia. }
  split; [exact F2 |]. split; [lia |]. split; [exact F4 |]. split.
  - intros c I.
    destruct (Qlt_le_dec (inject_Z (Levenshtein.calculateSimilarity query c))
                         minSimilarity) as [L | L]; [| now apply G2].
    apply Z.lt_le_incl. rewrite Zlt_Qlt.
    eapply Qlt_le_trans; [exact L | exact F4].
  - exists l1, l2. split; [exact E |]. intros c I. now apply F5.
Qed.

(** X7. For a non-empty query, [getAllMatches] returns each candidate
    whose similarity is at least [minSimilarity], paired with that
    similarity, as often as it occurs in the input, ordered by
    non-increasing similarity, candidates of equal similarity staying in
    input order. *)
Theorem X7_getAllMatches (query : string) (candidates : list string)
        (minSimilarity : Q) :
  falsy query = false ->
  let sim := Levenshtein.calculateSimilarity query in
  let qualifying :=
    filter (fun c => Qle_bool minSimilarity (inject_Z (sim c))) candidates in
  let result := getAllMatches query candidates minSimilarity in
  Permutation (map fst result) qualifying
  /\ Forall (fun m => snd m = sim (fst m)
                      /\ (minSimilarity <= inject_Z (snd m))%Q) result
  /\ StronglySorted (fun a b => snd b <= snd a) result
  /\ forall w, map fst (filter (fun m => snd m =? w) result)
               = filter (fun c => sim c =? w) qualifying.
Proof.
  intros Fq sim qualifying result.
  set (paired := filter (fun m : string * Z =>
                           Qle_bool minSimilarity (inject_Z (snd m)))
                        (map (fun c => (c, sim c)) candidates)).
  assert (R : result = sort (descendingBy (@snd string Z)) paired).
  { unfold result, getAllMatches. rewrite Fq. cbn [orb].
    destruct candidates; reflexivity. }
  assert (P : map fst paired = qualifying).
  { unfold paired, qualifying. clear.
    induction candidates as [| c l IH]; cbn; [reflexivity |].
    destruct (Qle_bool minSimilarity (inject_Z (sim c))); cbn;
      now rewrite IH. }
  assert (W : forall w, map fst (filter (fun m : string * Z => snd m =? w) paired)
                        = filter (fun c => sim c =? w) qualifying).
  { intros w. unfold paired, qualifying. clear.
    induction candidates as [| c l IH]; cbn; [reflexivity |].
    destruct (Qle_bool minSimilarity (inject_Z (sim c))); cbn; [| exact IH].
    destruct (sim c =? w); cbn; now rewrite IH. }
  split.
  { rewrite <- P, R. apply Permutation_map, sort_perm. }
  split.
  { apply Forall_forall. intros m Hm. rewrite R in Hm.
    apply (Permutation_in _ (sort_perm (@snd string Z) paired)) in Hm.
    unfold paired in Hm. apply filter_In in Hm. destruct Hm as [Hm Q].
    apply in_map_iff in Hm. destruct Hm as [c [<- _]]. cbn in *.
    split; [reflexivity | now apply Qle_bool_iff]. }
  split.
  { rewrite R. apply (sort_sorted (@snd string Z)). }
  intros w. rewrite R, (sort_stable (@snd string Z)). apply W.
Qed.

Lemma X7_getAllMatches_witness :
  let result :=
    getAllMatches "Beatles" ["Queen"; "Beatls"; "The Beatles"]%string 50 in
  falsy "Beatles" = false
  /\ map fst result = ["The Beatles"; "Beatls"]%string
  /\ StronglySorted (fun a b => snd b <= snd a) result.
Proof.
  cbv zeta. split; [reflexivity |]. split; [vm_compute; reflexivity |].
  exact (proj1 (proj2 (proj2
           (@X7_getAllMatches "Beatles"
              ["Queen"; "Beatls"; "The Beatles"]%string 50 eq_refl)))).
Defined.

(** ** Normalization and exact matches *)

Lemma isWhiteSpace_toLowerChar (c : ascii) :
  isWhiteSpace (toLowerChar c) = isWhiteSpace c.
Proof.
  destruct c as [[] [] [] [] [] [] [] []]; vm_compute; reflexivity.
Qed.

Lemma chars_str (l : list ascii) : chars (str l) = l.
Proof. apply list_ascii_of_string_of_list_ascii. Qed.

Lemma str_inj (l l' : list ascii) : str l = str l' -> l = l'.
Proof.
  intros E. rewrite <- (chars_str l), <- (chars_str l'). now rewrite E.
Qed.

Lemma dropWhile_map {A : Type} (p : A -> bool) (f : A -> A) (l : list A) :
  (forall x, p (f x) = p x) ->
  dropWhile p (map f l) = map f (dropWhile p l).
Proof.
  intros H. induction l as [| x r IH]; cbn; [reflexivity |].
  rewrite H. destruct (p x); [exact IH | reflexivity].
Qed.

Lemma dropWhile_head {A : Type} (p : A -> bool) (l : list A) (x : A)
      (r : list A) :
  dropWhile p l = x :: r -> p x = false.
Proof.
  induction l as [| y l IH]; cbn; [discriminate |].
  destruct (p y) eqn:E; [exact IH |]. intros [= -> _]. exact E.
Qed.

Lemma dropWhile_stop {A : Type} (p : A -> bool) (x : A) (r : list A) :
  p x = false -> dropWhile p (x :: r) = x :: r.
Proof. intros H. cbn. now rewrite H. Qed.

Lemma dropWhile_app_stop {A : Type} (p : A -> bool) (l1 : list A) (x : A)
      (l2 : list A) :
  p x = false -> dropWhile p (l1 ++ x :: l2) = dropWhile p l1 ++ x :: l2.
Proof.
  intros H. induction l1 as [| y l1 IH]; cbn.
  - now rewrite H.
  - destruct (p y); [exact IH | reflexivity].
Qed.

Lemma dropWhile_idem {A : Type} (p : A -> bool) (l : list A) :
  dropWhile p (dropWhile p l) = dropWhile p l.
Proof.
  destruct (dropWhile p l) as [| x r] eqn:E; [reflexivity |].
  apply dropWhile_stop. exact (@dropWhile_head _ _ _ _ _ E).
Qed.

(** What [trim] leaves: nothing, or a string that neither starts nor
    ends with white space. *)
Lemma trimChars_shape (l : list ascii) :
  trimChars l = []
  \/ exists x mid,
       trimChars l = x :: rev mid
       /\ isWhiteSpace x = false
       /\ dropWhile isWhiteSpace (rev (x :: rev mid)) = rev (x :: rev mid).
Proof.
  unfold trimChars.
  destruct (dropWhile isWhiteSpace l) as [| x r] eqn:E; [now left |].
  right. pose proof (@dropWhile_head _ _ _ _ _ E) as Hx.
  cbn [rev]. rewrite (@dropWhile_app_stop _ _ _ _ _ Hx).
  rewrite rev_app_distr. cbn [rev app].
  exists x, (dropWhile isWhiteSpace (rev r)).
  split; [reflexivity |]. split; [exact Hx |].
  cbn [rev]. rewrite rev_involutive.
  rewrite (@dropWhile_app_stop _ _ _ _ _ Hx).
  now rewrite dropWhile_idem.
Qed.

Lemma trimChars_idem (l : list ascii) : trimChars (trimChars l) = trimChars l.
Proof.
  destruct (trimChars_shape l) as [-> | (x & mid & E & Hx & Hr)];
    [reflexivity |].
  rewrite E. unfold trimChars at 1.
  rewrite (@dropWhile_stop _ _ _ _ Hx), Hr. apply rev_involutive.
Qed.

Lemma trimChars_map_lower (l : list ascii) :
  trimChars (map toLowerChar l) = map toLowerChar (trimChars l).
Proof.
  unfold trimChars.
  rewrite (@dropWhile_map _ _ _ _ isWhiteSpace_toLowerChar), <- map_rev,
    (@dropWhile_map _ _ _ _ isWhiteSpace_toLowerChar), <- map_rev.
  reflexivity.
Qed.

Lemma queryKey_chars (q : string) :
  trim (toLowerCase q) = str (trimChars (map toLowerChar (chars q))).
Proof. unfold trim, toLowerCase. now rewrite chars_str. Qed.

(** The normalization depends on a string only through its lowercased,
    trimmed form. *)
Lemma normalizeString_key (a b : string) :
  trim (toLowerCase a) = trim (toLowerCase b) ->
  normalizeString a = normalizeString b.
Proof.
  rewrite !queryKey_chars. intros E. apply str_inj in E.
  unfold normalizeString, toLowerCase. rewrite !chars_str. now rewrite E.
Qed.

Lemma normalizeString_trim (q : string) :
  normalizeString (trim q) = normalizeString q.
Proof.
  apply normalizeString_key. rewrite !queryKey_chars. f_equal.
  unfold trim. rewrite chars_str, trimChars_map_lower, trimChars_idem.
  now rewrite trimChars_map_lower.
Qed.

Lemma falsy_str (l : list ascii) : falsy (str l) = true <-> l = [].
Proof. destruct l; cbn; split; congruence. Qed.

Lemma falsy_trim_key (a b : string) :
  trim (toLowerCase a) = trim (toLowerCase b) ->
  falsy (trim a) = falsy (trim b).
Proof.
  rewrite !queryKey_chars. intros E. apply str_inj in E.
  rewrite !trimChars_map_lower in E. unfold trim.
  destruct (trimChars (chars a)), (trimChars (chars b));
    try reflexivity; discriminate E.
Qed.

Lemma isExactMatch_sym (a b : string) : isExactMatch a b = isExactMatch b a.
Proof.
  unfold isExactMatch.
  now rewrite (orb_comm (falsy a)), (String.eqb_sym (normalizeString a)).
Qed.

(** X8. [isExactMatch] is an equivalence on the non-empty strings:
    reflexive, symmetric and transitive; the empty string matches
    nothing.  Two non-empty strings that are equal up to letter case and
    surrounding white space match, and strings that match have
    similarity 100. *)
Theorem X8_isExactMatch_equivalence (a b c : string) :
  isExactMatch a b = isExactMatch b a
  /\ isExactMatch EmptyString a = false
  /\ (a <> EmptyString -> isExactMatch a a = true)
  /\ (isExactMatch a b = true -> isExactMatch b c = true ->
      isExactMatch a c = true)
  /\ (a <> EmptyString -> b <> EmptyString ->
      trim (toLowerCase a) = trim (toLowerCase b) ->
      isExactMatch a b = true)
  /\ (isExactMatch a b = true ->
      Levenshtein.calculateSimilarity a b = 100).
Proof.
  split; [apply isExactMatch_sym |].
  split; [reflexivity |].
  split.
  { intros N. unfold isExactMatch. rewrite (falsy_false N). cbn.
    apply String.eqb_refl. }
  split.
  { unfold isExactMatch.
    destruct (falsy a); [discriminate |].
    destruct (falsy b); [rewrite orb_true_r; discriminate |].
    destruct (falsy c); [discriminate |]. cbn.
    rewrite !String.eqb_eq. congruence. }
  split.
  { intros Na Nb K. unfold isExactMatch.
    rewrite (falsy_false Na), (falsy_false Nb). cbn.
    apply String.eqb_eq. now apply normalizeString_key. }
  apply isExactMatch_similarity.
Qed.

Lemma X8_isExactMatch_equivalence_witness :
  isExactMatch "  THE BEATLES " "Beatles" = true
  /\ Levenshtein.calculateSimilarity "  THE BEATLES " "Beatles" = 100.
Proof.
  destruct (X8_isExactMatch_equivalence "  THE BEATLES " "the beatles"
                                        "Beatles")
    as (_ & _ & _ & T & K & _).
  destruct (X8_isExactMatch_equivalence "  THE BEATLES " "Beatles"
                                        "Beatles")
    as (_ & _ & _ & _ & _ & S).
  assert (E : isExactMatch "  THE BEATLES " "Beatles" = true).
  { apply T; [| reflexivity].
    apply K; [discriminate | discriminate | reflexivity]. }
  split; [exact E | exact (S E)].
Defined.

(** ** What the results depend on *)

Lemma calculateSimilarity_normalized (x t : string) :
  falsy x = false -> falsy t = false ->
  Levenshtein.calculateSimilarity x t
  = if (normalizeString x =? normalizeString t)%string then 100
    else
      Z.max 0
        (Math_round
           (inject_Z (Z.max (len (normalizeString x)) (len (normalizeString t))
                      - levenshtein_get (normalizeString x) (normalizeString t))
            / inject_Z (Z.max (len (normalizeString x))
                              (len (normalizeString t)))
            * 100)%Q).
Proof.
  intros Fx Ft. unfold Levenshtein.calculateSimilarity. rewrite Fx, Ft.
  cbn [orb].
  destruct (String.eqb_spec x t) as [-> | N]; [| reflexivity].
  now rewrite String.eqb_refl.
Qed.

Lemma calculateSimilarity_same_key (x y t : string) :
  falsy x = falsy y -> normalizeString x = normalizeString y ->
  Levenshtein.calculateSimilarity x t = Levenshtein.calculateSimilarity y t.
Proof.
  intros F N.
  destruct (falsy x) eqn:Fx.
  - now rewrite (@similarity_falsy_l x t Fx),
      (@similarity_falsy_l y t (eq_sym F)).
  - destruct (falsy t) eqn:Ft.
    + now rewrite (@similarity_falsy_r x t Ft), (@similarity_falsy_r y t Ft).
    + rewrite !calculateSimilarity_normalized by congruence.
      now rewrite N.
Qed.

Lemma isExactMatch_same_key (x y t : string) :
  falsy x = falsy y -> normalizeString x = normalizeString y ->
  isExactMatch x t = isExactMatch y t.
Proof. intros F N. unfold isExactMatch. now rewrite F, N. Qed.

Lemma aliasLoop_same_key (x y : string) (aliases : list string) (best : Z) :
  falsy x = falsy y -> normalizeString x = normalizeString y ->
  aliasLoop x aliases best = aliasLoop y aliases best.
Proof.
  intros F N. revert best.
  induction aliases as [| a rest IH]; intros best; cbn; [reflexivity |].
  rewrite (@isExactMatch_same_key x y a F N),
    (@calculateSimilarity_same_key x y a F N).
  now rewrite IH.
Qed.

Lemma calculateConfidence_same_key (x y t : string)
      (aliases : option (list string)) (cfg : MatchConfig) :
  falsy x = falsy y -> normalizeString x = normalizeString y ->
  calculateConfidence x t aliases cfg = calculateConfidence y t aliases cfg.
Proof.
  intros F N. unfold calculateConfidence.
  rewrite F, (@isExactMatch_same_key x y t F N),
    (@calculateSimilarity_same_key x y t F N).
  destruct (match aliases with Some l => l | None => [] end) as [| a rest];
    [reflexivity |].
  now rewrite (@aliasLoop_same_key x y (a :: rest) 0 F N).
Qed.

Lemma scoreEntities_same_key {T : Type} (name : T -> string)
      (aliases : T -> option (list string)) (x y : string)
      (entities : list T) (cfg : MatchConfig) :
  falsy x = falsy y -> normalizeString x = normalizeString y ->
  scoreEntities name aliases x entities cfg
  = scoreEntities name aliases y entities cfg.
Proof.
  intros F N. unfold scoreEntities. rewrite F.
  destruct (falsy y || _); [reflexivity |].
  do 3 f_equal. apply map_ext. intros e. unfold scored.
  now rewrite (@calculateConfidence_same_key x y _ _ _ F N).
Qed.

(** X9. The uncached matcher reads a query only through its lowercased,
    trimmed form, which is the query part of the cache keys: two queries
    with the same form have the same artist key and the same venue key,
    and get the same results from [matchArtists] and [matchVenues]. *)
Theorem X9_results_depend_on_query_key
        (hashConfig : MatchConfig -> string) (cfg : MatchConfig)
        (q1 q2 : string) (artists : list MatchableArtist)
        (venues : list MatchableVenue) (cityFilter : option string) :
  trim (toLowerCase q1) = trim (toLowerCase q2) ->
  MatcherCache.generateArtistCacheKey hashConfig q1 cfg
  = MatcherCache.generateArtistCacheKey hashConfig q2 cfg
  /\ MatcherCache.generateVenueCacheKey hashConfig q1 cfg cityFilter
     = MatcherCache.generateVenueCacheKey hashConfig q2 cfg cityFilter
  /\ matchArtists cfg q1 artists = matchArtists cfg q2 artists
  /\ matchVenues cfg q1 venues cityFilter
     = matchVenues cfg q2 venues cityFilter.
Proof.
  intros K.
  assert (F : falsy (trim q1) = falsy (trim q2)) by now apply falsy_trim_key.
  assert (N : normalizeString (trim q1) = normalizeString (trim q2)).
  { rewrite !normalizeString_trim. now apply normalizeString_key. }
  split; [unfold MatcherCache.generateArtistCacheKey; now rewrite K |].
  split; [unfold MatcherCache.generateVenueCacheKey; now rewrite K |].
  split.
  - unfold matchArtists. rewrite F.
    now rewrite (@scoreEntities_same_key _ _ _ _ _ _ _ F N).
  - unfold matchVenues. rewrite F.
    now rewrite (@scoreEntities_same_key _ _ _ _ _ _ _ F N).
Qed.

Lemma X9_results_depend_on_query_key_witness :
  matchArtists DEFAULT_MATCH_CONFIG "  QUEEN "
               [mkArtist "a1" "Queen" None; mkArtist "a2" "Queens" None]
  = matchArtists DEFAULT_MATCH_CONFIG "queen"
                 [mkArtist "a1" "Queen" None; mkArtist "a2" "Queens" None].
Proof.
  exact (proj1 (proj2 (proj2
           (X9_results_depend_on_query_key
              (fun _ => "h"%string) DEFAULT_MATCH_CONFIG "  QUEEN " "queen"
              [mkArtist "a1" "Queen" None; mkArtist "a2" "Queens" None]
              [] None eq_refl)))).
Defined.

(** ** The results of the entity matcher *)

Lemma Forall_firstn_keep {A : Type} (P : A -> Prop) (n : nat) (l : list A) :
  Forall P l -> Forall P (firstn n l).
Proof.
  intros H. revert n. induction H as [| x l Hx Hl IH]; intros [| n]; cbn;
    constructor; auto.
Qed.

Lemma StronglySorted_firstn {A : Type} (R : A -> A -> Prop) (n : nat)
      (l : list A) :
  StronglySorted R l -> StronglySorted R (firstn n l).
Proof.
  intros H. revert n. induction H as [| x l Hl IH Hx]; intros [| n]; cbn;
    constructor; auto using Forall_firstn_keep.
Qed.

Lemma StronglySorted_map {A B : Type} (f : A -> B) (R : A -> A -> Prop)
      (R' : B -> B -> Prop) (l : list A) :
  (forall a b, R a b -> R' (f a) (f b)) ->
  StronglySorted R l -> StronglySorted R' (map f l).
Proof.
  intros HR H. induction H as [| x l Hl IH Hx]; cbn; constructor; [exact IH |].
  apply Forall_map. eapply Forall_impl; [| exact Hx]. intros b. apply HR.
Qed.

Lemma scoreEntities_sorted {T : Type} (name : T -> string)
      (aliases : T -> option (list string)) (query : string)
      (entities : list T) (cfg : MatchConfig) :
  StronglySorted (rankedBefore (fun x : T * ConfidenceBreakdown =>
                                  weighted (snd x)))
                 (scoreEntities name aliases query entities cfg).
Proof.
  unfold scoreEntities.
  destruct (falsy query || _); [constructor |].
  unfold slice0. apply StronglySorted_firstn.
  apply (sort_sorted (fun x : T * ConfidenceBreakdown => weighted (snd x))).
Qed.

Lemma weighted_range (query targetName : string)
      (aliases : option (list string)) (cfg : MatchConfig) :
  0 <= weighted (calculateConfidence query targetName aliases cfg) <= 100.
Proof.
  unfold calculateConfidence.
  destruct (falsy query || falsy targetName); cbn [weighted]; [lia |].
  unfold calculateWeightedScore.
  destruct (if 0 <? _ then _ else _) as [s w]. apply toZ_clamped_range.
Qed.

Lemma sorted_head_max {A : Type} (key : A -> Z) (x : A) (l : list A) :
  StronglySorted (rankedBefore key) (x :: l) ->
  forall y, In y (x :: l) -> key y <= key x.
Proof.
  intros S y [<- | I]; [lia |].
  inversion S as [| ? ? _ F]; subst.
  rewrite Forall_forall in F. exact (F y I).
Qed.

(** X10. Every match returned by [matchArtists] describes one of the
    given artists: it carries that artist's id and name and the
    breakdown of the trimmed query against it; its confidence is the
    weighted score of the breakdown, lies between 0 and 100 and is at
    least [minConfidence].  The matches come by non-increasing
    confidence, so that [findBestArtist], which returns the first match
    or null when there is none, returns a match of the highest
    confidence. *)
Theorem X10_matchArtists_results
        (cfg : MatchConfig) (query : string) (artists : list MatchableArtist) :
  let result := matchArtists cfg query artists in
  (forall m, In m result ->
     exists a, In a artists
       /\ am_id m = artist_id a /\ am_name m = artist_name a
       /\ am_breakdown m
          = calculateConfidence (trim query) (artist_name a)
                                (artist_aliases a) cfg
       /\ am_confidence m = weighted (am_breakdown m)
       /\ (minConfidence cfg <= inject_Z (am_confidence m))%Q
       /\ 0 <= am_confidence m <= 100)
  /\ StronglySorted (fun m1 m2 => am_confidence m2 <= am_confidence m1) result
  /\ match findBestArtist cfg query artists with
     | None => result = []
     | Some best =>
         In best result
         /\ forall m, In m result -> am_confidence m <= am_confidence best
     end.
Proof.
  cbv zeta.
  assert (S : StronglySorted (rankedBefore am_confidence)
                             (matchArtists cfg query artists)).
  { unfold matchArtists. destruct (falsy (trim query) || _); [constructor |].
    eapply StronglySorted_map; [| apply scoreEntities_sorted].
    intros a b H. exact H. }
  split.
  - intros m Hm. unfold matchArtists in Hm.
    destruct (falsy (trim query) || _); [destruct Hm |].
    apply in_map_iff in Hm. destruct Hm as [[a b] [<- Hx]].
    apply scoreEntities_from_input in Hx. cbn [fst snd] in Hx.
    destruct Hx as (Hin & Hb & Hmeets).
    exists a. cbn. rewrite Hb.
    repeat split; auto.
    + rewrite <- Hb. now apply meets_iff.
    + apply weighted_range.
    + apply weighted_range.
  - split; [exact S |].
    unfold findBestArtist.
    destruct (matchArtists cfg query artists) as [| best rest];
      [reflexivity |].
    split; [now left |].
    apply (@sorted_head_max _ am_confidence _ _ S).
Qed.

(** X11. Every match returned by [matchVenues] describes one of the
    given venues, with that venue's id, name and city and the breakdown
    of the trimmed query against it; the matches come by non-increasing
    confidence, each at least [minConfidence], and [findBestVenue]
    returns a match of the highest confidence, or null when there is no
    match. *)
Theorem X11_matchVenues_results
        (cfg : MatchConfig) (query : string) (venues : list MatchableVenue)
        (cityFilter : option string) :
  let result := matchVenues cfg query venues cityFilter in
  (forall m, In m result ->
     exists v, In v venues
       /\ m = toVenueMatch
                (v, calculateConfidence (trim query) (venue_name v)
                      (venue_aliases v) cfg)
       /\ (minConfidence cfg <= inject_Z (vm_confidence m))%Q
       /\ 0 <= vm_confidence m <= 100)
  /\ StronglySorted (fun m1 m2 => vm_confidence m2 <= vm_confidence m1) result
  /\ match findBestVenue cfg query venues cityFilter with
     | None => result = []
     | Some best =>
         In best result
         /\ forall m, In m result -> vm_confidence m <= vm_confidence best
     end.
Proof.
  cbv zeta.
  assert (S : StronglySorted (rankedBefore vm_confidence)
                             (matchVenues cfg query venues cityFilter)).
  { unfold matchVenues. destruct (falsy (trim query) || _); [constructor |].
    eapply StronglySorted_map; [| apply scoreEntities_sorted].
    intros a b H. exact H. }
  split.
  - intros m Hm. unfold matchVenues in Hm.
    destruct (falsy (trim query) || _); [destruct Hm |].
    apply in_map_iff in Hm. destruct Hm as [[v b] [<- Hx]].
    apply scoreEntities_from_input in Hx. cbn [fst snd] in Hx.
    destruct Hx as (Hin & Hb & Hmeets).
    exists v. rewrite Hb. split.
    + destruct cityFilter as [f |]; [| exact Hin].
      destruct (falsy (trim f)); [exact Hin |].
      apply filter_In in Hin. apply Hin.
    + split; [reflexivity |]. cbn. split.
      * rewrite <- Hb. now apply meets_iff.
      * apply weighted_range.
  - split; [exact S |].
    unfold findBestVenue.
    destruct (matchVenues cfg query venues cityFilter) as [| best rest];
      [reflexivity |].
    split; [now left |].
    apply (@sorted_head_max _ vm_confidence _ _ S).
Qed.

(** ** The quick pre-filter and the batch *)




Lemma batch_fold_get (cfg : MatchConfig) (artists : list MatchableArtist)
      (venues : list MatchableVenue) (q : string) (queries : list string)
      (acc : list (string * (list ArtistMatch * list VenueMatch))) :
  JSMap.get q
    (fold_left
       (fun results query =>
          if falsy (trim query) then results
          else JSMap.set query
                 (matchArtists cfg query artists,
                  matchVenues cfg query venues None) results)
       queries acc)
  = if in_dec string_dec q queries
    then (if falsy (trim q) then JSMap.get q acc
          else Some (matchArtists cfg q artists,
                     matchVenues cfg q venues None))
    else JSMap.get q acc.
Proof.
  revert acc. induction queries as [| q0 rest IH]; intros acc;
    [reflexivity |].
  cbn [fold_left]. rewrite IH.
  destruct (in_dec string_dec q rest) as [I | NI].
  - destruct (in_dec string_dec q (q0 :: rest)) as [_ | N];
      [| exfalso; apply N; now right].
    destruct (falsy (trim q)) eqn:Fq; [| reflexivity].
    destruct (falsy (trim q0)) eqn:F0; [reflexivity |].
    apply get_set_other. intros ->. congruence.
  - destruct (string_dec q q0) as [-> | Nq].
    + destruct (in_dec string_dec q0 (q0 :: rest)) as [_ | N];
        [| exfalso; apply N; now left].
      destruct (falsy (trim q0)); [reflexivity | apply get_set_same].
    + destruct (in_dec string_dec q (q0 :: rest)) as [[E | I] | _];
        [congruence | contradiction |].
      destruct (falsy (trim q0)); [reflexivity |].
      now apply get_set_other.
Qed.

(** X13. In the result of [batchMatch], every query of the batch that is
    not blank is mapped to exactly what [matchArtists] and [matchVenues]
    (without city filter) return for that query alone, however often it
    occurs and whatever the other queries are; a blank query gets no
    entry. *)
Theorem X13_batchMatch
        (cfg : MatchConfig) (queries : list string)
        (artists : list MatchableArtist) (venues : list MatchableVenue)
        (q : string) :
  let results := EntityMatcherBatch.batchMatch cfg queries artists venues in
  (In q queries -> ~ blank q ->
   JSMap.get q results
   = Some (matchArtists cfg q artists, matchVenues cfg q venues None))
  /\ (blank q -> JSMap.get q results = None).
Proof.
  cbv zeta. unfold EntityMatcherBatch.batchMatch. rewrite batch_fold_get.
  split.
  - intros I NB. rewrite (trim_not_blank NB).
    destruct (in_dec string_dec q queries); [reflexivity | contradiction].
  - intros B. rewrite (trim_blank B). cbn.
    now destruct (in_dec string_dec q queries).
Qed.

Lemma X13_batchMatch_witness :
  JSMap.get "Queen"
    (EntityMatcherBatch.batchMatch DEFAULT_MATCH_CONFIG
       ["Queen"; "  "; "Queen"]%string [mkArtist "a1" "Queen" None] [])
  = Some (matchArtists DEFAULT_MATCH_CONFIG "Queen"
                       [mkArtist "a1" "Queen" None], []).
Proof.
  apply (proj1 (X13_batchMatch DEFAULT_MATCH_CONFIG
                  ["Queen"; "  "; "Queen"]%string
                  [mkArtist "a1" "Queen" None] [] "Queen")).
  - left. reflexivity.
  - vm_compute. discriminate.
Defined.

(** ** More on the LRU cache *)

Section LRUMoreFacts.
Context {T : Type}.
Implicit Types (c : LRUCache.t T) (k key : string).

Lemma recordMiss_size c :
  LRUCache.size_ (LRUCache.metrics (LRUCache.recordMiss c))
  = LRUCache.size_ (LRUCache.metrics c).
Proof.
  unfold LRUCache.recordMiss.
  destruct (LRUCache.enableMetrics (LRUCache.config c)); reflexivity.
Qed.

Lemma recordHit_size c :
  LRUCache.size_ (LRUCache.metrics (LRUCache.recordHit c))
  = LRUCache.size_ (LRUCache.metrics c).
Proof.
  unfold LRUCache.recordHit.
  destruct (LRUCache.enableMetrics (LRUCache.config c)); reflexivity.
Qed.

Lemma size_set_present key (e e' : LRUCache.CacheEntry T)
      (m : list (string * LRUCache.CacheEntry T)) :
  JSMap.get key m = Some e -> JSMap.size (JSMap.set key e' m) = JSMap.size m.
Proof.
  intros G. rewrite !size_keys, keys_set_present; [reflexivity |].
  destruct (in_dec string_dec key (JSMap.keys m)) as [I | NI]; [exact I |].
  apply get_None_keys in NI. congruence.
Qed.

Lemma has_get key (m : list (string * LRUCache.CacheEntry T)) :
  JSMap.has key m = true -> exists e, JSMap.get key m = Some e.
Proof.
  unfold JSMap.has. destruct (JSMap.get key m) as [e |]; [eauto | discriminate].
Qed.

(** The size recorded in the metrics is the size of the map. *)
Lemma stepOp_size_metric c (op : CacheOp T) :
  LRUCache.size_ (LRUCache.metrics c) = JSMap.size (LRUCache.cache c) ->
  LRUCache.size_ (LRUCache.metrics (stepOp c op))
  = JSMap.size (LRUCache.cache (stepOp c op)).
Proof.
  intros I.
  destruct op as [now key | now key | now key v ttl | key | now | |];
    cbn [stepOp].
  - unfold LRUCache.get.
    destruct (JSMap.get key (LRUCache.cache c)) as [entry |] eqn:G.
    + destruct (LRUCache.isExpired now entry); cbn [snd].
      * rewrite recordMiss_size, cache_recordMiss. reflexivity.
      * rewrite recordHit_size, cache_recordHit. cbn.
        now rewrite (@size_set_present _ _ _ _ G).
    + cbn [snd]. now rewrite recordMiss_size, cache_recordMiss.
  - unfold LRUCache.has.
    destruct (JSMap.get key (LRUCache.cache c)) as [entry |]; [| exact I].
    destruct (LRUCache.isExpired now entry); [reflexivity | exact I].
  - unfold LRUCache.set.
    destruct (JSMap.has key (LRUCache.cache c)) eqn:H; [| reflexivity].
    destruct (@has_get _ _ H) as [e G]. cbn.
    now rewrite (@size_set_present _ _ _ _ G).
  - unfold LRUCache.delete.
    destruct (JSMap.has key (LRUCache.cache c)); [reflexivity | exact I].
  - unfold LRUCache.cleanup. cbn [snd].
    destruct (filter _ (LRUCache.cache c)) as [| x l]; [exact I |].
    reflexivity.
  - reflexivity.
  - reflexivity.
Qed.

End LRUMoreFacts.

(** X14. A value stored by [set] is what [get] returns for the key, and
    [has] answers true, at every later reading of the clock up to the
    expiry of the entry, and at every reading when the time to live in
    force (the one given, else the default of the cache) is not
    positive.  This holds in any state of the cache, full or not, and
    whether or not the key was there before. *)
Theorem X14_set_then_get
        {T : Type} (c : LRUCache.t T) (now now' : Z) (key : string) (v : T)
        (ttl : option Z) :
  let effectiveTTL :=
    match ttl with
    | Some x => x
    | None => LRUCache.defaultTTL (LRUCache.config c)
    end in
  effectiveTTL <= 0 \/ now' <= now + effectiveTTL ->
  fst (LRUCache.get (LRUCache.set c now key v ttl) now' key) = Some v
  /\ fst (LRUCache.has (LRUCache.set c now key v ttl) now' key) = true.
Proof.
  cbv zeta. intros H.
  rewrite get_result, has_result, get_after_set.
  unfold LRUCache.isExpired, storedEntry. cbn [LRUCache.expiresAt LRUCache.value].
  destruct (Z.ltb_spec 0 (match ttl with
                          | Some x => x
                          | None => LRUCache.defaultTTL (LRUCache.config c)
                          end)) as [P | P]; [| auto].
  destruct (Z.ltb_spec (now + match ttl with
                              | Some x => x
                              | None => LRUCache.defaultTTL (LRUCache.config c)
                              end) now'); [lia | auto].
Qed.

Lemma X14_set_then_get_witness :
  fst (LRUCache.get
         (LRUCache.set (LRUCache.create LRUCache.DEFAULT_LRU_CONFIG)
                       100 "key" 7 (Some 50))
         150 "key") = Some 7.
Proof.
  apply (proj1 (@X14_set_then_get Z
                  (LRUCache.create LRUCache.DEFAULT_LRU_CONFIG)
                  100 150 "key" 7 (Some 50) ltac:(right; cbn; lia))).
Defined.

(** X15. [delete] answers whether the key was in the cache.  After it
    the key is gone: [get] misses and [has] answers false at any time;
    every other key keeps its entry; and deleting a key that is not
    there leaves the cache as it was. *)
Theorem X15_delete
        {T : Type} (c : LRUCache.t T) (key : string) :
  let c' := snd (LRUCache.delete c key) in
  fst (LRUCache.delete c key) = JSMap.has key (LRUCache.cache c)
  /\ (forall now, fst (LRUCache.get c' now key) = None
                  /\ fst (LRUCache.has c' now key) = false)
  /\ (forall k, k <> key ->
        JSMap.get k (LRUCache.cache c') = JSMap.get k (LRUCache.cache c))
  /\ (JSMap.has key (LRUCache.cache c) = false -> c' = c).
Proof.
  cbv zeta. unfold LRUCache.delete.
  destruct (JSMap.has key (LRUCache.cache c)) eqn:H; cbn [fst snd].
  - split; [reflexivity |]. split.
    + intros now. rewrite get_result, has_result. cbn.
      now rewrite get_delete_same.
    + split; [| discriminate].
      intros k N. cbn. now apply get_delete_other.
  - split; [reflexivity |]. split.
    + intros now. rewrite get_result, has_result.
      unfold JSMap.has in H.
      destruct (JSMap.get key (LRUCache.cache c)); [discriminate | auto].
    + split; [reflexivity | reflexivity].
Qed.

(** X16. In every state that a cache can reach, the size reported by
    the metrics is the number of entries in the cache. *)
Theorem X16_size_metric
        {T : Type} (cfg : LRUCache.LRUCacheConfig) (ops : list (CacheOp T)) :
  let c := runOps (LRUCache.create cfg) ops in
  LRUCache.size_ (LRUCache.getMetrics c) = LRUCache.size c
  /\ LRUCache.size c = Z.of_nat (List.length (LRUCache.keys c)).
Proof.
  cbv zeta. split; [| apply size_keys].
  unfold LRUCache.getMetrics, LRUCache.size.
  assert (G : forall c : LRUCache.t T,
             LRUCache.size_ (LRUCache.metrics c)
             = JSMap.size (LRUCache.cache c) ->
             LRUCache.size_ (LRUCache.metrics (runOps c ops))
             = JSMap.size (LRUCache.cache (runOps c ops))).
  { induction ops as [| op rest IH]; intros c I; [exact I |].
    cbn. apply IH. now apply stepOp_size_metric. }
  apply G. reflexivity.
Qed.

(** ** The access order and the capacity *)

Lemma setAdd_In (k k' : string) (s : list string) :
  In k' (JSMap.setAdd k s) <-> k' = k \/ In k' s.
Proof.
  unfold JSMap.setAdd, JSMap.setHas.
  destruct (existsb (String.eqb k) s) eqn:E.
  - apply existsb_exists in E. destruct E as [x [I E]].
    apply String.eqb_eq in E. subst x. intuition (subst; auto).
  - rewrite in_app_iff. cbn. intuition.
Qed.

Lemma setAdd_NoDup (k : string) (s : list string) :
  NoDup s -> NoDup (JSMap.setAdd k s).
Proof.
  intros N. unfold JSMap.setAdd, JSMap.setHas.
  destruct (existsb (String.eqb k) s) eqn:E; [exact N |].
  eapply Permutation_NoDup; [apply Permutation_cons_append |].
  constructor; [| exact N].
  intros I. assert (existsb (String.eqb k) s = true); [| congruence].
  apply existsb_exists. exists k. split; [exact I | apply String.eqb_refl].
Qed.

Lemma setDelete_length_le (k : string) (s : list string) :
  (List.length (JSMap.setDelete k s) <= List.length s)%nat.
Proof.
  unfold JSMap.setDelete.
  induction s as [| x r IH]; cbn; [lia |].
  destruct (negb (String.eqb k x)); cbn; lia.
Qed.

Lemma setDelete_length (k : string) (s : list string) :
  NoDup s -> In k s -> S (List.length (JSMap.setDelete k s)) = List.length s.
Proof.
  induction s as [| x r IH]; intros N I; [destruct I |].
  inversion N as [| ? ? NI N']; subst.
  destruct (String.eqb_spec k x) as [-> | Nk].
  - now rewrite setDelete_head.
  - assert (E : JSMap.setDelete k (x :: r) = x :: JSMap.setDelete k r).
    { unfold JSMap.setDelete. cbn.
      destruct (String.eqb_spec k x); [congruence | reflexivity]. }
    rewrite E. cbn [List.length]. rewrite IH; [reflexivity | exact N' |].
    destruct I; [congruence | assumption].
Qed.

Lemma order_delete (k : string) (order keys : list string) :
  orderMatchesKeys order keys ->
  orderMatchesKeys (JSMap.setDelete k order) (JSMap.setDelete k keys).
Proof.
  intros (N1 & N2 & E). split; [| split].
  - now apply setDelete_NoDup.
  - now apply setDelete_NoDup.
  - intros k'. rewrite !setDelete_In, E. tauto.
Qed.

Lemma order_touch (k : string) (order keys : list string) :
  orderMatchesKeys order keys -> In k keys ->
  orderMatchesKeys (JSMap.setAdd k (JSMap.setDelete k order)) keys.
Proof.
  intros (N1 & N2 & E) I. split; [| split; [exact N2 |]].
  - now apply setAdd_NoDup, setDelete_NoDup.
  - intros k'. rewrite setAdd_In, setDelete_In, E.
    destruct (string_dec k' k) as [-> | N]; intuition congruence.
Qed.

Lemma order_append (k : string) (order keys : list string) :
  orderMatchesKeys order keys -> ~ In k keys ->
  orderMatchesKeys (JSMap.setAdd k order) (keys ++ [k]).
Proof.
  intros (N1 & N2 & E) NI. split; [| split].
  - now apply setAdd_NoDup.
  - eapply Permutation_NoDup; [apply Permutation_cons_append |].
    now constructor.
  - intros k'. rewrite setAdd_In, in_app_iff, E. cbn.
    intuition congruence.
Qed.

Section OrderFacts.
Context {T : Type}.
Implicit Types (c : LRUCache.t T) (k key : string).

Ltac lru_fields :=
  cbn [LRUCache.cache LRUCache.accessOrder LRUCache.config LRUCache.metrics
       LRUCache.dropKey LRUCache.touch LRUCache.putEntry
       LRUCache.appendOrder LRUCache.updateSize LRUCache.withMetrics].

Lemma wellFormed_dropKey c key :
  wellFormed c -> wellFormed (LRUCache.dropKey c key).
Proof.
  unfold wellFormed. lru_fields. rewrite keys_delete. apply order_delete.
Qed.

Lemma wellFormed_fields c c' :
  LRUCache.cache c' = LRUCache.cache c ->
  LRUCache.accessOrder c' = LRUCache.accessOrder c ->
  wellFormed c -> wellFormed c'.
Proof. unfold wellFormed. now intros -> ->. Qed.

Lemma wellFormed_recordMiss c :
  wellFormed c -> wellFormed (LRUCache.recordMiss c).
Proof. apply wellFormed_fields; apply recordMiss_fields. Qed.

Lemma wellFormed_recordHit c :
  wellFormed c -> wellFormed (LRUCache.recordHit c).
Proof. apply wellFormed_fields; apply recordHit_fields. Qed.

Lemma wellFormed_updateSize c :
  wellFormed c -> wellFormed (LRUCache.updateSize c).
Proof. now apply wellFormed_fields. Qed.

Lemma wellFormed_evictLRU c :
  wellFormed c -> wellFormed (LRUCache.evictLRU c).
Proof.
  intros W. unfold LRUCache.evictLRU.
  destruct (LRUCache.accessOrder c) as [| lruKey r] eqn:E; [exact W |].
  destruct (falsy lruKey); [exact W |].
  apply wellFormed_updateSize.
  apply (@wellFormed_fields (LRUCache.dropKey c lruKey));
    [reflexivity | reflexivity |].
  now apply wellFormed_dropKey.
Qed.

Lemma get_Some_keys key (e : LRUCache.CacheEntry T)
      (m : list (string * LRUCache.CacheEntry T)) :
  JSMap.get key m = Some e -> In key (JSMap.keys m).
Proof.
  intros G. destruct (in_dec string_dec key (JSMap.keys m)) as [I | NI];
    [exact I |].
  apply get_None_keys in NI. congruence.
Qed.

Lemma wellFormed_fold_dropKey (ks : list string) c :
  wellFormed c -> wellFormed (fold_left LRUCache.dropKey ks c).
Proof.
  revert c. induction ks as [| k r IH]; intros c W; cbn; [exact W |].
  apply IH, wellFormed_dropKey, W.
Qed.

Lemma stepOp_wellFormed c (op : CacheOp T) :
  wellFormed c -> wellFormed (stepOp c op).
Proof.
  intros W.
  destruct op as [now key | now key | now key v ttl | key | now | |];
    cbn [stepOp].
  - unfold LRUCache.get.
    destruct (JSMap.get key (LRUCache.cache c)) as [entry |] eqn:G.
    + destruct (LRUCache.isExpired now entry); cbn [snd].
      * apply wellFormed_recordMiss, wellFormed_updateSize.
        now apply wellFormed_dropKey.
      * apply wellFormed_recordHit. unfold wellFormed. lru_fields.
        rewrite keys_set_present by exact (get_Some_keys _ _ G).
        apply order_touch; [exact W | exact (get_Some_keys _ _ G)].
    + cbn [snd]. now apply wellFormed_recordMiss.
  - unfold LRUCache.has.
    destruct (JSMap.get key (LRUCache.cache c)) as [entry |]; [| exact W].
    destruct (LRUCache.isExpired now entry); cbn [snd]; [| exact W].
    apply wellFormed_updateSize. now apply wellFormed_dropKey.
  - unfold LRUCache.set.
    destruct (JSMap.has key (LRUCache.cache c)) eqn:H.
    + destruct (@has_get _ _ _ H) as [e G].
      unfold wellFormed. lru_fields.
      rewrite keys_set_present by exact (get_Some_keys _ _ G).
      apply order_touch; [exact W | exact (get_Some_keys _ _ G)].
    + apply wellFormed_updateSize.
      assert (W1 : wellFormed
                     (if LRUCache.maxSize (LRUCache.config c)
                         <=? JSMap.size (LRUCache.cache c)
                      then LRUCache.evictLRU c else c)).
      { destruct (_ <=? _); [now apply wellFormed_evictLRU | exact W]. }
      assert (NI : ~ In key (JSMap.keys (LRUCache.cache
                     (if LRUCache.maxSize (LRUCache.config c)
                         <=? JSMap.size (LRUCache.cache c)
                      then LRUCache.evictLRU c else c)))).
      { apply has_false_keys in H.
        destruct (_ <=? _); [| exact H].
        destruct (cache_evictLRU c) as [-> | [lruKey ->]]; [exact H |].
        rewrite keys_delete, setDelete_In. tauto. }
      unfold wellFormed. lru_fields.
      rewrite set_fresh by exact NI.
      unfold JSMap.keys. rewrite map_app. cbn [map fst].
      now apply order_append.
  - unfold LRUCache.delete.
    destruct (JSMap.has key (LRUCache.cache c)); cbn [snd]; [| exact W].
    apply wellFormed_updateSize. now apply wellFormed_dropKey.
  - unfold LRUCache.cleanup. cbn [snd].
    destruct (0 <? _).
    + apply wellFormed_updateSize. now apply wellFormed_fold_dropKey.
    + now apply wellFormed_fold_dropKey.
  - unfold wellFormed. cbn. repeat split; try constructor; auto.
  - exact W.
Qed.

Lemma runOps_wellFormed (ops : list (CacheOp T)) c :
  wellFormed c -> wellFormed (runOps c ops).
Proof.
  revert c. induction ops as [| op rest IH]; intros c W; [exact W |].
  cbn. apply IH, stepOp_wellFormed, W.
Qed.

Lemma create_wellFormed (cfg : LRUCache.LRUCacheConfig) :
  wellFormed (LRUCache.create (T := T) cfg).
Proof. unfold wellFormed. cbn. repeat split; try constructor; auto. Qed.

End OrderFacts.

Section CapacityFacts.
Context {T : Type}.
Implicit Types (c : LRUCache.t T) (k key : string).

Ltac lru_fields :=
  cbn [LRUCache.cache LRUCache.accessOrder LRUCache.config LRUCache.metrics
       LRUCache.dropKey LRUCache.touch LRUCache.putEntry
       LRUCache.appendOrder LRUCache.updateSize LRUCache.withMetrics].

Lemma config_recordMiss c :
  LRUCache.config (LRUCache.recordMiss c) = LRUCache.config c.
Proof. apply recordMiss_fields. Qed.

Lemma config_recordHit c :
  LRUCache.config (LRUCache.recordHit c) = LRUCache.config c.
Proof. apply recordHit_fields. Qed.

Lemma config_evictLRU c :
  LRUCache.config (LRUCache.evictLRU c) = LRUCache.config c.
Proof.
  unfold LRUCache.evictLRU.
  destruct (LRUCache.accessOrder c) as [| lruKey r]; [reflexivity |].
  destruct (falsy lruKey); reflexivity.
Qed.

Lemma config_fold_dropKey (ks : list string) c :
  LRUCache.config (fold_left LRUCache.dropKey ks c) = LRUCache.config c.
Proof.
  revert c. induction ks as [| k r IH]; intros c; cbn; [reflexivity |].
  now rewrite IH.
Qed.

(** No operation changes the configuration. *)
Lemma stepOp_config c (op : CacheOp T) :
  LRUCache.config (stepOp c op) = LRUCache.config c.
Proof.
  destruct op as [now key | now key | now key v ttl | key | now | |];
    cbn [stepOp].
  - unfold LRUCache.get.
    destruct (JSMap.get key (LRUCache.cache c)) as [entry |];
      [destruct (LRUCache.isExpired now entry) |]; cbn [snd];
      rewrite ?config_recordMiss, ?config_recordHit; reflexivity.
  - unfold LRUCache.has.
    destruct (JSMap.get key (LRUCache.cache c)) as [entry |];
      [destruct (LRUCache.isExpired now entry) |]; reflexivity.
  - unfold LRUCache.set.
    destruct (JSMap.has key (LRUCache.cache c)); [reflexivity |].
    lru_fields. destruct (_ <=? _); [apply config_evictLRU | reflexivity].
  - unfold LRUCache.delete.
    destruct (JSMap.has key (LRUCache.cache c)); reflexivity.
  - unfold LRUCache.cleanup. cbn [snd].
    destruct (0 <? _); lru_fields; apply config_fold_dropKey.
  - reflexivity.
  - reflexivity.
Qed.

Lemma runOps_config (ops : list (CacheOp T)) c :
  LRUCache.config (runOps c ops) = LRUCache.config c.
Proof.
  revert c. induction ops as [| op rest IH]; intros c; [reflexivity |].
  cbn. fold (runOps (stepOp c op) rest). now rewrite IH, stepOp_config.
Qed.

Lemma wellFormed_lengths c :
  wellFormed c ->
  List.length (LRUCache.accessOrder c)
  = List.length (JSMap.keys (LRUCache.cache c)).
Proof.
  intros (N1 & N2 & E). apply Permutation_length.
  now apply NoDup_Permutation.
Qed.

Lemma keysNonEmpty_delete c key :
  keysNonEmpty c -> keysNonEmpty (LRUCache.dropKey c key).
Proof.
  unfold keysNonEmpty. lru_fields. rewrite keys_delete.
  intros F. rewrite Forall_forall in *. intros k I.
  apply setDelete_In in I. apply F, I.
Qed.

Lemma size_dropKey_le c key :
  JSMap.size (LRUCache.cache (LRUCache.dropKey c key))
  <= JSMap.size (LRUCache.cache c).
Proof.
  lru_fields. rewrite !size_keys, keys_delete.
  pose proof (setDelete_length_le key (JSMap.keys (LRUCache.cache c))). lia.
Qed.

Lemma fold_dropKey_bounds (ks : list string) c :
  keysNonEmpty c ->
  keysNonEmpty (fold_left LRUCache.dropKey ks c)
  /\ JSMap.size (LRUCache.cache (fold_left LRUCache.dropKey ks c))
     <= JSMap.size (LRUCache.cache c).
Proof.
  revert c. induction ks as [| k r IH]; intros c F; cbn; [split; [exact F | lia] |].
  destruct (IH (LRUCache.dropKey c k) (keysNonEmpty_delete k F)) as [F' S'].
  split; [exact F' |]. pose proof (size_dropKey_le c k). lia.
Qed.

(** What [evictLRU] does to a full, well-formed cache without empty
    key: it removes one entry. *)
Lemma evictLRU_full c :
  wellFormed c -> keysNonEmpty c -> 1 <= JSMap.size (LRUCache.cache c) ->
  exists lruKey,
    In lruKey (JSMap.keys (LRUCache.cache c))
    /\ LRUCache.cache (LRUCache.evictLRU c)
       = JSMap.delete lruKey (LRUCache.cache c)
    /\ JSMap.size (LRUCache.cache (LRUCache.evictLRU c))
       = JSMap.size (LRUCache.cache c) - 1.
Proof.
  intros W F S. pose proof (wellFormed_lengths W) as L.
  destruct W as (N1 & N2 & E).
  unfold LRUCache.evictLRU.
  destruct (LRUCache.accessOrder c) as [| lruKey r] eqn:EA.
  - rewrite size_keys in S. cbn in L. lia.
  - assert (I : In lruKey (JSMap.keys (LRUCache.cache c)))
      by (apply E; now left).
    unfold keysNonEmpty in F. rewrite Forall_forall in F.
    rewrite (F _ I). exists lruKey. split; [exact I |].
    split; [reflexivity |]. lru_fields.
    rewrite !size_keys, keys_delete.
    pose proof (@setDelete_length _ _ N2 I). lia.
Qed.

Lemma set_capacity c now key (v : T) ttl :
  wellFormed c -> keysNonEmpty c -> falsy key = false ->
  1 <= LRUCache.maxSize (LRUCache.config c) ->
  JSMap.size (LRUCache.cache c) <= LRUCache.maxSize (LRUCache.config c) ->
  keysNonEmpty (LRUCache.set c now key v ttl)
  /\ JSMap.size (LRUCache.cache (LRUCache.set c now key v ttl))
     <= LRUCache.maxSize (LRUCache.config c).
Proof.
  intros W F Fk Pos Cap. unfold LRUCache.set, keysNonEmpty.
  destruct (JSMap.has key (LRUCache.cache c)) eqn:H.
  - destruct (@has_get _ _ _ H) as [e G]. lru_fields.
    rewrite (@size_set_present _ _ _ _ _ G).
    rewrite keys_set_present by exact (@get_Some_keys _ _ _ _ G).
    split; [exact F | exact Cap].
  - apply has_false_keys in H. lru_fields.
    destruct (Z.leb_spec (LRUCache.maxSize (LRUCache.config c))
                         (JSMap.size (LRUCache.cache c))) as [Full | Room].
    + destruct (evictLRU_full W F ltac:(lia)) as (lruKey & I & EC & ES).
      assert (NI : ~ In key (JSMap.keys (LRUCache.cache (LRUCache.evictLRU c)))).
      { rewrite EC, keys_delete, setDelete_In. tauto. }
      rewrite set_fresh by exact NI.
      unfold JSMap.keys, JSMap.size. rewrite map_app, length_app.
      cbn [map fst List.length]. split.
      * apply Forall_app. split; [| now repeat constructor].
        fold (JSMap.keys (LRUCache.cache (LRUCache.evictLRU c))).
        rewrite EC, keys_delete. unfold keysNonEmpty in F.
        rewrite Forall_forall in *. intros k Ik.
        apply setDelete_In in Ik. apply F, Ik.
      * unfold JSMap.size in ES, Full, Cap. lia.
    + rewrite set_fresh by exact H.
      unfold JSMap.keys, JSMap.size. rewrite map_app, length_app.
      cbn [map fst List.length]. split.
      * apply Forall_app. split; [exact F | now repeat constructor].
      * unfold JSMap.size in Room. lia.
Qed.

Lemma stepOp_capacity (cfg : LRUCache.LRUCacheConfig) c (op : CacheOp T) :
  1 <= LRUCache.maxSize cfg ->
  setsEmptyKey op = false ->
  wellFormed c -> LRUCache.config c = cfg -> keysNonEmpty c ->
  JSMap.size (LRUCache.cache c) <= LRUCache.maxSize cfg ->
  keysNonEmpty (stepOp c op)
  /\ JSMap.size (LRUCache.cache (stepOp c op)) <= LRUCache.maxSize cfg.
Proof.
  intros Pos Hop W C F Cap.
  destruct op as [now key | now key | now key v ttl | key | now | |];
    cbn [stepOp].
  - unfold LRUCache.get, keysNonEmpty.
    destruct (JSMap.get key (LRUCache.cache c)) as [entry |] eqn:G.
    + destruct (LRUCache.isExpired now entry); cbn [snd].
      * rewrite cache_recordMiss. lru_fields.
        split; [apply (keysNonEmpty_delete key F) |].
        pose proof (size_dropKey_le c key). cbn in *. lia.
      * rewrite cache_recordHit. lru_fields.
        rewrite (@size_set_present _ _ _ _ _ G).
        rewrite keys_set_present by exact (@get_Some_keys _ _ _ _ G).
        split; [exact F | exact Cap].
    + cbn [snd]. rewrite cache_recordMiss. split; [exact F | exact Cap].
  - unfold LRUCache.has.
    destruct (JSMap.get key (LRUCache.cache c)) as [entry |];
      [| split; [exact F | exact Cap]].
    destruct (LRUCache.isExpired now entry); cbn [snd];
      [| split; [exact F | exact Cap]].
    split; [apply (keysNonEmpty_delete key F) |].
    pose proof (size_dropKey_le c key). cbn in *. lia.
  - cbn in Hop. rewrite <- C in *. now apply set_capacity.
  - unfold LRUCache.delete.
    destruct (JSMap.has key (LRUCache.cache c)); cbn [snd];
      [| split; [exact F | exact Cap]].
    split; [apply (keysNonEmpty_delete key F) |].
    pose proof (size_dropKey_le c key). cbn in *. lia.
  - unfold keysNonEmpty. rewrite cache_cleanup, <- cache_fold_dropKey.
    destruct (fold_dropKey_bounds
                (map fst (filter (fun e => LRUCache.isExpired now (snd e))
                                 (LRUCache.cache c))) F) as [F' S'].
    split; [exact F' | lia].
  - cbn. split; [constructor | lia].
  - split; [exact F | exact Cap].
Qed.

End CapacityFacts.

(** X17. A cache of capacity [maxSize >= 1] never holds more than
    [maxSize] entries, whatever is done with it, as long as no value is
    stored under the empty string. *)
Theorem X17_capacity_bound
        {T : Type} (cfg : LRUCache.LRUCacheConfig) (ops : list (CacheOp T)) :
  1 <= LRUCache.maxSize cfg ->
  Forall (fun op => setsEmptyKey op = false) ops ->
  LRUCache.size (runOps (LRUCache.create cfg) ops) <= LRUCache.maxSize cfg.
Proof.
  intros Pos F. unfold LRUCache.size.
  assert (G : forall c : LRUCache.t T,
             wellFormed c -> LRUCache.config c = cfg -> keysNonEmpty c ->
             JSMap.size (LRUCache.cache c) <= LRUCache.maxSize cfg ->
             JSMap.size (LRUCache.cache (runOps c ops))
             <= LRUCache.maxSize cfg).
  { induction F as [| op rest Hop F IH]; intros c W C K Cap; [exact Cap |].
    cbn. fold (runOps (stepOp c op) rest).
    destruct (@stepOp_capacity _ cfg c op Pos Hop W C K Cap) as [K' Cap'].
    apply IH; auto.
    - now apply stepOp_wellFormed.
    - now rewrite stepOp_config. }
  apply G.
  - apply create_wellFormed.
  - reflexivity.
  - constructor.
  - cbn. lia.
Qed.

Lemma X17_capacity_bound_witness :
  LRUCache.size
    (runOps (LRUCache.create (LRUCache.mkConfig 2 0 0 true))
            [OpSet 0 "a" 1 None; OpSet 1 "b" 2 None; OpGet 2 "a";
             OpSet 3 "c" 3 None; OpSet 4 "d" 4 None])
  <= 2.
Proof.
  apply (@X17_capacity_bound Z (LRUCache.mkConfig 2 0 0 true)
           [OpSet 0 "a" 1 None; OpSet 1 "b" 2 None; OpGet 2 "a";
            OpSet 3 "c" 3 None; OpSet 4 "d" 4 None]).
  - cbn. lia.
  - repeat constructor.
Defined.

Section RecencyFacts.
Context {T : Type}.
Implicit Types (c : LRUCache.t T) (k key : string).

Ltac lru_fields :=
  cbn [LRUCache.cache LRUCache.accessOrder LRUCache.config LRUCache.metrics
       LRUCache.dropKey LRUCache.touch LRUCache.putEntry
       LRUCache.appendOrder LRUCache.updateSize LRUCache.withMetrics].

(** What [evictLRU] removes, if anything, is the first key of the
    access order. *)
Lemma cache_evictLRU_head c :
  LRUCache.cache (LRUCache.evictLRU c) = LRUCache.cache c
  \/ exists lruKey r,
       LRUCache.accessOrder c = lruKey :: r
       /\ LRUCache.cache (LRUCache.evictLRU c)
          = JSMap.delete lruKey (LRUCache.cache c).
Proof.
  unfold LRUCache.evictLRU.
  destruct (LRUCache.accessOrder c) as [| lruKey r]; [now left |].
  destruct (falsy lruKey); [now left |].
  right. exists lruKey, r. split; reflexivity.
Qed.

(** A key moved to the end of an access order of two keys or more is
    not its first key. *)
Lemma moved_key_not_first key (order : list string) lruKey r :
  NoDup order -> (2 <= List.length order)%nat ->
  JSMap.setAdd key (JSMap.setDelete key order) = lruKey :: r ->
  lruKey <> key.
Proof.
  intros N L E.
  assert (NI : ~ In key (JSMap.setDelete key order))
    by (rewrite setDelete_In; tauto).
  rewrite (@setAdd_fresh key _ NI) in E.
  destruct (JSMap.setDelete key order) as [| x rest] eqn:D.
  - exfalso. destruct (in_dec string_dec key order) as [I | NO].
    + pose proof (@setDelete_length _ _ N I) as S'. rewrite D in S'.
      cbn in S'. lia.
    + rewrite (@setDelete_absent key order NO) in D. subst order.
      cbn in L. lia.
  - cbn in E. injection E as -> _. intros ->. apply NI. now left.
Qed.

Lemma get_hit_state c now key (v : T) :
  fst (LRUCache.get c now key) = Some v ->
  exists entry,
    JSMap.get key (LRUCache.cache c) = Some entry
    /\ LRUCache.value entry = v
    /\ LRUCache.cache (snd (LRUCache.get c now key))
       = JSMap.set key
           (LRUCache.mkEntry (LRUCache.value entry) (LRUCache.timestamp entry)
              (LRUCache.expiresAt entry) (LRUCache.accessCount entry + 1))
           (LRUCache.cache c)
    /\ LRUCache.accessOrder (snd (LRUCache.get c now key))
       = JSMap.setAdd key (JSMap.setDelete key (LRUCache.accessOrder c))
    /\ LRUCache.config (snd (LRUCache.get c now key)) = LRUCache.config c.
Proof.
  unfold LRUCache.get.
  destruct (JSMap.get key (LRUCache.cache c)) as [entry |];
    [| discriminate].
  destruct (LRUCache.isExpired now entry); [discriminate |].
  cbn [fst snd]. intros [= <-]. exists entry.
  destruct (recordHit_fields
              (LRUCache.putEntry (LRUCache.touch c key) key
                 (LRUCache.mkEntry (LRUCache.value entry)
                    (LRUCache.timestamp entry) (LRUCache.expiresAt entry)
                    (LRUCache.accessCount entry + 1)))) as (E1 & E2 & E3 & _).
  rewrite E1, E2, E3. lru_fields.
  split; [reflexivity |]. split; [reflexivity |].
  split; [reflexivity |]. split; reflexivity.
Qed.

End RecencyFacts.

(** X18. Reading a key protects it from the next eviction: in a cache
    that holds two entries or more, after a successful [get] of [key]
    a [set] of another key leaves [key] in the cache with its value,
    whether or not that [set] has to evict. *)
Theorem X18_get_protects_from_eviction
        {T : Type} (cfg : LRUCache.LRUCacheConfig)
        (history : list (CacheOp T))
        (now now' : Z) (key key' : string) (v v' : T) (ttl : option Z) :
  fst (LRUCache.get (runOps (LRUCache.create cfg) history) now key) = Some v ->
  2 <= LRUCache.size (runOps (LRUCache.create cfg) history) ->
  key' <> key ->
  exists e,
    JSMap.get key
      (LRUCache.cache
         (LRUCache.set
            (snd (LRUCache.get (runOps (LRUCache.create cfg) history) now key))
            now' key' v' ttl))
    = Some e
    /\ LRUCache.value e = v.
Proof.
  set (c := runOps (LRUCache.create cfg) history).
  intros Hit Two Nk.
  assert (W : wellFormed c)
    by (apply runOps_wellFormed, create_wellFormed).
  pose proof (wellFormed_lengths W) as L.
  destruct W as (N1 & N2 & EO).
  destruct (get_hit_state c now key Hit) as (entry & G & Ev & EC & EA & _).
  set (c1 := snd (LRUCache.get c now key)) in *.
  assert (G1 : exists e, JSMap.get key (LRUCache.cache c1) = Some e
                         /\ LRUCache.value e = v).
  { rewrite EC, get_set_same. eexists. split; [reflexivity | exact Ev]. }
  destruct G1 as (e & G1 & Ve). exists e. split; [| exact Ve].
  unfold LRUCache.set.
  destruct (JSMap.has key' (LRUCache.cache c1)).
  - cbn [LRUCache.cache LRUCache.touch LRUCache.putEntry].
    rewrite get_set_other by congruence. exact G1.
  - cbn [LRUCache.cache LRUCache.updateSize LRUCache.withMetrics
         LRUCache.appendOrder LRUCache.putEntry].
    rewrite get_set_other by congruence.
    destruct (_ <=? _); [| exact G1].
    destruct (cache_evictLRU_head c1) as [-> | (lruKey & r & HA & ->)];
      [exact G1 |].
    rewrite get_delete_other; [exact G1 |].
    rewrite EA in HA. intros ->.
    apply (@moved_key_not_first lruKey (LRUCache.accessOrder c) lruKey r);
      auto.
    unfold LRUCache.size in Two. rewrite size_keys in Two. lia.
Qed.

Lemma X18_get_protects_from_eviction_witness :
  exists e,
    JSMap.get "a"
      (LRUCache.cache
         (LRUCache.set
            (snd (LRUCache.get
                    (runOps (LRUCache.create (LRUCache.mkConfig 2 0 0 true))
                            [OpSet 0 "a" 1 None; OpSet 1 "b" 2 None])
                    2 "a"))
            3 "c" 3 None))
    = Some e
    /\ LRUCache.value e = 1.
Proof.
  apply (@X18_get_protects_from_eviction Z (LRUCache.mkConfig 2 0 0 true)
           [OpSet 0 "a" 1 None; OpSet 1 "b" 2 None] 2 3 "a" "c" 1 3 None).
  - reflexivity.
  - cbn. lia.
  - discriminate.
Defined.

(** ** Cleanup *)

Section CleanupFacts.
Context {T : Type}.
Implicit Types (c : LRUCache.t T) (k key : string)
         (m : list (string * LRUCache.CacheEntry T)).

Lemma fold_delete_filter (ks : list string) m :
  fold_left (fun m k => JSMap.delete k m) ks m
  = filter (fun e => negb (existsb (fun k => String.eqb k (fst e)) ks)) m.
Proof.
  revert m. induction ks as [| k r IH]; intros m; cbn [fold_left existsb].
  - induction m as [| e m' IHm]; cbn; [reflexivity | now f_equal].
  - rewrite IH. unfold JSMap.delete.
    induction m as [| e m' IHm]; cbn [filter]; [reflexivity |].
    destruct (String.eqb k (fst e)); cbn [negb orb filter].
    + exact IHm.
    + destruct (negb (existsb _ r)); [now rewrite IHm | exact IHm].
Qed.

(** With one entry per key, deleting the keys of the entries that
    satisfy [p] leaves the entries that do not. *)
Lemma delete_selected_keys (p : string * LRUCache.CacheEntry T -> bool) m :
  NoDup (JSMap.keys m) ->
  fold_left (fun m k => JSMap.delete k m) (map fst (filter p m)) m
  = filter (fun e => negb (p e)) m.
Proof.
  intros N. rewrite fold_delete_filter. apply filter_ext_in.
  intros [k e] I. f_equal. cbn [fst].
  destruct (p (k, e)) eqn:P.
  - apply existsb_exists. exists k. split; [| apply String.eqb_refl].
    apply in_map_iff. exists (k, e). split; [reflexivity |].
    apply filter_In. split; assumption.
  - destruct (existsb _ _) eqn:X; [| reflexivity].
    apply existsb_exists in X. destruct X as (k' & I' & E).
    apply String.eqb_eq in E. subst k'.
    apply in_map_iff in I'. destruct I' as ([k2 e2] & E2 & I2).
    cbn in E2. subst k2. apply filter_In in I2. destruct I2 as [I2 P2].
    rewrite (@NoDup_keys_unique _ k e e2 m N I I2) in P. congruence.
Qed.

Lemma filter_split_length (A : Type) (p : A -> bool) (l : list A) :
  (List.length (filter p l) + List.length (filter (fun x => negb (p x)) l)
   = List.length l)%nat.
Proof.
  induction l as [| x r IH]; cbn; [reflexivity |].
  destruct (p x); cbn; lia.
Qed.

Lemma get_filter_live now k m :
  NoDup (JSMap.keys m) ->
  JSMap.get k (filter (fun e => negb (LRUCache.isExpired now (snd e))) m)
  = match JSMap.get k m with
    | Some e => if LRUCache.isExpired now e then None else Some e
    | None => None
    end.
Proof.
  induction m as [| [k' e'] r IH]; intros N; cbn [filter JSMap.get snd];
    [reflexivity |].
  inversion N as [| ? ? NI N']; subst.
  destruct (LRUCache.isExpired now e') eqn:X; cbn [negb JSMap.get].
  - destruct (String.eqb_spec k k') as [-> | Nk]; [| now apply IH].
    rewrite X. apply get_None_keys. intros I. apply NI.
    unfold JSMap.keys in I. apply in_map_iff in I.
    destruct I as (x & E & I). apply filter_In in I.
    apply in_map_iff. exists x. tauto.
  - destruct (String.eqb_spec k k') as [-> | Nk]; [now rewrite X |].
    now apply IH.
Qed.

End CleanupFacts.

(** X19. [cleanup] removes the expired entries and nothing else: the
    entries that are left are the unexpired ones, in their order; the
    number returned is the number of entries that went; and a [get] at
    that time gives the same answer after the cleanup as it would have
    given before. *)
Theorem X19_cleanup_exact
        {T : Type} (cfg : LRUCache.LRUCacheConfig)
        (history : list (CacheOp T)) (now : Z) :
  let c := runOps (LRUCache.create cfg) history in
  let c' := snd (LRUCache.cleanup c now) in
  LRUCache.cache c'
  = filter (fun e => negb (LRUCache.isExpired now (snd e))) (LRUCache.cache c)
  /\ fst (LRUCache.cleanup c now) = LRUCache.size c - LRUCache.size c'
  /\ (forall key,
        fst (LRUCache.get c' now key) = fst (LRUCache.get c now key)).
Proof.
  cbv zeta. set (c := runOps (LRUCache.create cfg) history).
  assert (N : NoDup (JSMap.keys (LRUCache.cache c))).
  { apply runOps_NoDup. cbn. constructor. }
  assert (E : LRUCache.cache (snd (LRUCache.cleanup c now))
              = filter (fun e => negb (LRUCache.isExpired now (snd e)))
                       (LRUCache.cache c)).
  { rewrite cache_cleanup. now apply delete_selected_keys. }
  split; [exact E |]. split.
  - unfold LRUCache.size. rewrite E. unfold LRUCache.cleanup. cbn [fst].
    unfold JSMap.size.
    pose proof (filter_split_length
                  (fun e => LRUCache.isExpired now (snd e))
                  (LRUCache.cache c)). lia.
  - intros key. rewrite !get_result, E, (@get_filter_live _ now key _ N).
    destruct (JSMap.get key (LRUCache.cache c)) as [e |]; [| reflexivity].
    destruct (LRUCache.isExpired now e) eqn:X; [reflexivity |].
    now rewrite X.
Qed.

(** ** The counters of the metrics *)

Section MetricsFacts.
Context {T : Type}.
Implicit Types (c : LRUCache.t T) (k key : string).

Lemma consistent_recordHit c :
  countersConsistent (LRUCache.metrics c) ->
  countersConsistent (LRUCache.metrics (LRUCache.recordHit c)).
Proof.
  unfold LRUCache.recordHit, countersConsistent.
  destruct (LRUCache.enableMetrics (LRUCache.config c)); [| auto].
  cbn. intros (H1 & H2 & H3 & _).
  split; [lia |]. split; [lia |]. split; [lia | reflexivity].
Qed.

Lemma consistent_recordMiss c :
  countersConsistent (LRUCache.metrics c) ->
  countersConsistent (LRUCache.metrics (LRUCache.recordMiss c)).
Proof.
  unfold LRUCache.recordMiss, countersConsistent.
  destruct (LRUCache.enableMetrics (LRUCache.config c)); [| auto].
  cbn. intros (H1 & H2 & H3 & _).
  split; [lia |]. split; [lia |]. split; [lia | reflexivity].
Qed.

Lemma consistent_updateSize c :
  countersConsistent (LRUCache.metrics c) ->
  countersConsistent (LRUCache.metrics (LRUCache.updateSize c)).
Proof. unfold countersConsistent. cbn. auto. Qed.

Lemma consistent_evictLRU c :
  countersConsistent (LRUCache.metrics c) ->
  countersConsistent (LRUCache.metrics (LRUCache.evictLRU c)).
Proof.
  unfold LRUCache.evictLRU.
  destruct (LRUCache.accessOrder c) as [| lruKey r]; [auto |].
  destruct (falsy lruKey); [auto |].
  unfold countersConsistent. cbn. intros (H1 & H2 & H3 & H4).
  split; [lia |]. split; [lia |]. split; [lia | exact H4].
Qed.

Lemma metrics_fold_dropKey (ks : list string) c :
  LRUCache.metrics (fold_left LRUCache.dropKey ks c) = LRUCache.metrics c.
Proof.
  revert c. induction ks as [| k r IH]; intros c; cbn; [reflexivity |].
  now rewrite IH.
Qed.

Lemma stepOp_consistent c (op : CacheOp T) :
  countersConsistent (LRUCache.metrics c) ->
  countersConsistent (LRUCache.metrics (stepOp c op)).
Proof.
  intros I.
  destruct op as [now key | now key | now key v ttl | key | now | |];
    cbn [stepOp].
  - unfold LRUCache.get.
    destruct (JSMap.get key (LRUCache.cache c)) as [entry |];
      [destruct (LRUCache.isExpired now entry) |]; cbn [snd].
    + apply consistent_recordMiss, consistent_updateSize. exact I.
    + apply consistent_recordHit. exact I.
    + apply consistent_recordMiss. exact I.
  - unfold LRUCache.has.
    destruct (JSMap.get key (LRUCache.cache c)) as [entry |];
      [destruct (LRUCache.isExpired now entry) |]; cbn [snd];
      [apply consistent_updateSize | |]; exact I.
  - unfold LRUCache.set.
    destruct (JSMap.has key (LRUCache.cache c)); [exact I |].
    apply consistent_updateSize.
    cbn [LRUCache.metrics LRUCache.appendOrder LRUCache.putEntry].
    destruct (_ <=? _); [now apply consistent_evictLRU | exact I].
  - unfold LRUCache.delete.
    destruct (JSMap.has key (LRUCache.cache c)); cbn [snd];
      [apply consistent_updateSize |]; exact I.
  - unfold LRUCache.cleanup. cbn [snd].
    destruct (0 <? _); [apply consistent_updateSize |];
      cbn [LRUCache.metrics]; rewrite metrics_fold_dropKey; exact I.
  - unfold countersConsistent. cbn.
    split; [lia |]. split; [lia |]. split; [lia | reflexivity].
  - unfold countersConsistent. cbn.
    split; [lia |]. split; [lia |]. split; [lia | reflexivity].
Qed.

Lemma hit_rate_bounds (h m : Z) :
  0 <= h -> 0 <= m -> 0 < h + m ->
  (0 <= inject_Z h / inject_Z (h + m) * 100 <= 100)%Q.
Proof.
  intros Hh Hm Ht.
  assert (M : (0 < inject_Z (h + m))%Q)
    by (change 0%Q with (inject_Z 0); rewrite <- Zlt_Qlt; lia).
  split.
  - apply Qmult_le_0_compat; [| discriminate].
    apply Qle_shift_div_l; [exact M |].
    rewrite Qmult_0_l. change 0%Q with (inject_Z 0).
    rewrite <- Zle_Qle. lia.
  - setoid_replace 100%Q with (1 * 100)%Q at 2 by ring.
    apply Qmult_le_compat_r; [| discriminate].
    apply Qle_shift_div_r; [exact M |].
    rewrite Qmult_1_l, <- Zle_Qle. lia.
Qed.

Lemma count_split (l : list bool) :
  countTrue l + countFalse l = Z.of_nat (List.length l).
Proof.
  unfold countTrue, countFalse.
  induction l as [| [|] r IH]; cbn [filter negb List.length]; lia.
Qed.

(** What one operation other than [clear] and [resetMetrics] does to
    the counters [hits] and [misses]. *)
Lemma stepOp_counters c (op : CacheOp T) :
  resetsCounters op = false ->
  LRUCache.hits (LRUCache.metrics (stepOp c op))
  = LRUCache.hits (LRUCache.metrics c)
    + match getOutcome c op with
      | Some true => if LRUCache.enableMetrics (LRUCache.config c)
                     then 1 else 0
      | _ => 0
      end
  /\ LRUCache.misses (LRUCache.metrics (stepOp c op))
     = LRUCache.misses (LRUCache.metrics c)
       + match getOutcome c op with
         | Some false => if LRUCache.enableMetrics (LRUCache.config c)
                         then 1 else 0
         | _ => 0
         end.
Proof.
  intros R.
  destruct op as [now key | now key | now key v ttl | key | now | |];
    cbn [stepOp getOutcome]; try discriminate R.
  - unfold LRUCache.get.
    destruct (JSMap.get key (LRUCache.cache c)) as [entry |];
      [destruct (LRUCache.isExpired now entry) |]; cbn [fst snd];
      unfold LRUCache.recordMiss, LRUCache.recordHit;
      cbn [LRUCache.config LRUCache.updateSize LRUCache.dropKey
           LRUCache.putEntry LRUCache.touch LRUCache.withMetrics];
      destruct (LRUCache.enableMetrics (LRUCache.config c)); cbn; lia.
  - unfold LRUCache.has.
    destruct (JSMap.get key (LRUCache.cache c)) as [entry |];
      [destruct (LRUCache.isExpired now entry) |]; cbn; lia.
  - unfold LRUCache.set.
    destruct (JSMap.has key (LRUCache.cache c)); [cbn; lia |].
    destruct (_ <=? _); [| cbn; lia].
    unfold LRUCache.evictLRU.
    destruct (LRUCache.accessOrder c) as [| lruKey r]; [cbn; lia |].
    destruct (falsy lruKey); cbn; lia.
  - unfold LRUCache.delete.
    destruct (JSMap.has key (LRUCache.cache c)); cbn; lia.
  - unfold LRUCache.cleanup. cbn [snd].
    destruct (0 <? _);
      cbn [LRUCache.metrics LRUCache.updateSize LRUCache.withMetrics
           LRUCache.hits LRUCache.misses];
      rewrite metrics_fold_dropKey; lia.
Qed.

Lemma runOps_counters (ops : list (CacheOp T)) c :
  Forall (fun op => resetsCounters op = false) ops ->
  LRUCache.hits (LRUCache.metrics (runOps c ops))
  = LRUCache.hits (LRUCache.metrics c)
    + (if LRUCache.enableMetrics (LRUCache.config c)
       then countTrue (getOutcomes c ops) else 0)
  /\ LRUCache.misses (LRUCache.metrics (runOps c ops))
     = LRUCache.misses (LRUCache.metrics c)
       + (if LRUCache.enableMetrics (LRUCache.config c)
          then countFalse (getOutcomes c ops) else 0).
Proof.
  intros F. revert c.
  induction F as [| op rest R F IH]; intros c.
  - cbn. destruct (LRUCache.enableMetrics (LRUCache.config c)); lia.
  - cbn [runOps fold_left getOutcomes]. fold (runOps (stepOp c op) rest).
    destruct (IH (stepOp c op)) as [IH1 IH2].
    destruct (@stepOp_counters c op R) as [S1 S2].
    rewrite IH1, IH2, S1, S2, stepOp_config.
    unfold countTrue, countFalse.
    destruct (LRUCache.enableMetrics (LRUCache.config c));
      destruct (getOutcome c op) as [[|] |]; cbn [filter negb List.length];
      lia.
Qed.

End MetricsFacts.

(** X20. In every state that a cache can reach, the counters [hits],
    [misses] and [evictions] are not negative, the hit rate is the one
    [updateHitRate] computes from [hits] and [misses], and it lies
    between 0 and 100. *)
Theorem X20_metrics_consistent
        {T : Type} (cfg : LRUCache.LRUCacheConfig) (ops : list (CacheOp T)) :
  let m := LRUCache.getMetrics (runOps (LRUCache.create cfg) ops) in
  0 <= LRUCache.hits m /\ 0 <= LRUCache.misses m
  /\ 0 <= LRUCache.evictions m
  /\ LRUCache.hitRate m = LRUCache.hitRate (LRUCache.updateHitRate m)
  /\ (0 <= LRUCache.hitRate m <= 100)%Q.
Proof.
  cbv zeta. unfold LRUCache.getMetrics.
  assert (G : forall c : LRUCache.t T,
             countersConsistent (LRUCache.metrics c) ->
             countersConsistent (LRUCache.metrics (runOps c ops))).
  { induction ops as [| op rest IH]; intros c I; [exact I |].
    cbn. apply IH. now apply stepOp_consistent. }
  assert (I : countersConsistent
                (LRUCache.metrics (runOps (LRUCache.create cfg) ops))).
  { apply G. unfold countersConsistent. cbn.
    split; [lia |]. split; [lia |]. split; [lia | reflexivity]. }
  destruct I as (H1 & H2 & H3 & H4).
  split; [exact H1 |]. split; [exact H2 |]. split; [exact H3 |].
  split; [now symmetry |].
  rewrite <- H4. unfold LRUCache.updateHitRate. cbn [LRUCache.hitRate].
  destruct (Z.ltb_spec 0
              (LRUCache.hits (LRUCache.metrics
                                (runOps (LRUCache.create cfg) ops))
               + LRUCache.misses (LRUCache.metrics
                                    (runOps (LRUCache.create cfg) ops))))
    as [P | NP].
  - now apply hit_rate_bounds.
  - split; discriminate.
Qed.

(** X21. As long as the cache is neither cleared nor its metrics
    reset, [hits] counts the calls of [get] that returned a value and
    [misses] those that returned [undefined]; with the metrics
    disabled both stay 0. *)
Theorem X21_hits_and_misses
        {T : Type} (cfg : LRUCache.LRUCacheConfig) (ops : list (CacheOp T)) :
  Forall (fun op => resetsCounters op = false) ops ->
  let m := LRUCache.getMetrics (runOps (LRUCache.create cfg) ops) in
  let outcomes := getOutcomes (LRUCache.create cfg) ops in
  (LRUCache.enableMetrics cfg = true ->
   LRUCache.hits m = countTrue outcomes
   /\ LRUCache.misses m = countFalse outcomes
   /\ LRUCache.hits m + LRUCache.misses m
      = Z.of_nat (List.length (filter isGet ops)))
  /\ (LRUCache.enableMetrics cfg = false ->
      LRUCache.hits m = 0 /\ LRUCache.misses m = 0).
Proof.
  intros F. cbv zeta. unfold LRUCache.getMetrics.
  destruct (@runOps_counters _ ops (LRUCache.create cfg) F) as [H M].
  cbn [LRUCache.create LRUCache.config LRUCache.metrics LRUCache.hits
       LRUCache.misses] in H, M.
  split; intros E; rewrite E in H, M.
  - split; [lia |]. split; [lia |]. rewrite H, M, !Z.add_0_l.
    rewrite count_split.
    assert (L : forall (c : LRUCache.t T),
               List.length (getOutcomes c ops)
               = List.length (filter isGet ops)).
    { clear. induction ops as [| op rest IH]; intros c; [reflexivity |].
      cbn [getOutcomes filter].
      destruct op; cbn [getOutcome isGet List.length]; now rewrite IH. }
    now rewrite <- (L (LRUCache.create cfg)).
  - lia.
Qed.

Lemma X21_hits_and_misses_witness :
  LRUCache.hits
    (LRUCache.getMetrics
       (runOps (LRUCache.create (LRUCache.mkConfig 2 0 0 true))
               [OpGet 0 "a"; OpSet 1 "a" 1 None; OpGet 2 "a"; OpGet 3 "b"]))
  = 1
  /\ LRUCache.misses
       (LRUCache.getMetrics
          (runOps (LRUCache.create (LRUCache.mkConfig 2 0 0 true))
                  [OpGet 0 "a"; OpSet 1 "a" 1 None; OpGet 2 "a";
                   OpGet 3 "b"]))
     = 2.
Proof.
  destruct (@X21_hits_and_misses Z (LRUCache.mkConfig 2 0 0 true)
              [OpGet 0 "a"; OpSet 1 "a" 1 None; OpGet 2 "a"; OpGet 3 "b"]
              ltac:(repeat constructor)) as [H _].
  destruct (H eq_refl) as (H1 & H2 & _).
  split; [exact H1 | exact H2].
Defined.

(** ** Invalidation and clearing of the matcher cache *)

Section InvalidationFacts.
Context {T : Type}.
Implicit Types (c : LRUCache.t T) (k key : string).

Lemma get_after_delete c key k :
  JSMap.get k (LRUCache.cache (snd (LRUCache.delete c key)))
  = if String.eqb k key then None else JSMap.get k (LRUCache.cache c).
Proof.
  unfold LRUCache.delete.
  destruct (JSMap.has key (LRUCache.cache c)) eqn:H; cbn [snd].
  - cbn [LRUCache.cache LRUCache.updateSize LRUCache.withMetrics
         LRUCache.dropKey].
    destruct (String.eqb_spec k key) as [-> | N];
      [apply get_delete_same | now apply get_delete_other].
  - destruct (String.eqb_spec k key) as [-> | N]; [| reflexivity].
    unfold JSMap.has in H.
    now destruct (JSMap.get key (LRUCache.cache c)).
Qed.

Lemma invalidate_fold (entityId : string) (ks : list string) c k :
  JSMap.get k
    (LRUCache.cache
       (fold_left
          (fun c key =>
             if includes key entityId then snd (LRUCache.delete c key) else c)
          ks c))
  = if includes k entityId && existsb (String.eqb k) ks then None
    else JSMap.get k (LRUCache.cache c).
Proof.
  revert c. induction ks as [| key r IH]; intros c; cbn [fold_left existsb].
  - now rewrite andb_false_r.
  - rewrite IH. destruct (String.eqb_spec k key) as [-> | N].
    + destruct (includes key entityId) eqn:I; cbn [andb orb].
      * rewrite get_after_delete, String.eqb_refl.
        now destruct (existsb _ r).
      * reflexivity.
    + cbn [orb]. destruct (includes k entityId && existsb (String.eqb k) r);
        [reflexivity |].
      destruct (includes key entityId); [| reflexivity].
      rewrite get_after_delete.
      destruct (String.eqb_spec k key); [contradiction | reflexivity].
Qed.

(** [invalidateKeys] removes the entries whose key contains the
    identifier, and no other. *)
Lemma get_invalidateKeys c (entityId : string) k :
  JSMap.get k (LRUCache.cache (MatcherCache.invalidateKeys c entityId))
  = if includes k entityId then None else JSMap.get k (LRUCache.cache c).
Proof.
  unfold MatcherCache.invalidateKeys. rewrite invalidate_fold.
  destruct (includes k entityId); cbn [andb]; [| reflexivity].
  destruct (existsb (String.eqb k) (LRUCache.keys c)) eqn:X; [reflexivity |].
  cbn [andb]. apply get_None_keys. intros I.
  assert (Y : existsb (String.eqb k) (LRUCache.keys c) = true).
  { apply existsb_exists. exists k. split; [exact I | apply String.eqb_refl]. }
  congruence.
Qed.

End InvalidationFacts.

(** X22. [invalidateEntity] goes by the text of the cache keys: in the
    cache of the given entity type it removes the entries whose key
    contains the identifier as a substring, keeps every other entry as
    it is, and leaves the other two caches alone. *)
Theorem X22_invalidateEntity
        (mc : MatcherCache.t) (entityId : string) :
  let a := MatcherCache.invalidateEntity mc MatcherCache.artist entityId in
  let v := MatcherCache.invalidateEntity mc MatcherCache.venue entityId in
  (forall k,
      JSMap.get k (LRUCache.cache (MatcherCache.artistCache a))
      = if includes k entityId then None
        else JSMap.get k (LRUCache.cache (MatcherCache.artistCache mc)))
  /\ MatcherCache.venueCache a = MatcherCache.venueCache mc
  /\ MatcherCache.aliasCache a = MatcherCache.aliasCache mc
  /\ (forall k,
        JSMap.get k (LRUCache.cache (MatcherCache.venueCache v))
        = if includes k entityId then None
          else JSMap.get k (LRUCache.cache (MatcherCache.venueCache mc)))
  /\ MatcherCache.artistCache v = MatcherCache.artistCache mc
  /\ MatcherCache.aliasCache v = MatcherCache.aliasCache mc.
Proof.
  cbv zeta. unfold MatcherCache.invalidateEntity.
  cbn [MatcherCache.artistCache MatcherCache.venueCache
       MatcherCache.aliasCache].
  split; [intros k; apply get_invalidateKeys |].
  split; [reflexivity |]. split; [reflexivity |].
  split; [intros k; apply get_invalidateKeys |].
  split; reflexivity.
Qed.

(** X23. The cached matcher keys a result by the query and the
    configuration only.  After a first call has stored its result, a
    second call whose query has the same lowercased, trimmed form gets
    that stored result back while the entry is fresh, whatever list of
    artists it is given. *)
Theorem X23_cached_result_ignores_candidates
        (hashConfig : MatchConfig -> string) (matchCfg : MatchConfig)
        (cacheCfg : MatcherCache.MatcherCacheConfig) (query query' : string)
        (artists artists' : list MatchableArtist) (t1 t2 t3 t4 : Z) :
  falsy (trim query) = false ->
  artists <> [] -> artists' <> [] ->
  trim (toLowerCase query') = trim (toLowerCase query) ->
  t3 <= t2 + MatcherCache.artistCacheTTL cacheCfg ->
  fst (CachedEntityMatcher.matchArtists hashConfig
         (snd (CachedEntityMatcher.matchArtists hashConfig
                 (CachedEntityMatcher.create matchCfg cacheCfg)
                 t1 t2 query artists))
         t3 t4 query' artists')
  = EntityMatcher.matchArtists matchCfg query artists.
Proof.
  intros Fq Na Na' K Fresh.
  assert (G : falsy (trim query) || (List.length artists =? 0)%nat = false).
  { rewrite Fq. destruct artists; [congruence | reflexivity]. }
  assert (G' : falsy (trim query') || (List.length artists' =? 0)%nat = false).
  { rewrite (@falsy_trim_key query' query K), Fq.
    destruct artists'; [congruence | reflexivity]. }
  pose proof (@repeated_call_hits_cache hashConfig matchCfg cacheCfg query
                artists t1 t2 t3 G Fresh) as Hit.
  cbv zeta in Hit. rewrite getArtistMatches_get in Hit. cbn [fst] in Hit.
  destruct (@cached_matchArtists_miss hashConfig
              (CachedEntityMatcher.create matchCfg cacheCfg)
              t1 t2 query artists G eq_refl) as [_ C].
  change (CachedEntityMatcher.config
            (CachedEntityMatcher.create matchCfg cacheCfg))
    with matchCfg in C.
  rewrite cached_matchArtists_fst by exact G'. rewrite C.
  unfold MatcherCache.generateArtistCacheKey in *. rewrite K.
  now rewrite Hit.
Qed.

Lemma X23_cached_result_ignores_candidates_witness :
  fst (CachedEntityMatcher.matchArtists (fun _ => "h"%string)
         (snd (CachedEntityMatcher.matchArtists (fun _ => "h"%string)
                 (CachedEntityMatcher.create DEFAULT_MATCH_CONFIG
                    (MatcherCache.mkConfig 10 300000 60000 true
                       300000 300000 300000 false []))
                 0 0 "queen" [mkArtist "a1" "Queen" None]))
         1 1 " Queen " [mkArtist "b1" "Beatles" None])
  = EntityMatcher.matchArtists DEFAULT_MATCH_CONFIG "queen"
      [mkArtist "a1" "Queen" None].
Proof.
  apply (@X23_cached_result_ignores_candidates
           (fun _ => "h"%string) DEFAULT_MATCH_CONFIG
           (MatcherCache.mkConfig 10 300000 60000 true
              300000 300000 300000 false [])
           "queen" " Queen " [mkArtist "a1" "Queen" None]
           [mkArtist "b1" "Beatles" None] 0 0 1 1).
  - reflexivity.
  - discriminate.
  - discriminate.
  - reflexivity.
  - cbn. lia.
Defined.

(** X24. After [clearCache] nothing stored is used: the next call of
    [matchArtists] or [matchVenues] returns what the uncached matcher
    returns for the given candidates, whatever the cache held before. *)
Theorem X24_clearCache_recomputes
        (hashConfig : MatchConfig -> string) (m : CachedEntityMatcher.t)
        (query : string) (artists : list MatchableArtist)
        (venues : list MatchableVenue) (cityFilter : option string)
        (tg ts : Z) :
  let m' := CachedEntityMatcher.clearCache m in
  fst (CachedEntityMatcher.matchArtists hashConfig m' tg ts query artists)
  = EntityMatcher.matchArtists (CachedEntityMatcher.config m) query artists
  /\ fst (CachedEntityMatcher.matchVenues hashConfig m' tg ts query venues
            cityFilter)
     = EntityMatcher.matchVenues (CachedEntityMatcher.config m) query venues
         cityFilter.
Proof.
  cbv zeta. split.
  - destruct (falsy (trim query) || (List.length artists =? 0)%nat) eqn:G.
    + unfold CachedEntityMatcher.matchArtists, EntityMatcher.matchArtists.
      rewrite G. reflexivity.
    + rewrite cached_matchArtists_fst by exact G. reflexivity.
  - destruct (falsy (trim query) || (List.length venues =? 0)%nat) eqn:G.
    + unfold CachedEntityMatcher.matchVenues, EntityMatcher.matchVenues.
      rewrite G. reflexivity.
    + rewrite cached_matchVenues_fst by exact G. reflexivity.
Qed.

(** ** The text normalizer *)

Lemma replaceRuns_idem (p : ascii -> bool) (l : list ascii) :
  p " "%char = true ->
  forall b b' : bool,
    (b' = true -> b = true) ->
    replaceRuns p b' (replaceRuns p b l) = replaceRuns p b l.
Proof.
  intros Sp. induction l as [| c r IH]; intros b b' Hb; [reflexivity |].
  cbn [replaceRuns]. destruct (p c) eqn:Pc.
  - destruct b.
    + apply IH. auto.
    + destruct b'; [now specialize (Hb eq_refl) |].
      cbn [replaceRuns]. rewrite Sp. f_equal. apply IH. auto.
  - cbn [replaceRuns]. rewrite Pc. f_equal. apply IH. discriminate.
Qed.

Lemma replaceRuns_app_last (p : ascii -> bool) (l : list ascii) (c : ascii) :
  p c = false ->
  forall b, replaceRuns p b (l ++ [c]) = replaceRuns p b l ++ [c].
Proof.
  intros Pc. induction l as [| x r IH]; intros b; cbn [app replaceRuns].
  - now rewrite Pc.
  - destruct (p x); [destruct b |]; cbn [app]; now rewrite IH.
Qed.

(** What [trim] leaves, seen from both ends. *)
Lemma trimChars_ends (l : list ascii) :
  trimChars l = []
  \/ exists x r y r',
       trimChars l = x :: r /\ trimChars l = r' ++ [y]
       /\ isWhiteSpace x = false /\ isWhiteSpace y = false.
Proof.
  destruct (trimChars_shape l) as [E | (x & mid & E & Hx & Hr)];
    [now left |].
  right. rewrite E. cbn [rev] in Hr. rewrite rev_involutive in Hr.
  destruct mid as [| y m'].
  - exists x, [], x, []. auto.
  - exists x, (rev (y :: m')), y, (x :: rev m').
    split; [reflexivity |]. split; [reflexivity |]. split; [exact Hx |].
    cbn [app] in Hr. exact (@dropWhile_head _ _ _ _ _ Hr).
Qed.

Lemma trimChars_fixed (l a b : list ascii) (x y : ascii) :
  l = x :: a -> l = b ++ [y] ->
  isWhiteSpace x = false -> isWhiteSpace y = false ->
  trimChars l = l.
Proof.
  intros E1 E2 Hx Hy. unfold trimChars.
  rewrite E1 at 1. rewrite (@dropWhile_stop _ _ x a Hx), <- E1.
  rewrite E2 at 1. rewrite rev_app_distr. cbn [rev app].
  rewrite (@dropWhile_stop _ _ y (rev b) Hy). cbn [rev].
  now rewrite rev_involutive.
Qed.

Lemma normalizeWhitespace_chars (l : list ascii) :
  trimChars (collapseRuns (trimChars l)) = collapseRuns (trimChars l).
Proof.
  destruct (trimChars_ends l) as [-> | (x & r & y & r' & E1 & E2 & Hx & Hy)];
    [reflexivity |].
  apply (@trimChars_fixed _ (replaceRuns isWhiteSpace false r)
           (replaceRuns isWhiteSpace false r') x y); auto.
  - rewrite E1. unfold collapseRuns. cbn [replaceRuns]. now rewrite Hx.
  - rewrite E2. unfold collapseRuns. now apply replaceRuns_app_last.
Qed.

Lemma normalizeWhitespace_idem (text : string) :
  TextNormalizer.normalizeWhitespace (TextNormalizer.normalizeWhitespace text)
  = TextNormalizer.normalizeWhitespace text.
Proof.
  unfold TextNormalizer.normalizeWhitespace. rewrite chars_str.
  rewrite normalizeWhitespace_chars. unfold collapseRuns.
  rewrite replaceRuns_idem; [reflexivity | reflexivity | discriminate].
Qed.

(** X25. [normalizeWhitespace] is idempotent, and whatever
    [normalizeText] returns, under any configuration, is already
    normalized: trimmed, with single spaces between the words. *)
Theorem X25_whitespace_normal_form
        (text : string) (fullConfig : TextNormalizer.NormalizationConfig) :
  TextNormalizer.normalizeWhitespace (TextNormalizer.normalizeWhitespace text)
  = TextNormalizer.normalizeWhitespace text
  /\ TextNormalizer.normalizeWhitespace
       (TextNormalizer.normalizeText text fullConfig)
     = TextNormalizer.normalizeText text fullConfig
  /\ trim (TextNormalizer.normalizeText text fullConfig)
     = TextNormalizer.normalizeText text fullConfig.
Proof.
  split; [apply normalizeWhitespace_idem |].
  split; [unfold TextNormalizer.normalizeText; apply normalizeWhitespace_idem |].
  unfold TextNormalizer.normalizeText, TextNormalizer.normalizeWhitespace, trim.
  rewrite chars_str. now rewrite normalizeWhitespace_chars.
Qed.

Section AlphabetFacts.
Variable Q : ascii -> bool.
Hypothesis Q_space : Q " "%char = true.

Lemma replaceRuns_all (p : ascii -> bool) (l : list ascii) :
  (forall c, In c l -> p c = false -> Q c = true) ->
  forall b, forallb Q (replaceRuns p b l) = true.
Proof.
  induction l as [| c r IH]; intros H b; [reflexivity |].
  cbn [replaceRuns].
  assert (Hr : forall c', In c' r -> p c' = false -> Q c' = true)
    by (intros c' I; apply H; now right).
  destruct (p c) eqn:Pc.
  - destruct b; cbn [forallb]; rewrite ?Q_space; now apply IH.
  - cbn [forallb]. rewrite (H c (or_introl eq_refl) Pc). now apply IH.
Qed.

Lemma dropWhile_all_kept (p : ascii -> bool) (l : list ascii) :
  forallb Q l = true -> forallb Q (dropWhile p l) = true.
Proof.
  induction l as [| c r IH]; intros H; [reflexivity |].
  cbn [dropWhile]. destruct (p c); [| exact H].
  cbn in H. apply andb_true_iff in H. now apply IH.
Qed.

Lemma rev_all (l : list ascii) :
  forallb Q l = true -> forallb Q (rev l) = true.
Proof.
  rewrite !forallb_forall. intros H c I. apply H. now apply in_rev.
Qed.

Lemma trimChars_all (l : list ascii) :
  forallb Q l = true -> forallb Q (trimChars l) = true.
Proof.
  intros H. unfold trimChars.
  now apply rev_all, dropWhile_all_kept, rev_all, dropWhile_all_kept.
Qed.

Lemma normalizeWhitespace_all (text : string) :
  forallb Q (chars text) = true ->
  forallb Q (chars (TextNormalizer.normalizeWhitespace text)) = true.
Proof.
  intros H. unfold TextNormalizer.normalizeWhitespace, collapseRuns.
  rewrite chars_str. apply replaceRuns_all.
  intros c I _. apply trimChars_all in H. rewrite forallb_forall in H.
  now apply H.
Qed.

Lemma splitRuns_all (l : list ascii) :
  forallb Q l = true ->
  forall acc b,
    forallb Q acc = true ->
    forallb (forallb Q) (splitRuns acc b l) = true.
Proof.
  induction l as [| c r IH]; intros H acc b Ha; cbn [splitRuns].
  - cbn. now rewrite rev_all.
  - cbn in H. apply andb_true_iff in H. destruct H as [Hc Hr].
    destruct (isWhiteSpace c).
    + destruct b; [now apply IH |].
      cbn [forallb]. rewrite rev_all by exact Ha. now apply IH.
    + apply IH; [exact Hr |]. cbn. now rewrite Hc.
Qed.

Lemma joinSpace_all (ws : list (list ascii)) :
  forallb (forallb Q) ws = true -> forallb Q (joinSpace ws) = true.
Proof.
  induction ws as [| w rest IH]; intros H; [reflexivity |].
  cbn in H. apply andb_true_iff in H. destruct H as [Hw Hr].
  cbn [joinSpace]. destruct rest as [| w' rest']; [exact Hw |].
  rewrite forallb_app, Hw. cbn [forallb andb]. rewrite Q_space.
  now apply IH.
Qed.

Lemma filter_all {A : Type} (P keep : A -> bool) (l : list A) :
  forallb P l = true -> forallb P (filter keep l) = true.
Proof.
  rewrite !forallb_forall. intros H x I. apply filter_In in I. now apply H.
Qed.

Lemma filtered_words_all (keep : string -> bool) (text : string) :
  forallb Q (chars text) = true ->
  forallb Q (chars (TextNormalizer.joinWords
                      (filter keep (TextNormalizer.splitWords text)))) = true.
Proof.
  intros H. unfold TextNormalizer.joinWords, TextNormalizer.splitWords.
  rewrite chars_str. apply joinSpace_all.
  rewrite forallb_forall. intros w I.
  apply in_map_iff in I. destruct I as (s & <- & I).
  apply filter_In in I. destruct I as [I _].
  apply in_map_iff in I. destruct I as (w & <- & I).
  rewrite chars_str.
  pose proof (@splitRuns_all (chars text) H [] false eq_refl) as S.
  rewrite forallb_forall in S. now apply S.
Qed.

Lemma removeArticles_all (text : string) :
  forallb Q (chars text) = true ->
  forallb Q (chars (TextNormalizer.removeArticles text)) = true.
Proof.
  intros H. unfold TextNormalizer.removeArticles.
  destruct (_ <? _)%nat; [now apply filtered_words_all | exact H].
Qed.

Lemma removeStopWords_all (text : string) :
  forallb Q (chars text) = true ->
  forallb Q (chars (TextNormalizer.removeStopWords text)) = true.
Proof. intros H. now apply filtered_words_all. Qed.

End AlphabetFacts.

Lemma lowered_word_char (c : ascii) :
  isWordChar (toLowerChar c) = true ->
  inMatchingAlphabet (toLowerChar c) = true.
Proof.
  destruct c as [[] [] [] [] [] [] [] []]; vm_compute; congruence.
Qed.

Lemma word_char_wordOrSpace (c : ascii) :
  TextNormalizer.keptByPunctuation c = true ->
  TextNormalizer.isHyphenOrApostrophe c = false ->
  isWhiteSpace c = false ->
  isWordChar c = true.
Proof.
  unfold TextNormalizer.keptByPunctuation, TextNormalizer.isHyphenOrApostrophe.
  intros K H W. rewrite W, orb_false_r in K.
  apply orb_false_iff in H. destruct H as [H1 H2].
  rewrite H1, H2, !orb_false_r in K. exact K.
Qed.

(** The characters that [removePunctuation] lets through. *)
Lemma removePunctuation_all (Q : ascii -> bool) (text : string) :
  Q " "%char = true ->
  (forall c, In c (chars text) -> isWordChar c = true -> Q c = true) ->
  forallb Q (chars (TextNormalizer.removePunctuation text)) = true.
Proof.
  intros Sp H. unfold TextNormalizer.removePunctuation, collapseRuns.
  rewrite chars_str. apply replaceRuns_all; [exact Sp |].
  intros c I W.
  assert (G : forallb (fun c => isWhiteSpace c || Q c)
                (replaceRuns TextNormalizer.isHyphenOrApostrophe false
                   (map (fun c => if TextNormalizer.keptByPunctuation c
                                  then c else " "%char) (chars text)))
              = true).
  { apply replaceRuns_all; [reflexivity |].
    intros c' I' HA. apply in_map_iff in I'. destruct I' as (c0 & E & I0).
    destruct (TextNormalizer.keptByPunctuation c0) eqn:K;
      [| now subst c'].
    subst c'. destruct (isWhiteSpace c0) eqn:W0; [reflexivity |].
    cbn [orb]. apply H; [exact I0 |].
    now apply word_char_wordOrSpace. }
  rewrite forallb_forall in G. specialize (G c I).
  now rewrite W in G.
Qed.

(** X26. The alphabet of the normalized texts: [removePunctuation]
    returns word characters and spaces only, and [normalizeForMatching]
    returns only lower-case letters, digits, underscores and spaces. *)
Theorem X26_normalized_alphabet (text : string) :
  forallb wordOrSpace (chars (TextNormalizer.removePunctuation text)) = true
  /\ forallb inMatchingAlphabet
       (chars (TextNormalizer.normalizeForMatching text)) = true.
Proof.
  split.
  - apply removePunctuation_all; [reflexivity |].
    intros c _ W. unfold wordOrSpace. now rewrite W.
  - unfold TextNormalizer.normalizeForMatching, TextNormalizer.normalizeText.
    cbn [TextNormalizer.cfg_convertUnicode TextNormalizer.cfg_removeAccents
         TextNormalizer.cfg_lowercase TextNormalizer.cfg_removePunctuation
         TextNormalizer.cfg_normalizeWhitespace
         TextNormalizer.cfg_removeArticles
         TextNormalizer.cfg_removeStopWords].
    unfold TextNormalizer.convertUnicode, TextNormalizer.removeAccents.
    apply normalizeWhitespace_all; [reflexivity |].
    apply removeArticles_all; [reflexivity |].
    apply normalizeWhitespace_all; [reflexivity |].
    apply removePunctuation_all; [reflexivity |].
    intros c I W. unfold toLowerCase in I. rewrite chars_str in I.
    apply in_map_iff in I. destruct I as (c0 & <- & _).
    now apply lowered_word_char.
Qed.

(** ** The cached matcher over any sequence of calls *)

Section StoredValues.
Context {T : Type}.
Variable P : string -> T -> Prop.
Implicit Types (c : LRUCache.t T) (k key : string).

Lemma valuesSatisfy_cache c c' :
  LRUCache.cache c' = LRUCache.cache c ->
  valuesSatisfy P c -> valuesSatisfy P c'.
Proof. unfold valuesSatisfy. intros E. now rewrite E. Qed.

Lemma valuesSatisfy_delete c c' key :
  LRUCache.cache c' = JSMap.delete key (LRUCache.cache c) ->
  valuesSatisfy P c -> valuesSatisfy P c'.
Proof.
  unfold valuesSatisfy. intros E H k e. rewrite E.
  destruct (String.eqb_spec k key) as [-> | N].
  - now rewrite get_delete_same.
  - rewrite get_delete_other by exact N. apply H.
Qed.

Lemma valuesSatisfy_put c c' key (entry : LRUCache.CacheEntry T) :
  LRUCache.cache c' = JSMap.set key entry (LRUCache.cache c) ->
  P key (LRUCache.value entry) ->
  valuesSatisfy P c -> valuesSatisfy P c'.
Proof.
  unfold valuesSatisfy. intros E Pk H k e. rewrite E.
  destruct (String.eqb_spec k key) as [-> | N].
  - rewrite get_set_same. now intros [= <-].
  - rewrite get_set_other by exact N. apply H.
Qed.

Lemma valuesSatisfy_get c now key :
  valuesSatisfy P c -> valuesSatisfy P (snd (LRUCache.get c now key)).
Proof.
  intros H. unfold LRUCache.get.
  destruct (JSMap.get key (LRUCache.cache c)) as [entry |] eqn:G.
  - destruct (LRUCache.isExpired now entry); cbn [snd].
    + apply (@valuesSatisfy_delete c _ key); [| exact H].
      now rewrite cache_recordMiss.
    + eapply (@valuesSatisfy_put c _ key); [| | exact H].
      * rewrite cache_recordHit. reflexivity.
      * cbn [LRUCache.value]. exact (H key entry G).
  - cbn [snd]. apply (@valuesSatisfy_cache c); [| exact H].
    apply cache_recordMiss.
Qed.

Lemma valuesSatisfy_set c now key (v : T) ttl :
  P key v -> valuesSatisfy P c ->
  valuesSatisfy P (LRUCache.set c now key v ttl).
Proof.
  intros Pk H. unfold LRUCache.set.
  destruct (JSMap.has key (LRUCache.cache c)).
  - eapply (@valuesSatisfy_put c _ key); [reflexivity | exact Pk | exact H].
  - match goal with
    | |- context [if ?b then LRUCache.evictLRU c else c] =>
        set (c1 := if b then LRUCache.evictLRU c else c)
    end.
    assert (H1 : valuesSatisfy P c1).
    { subst c1. destruct (_ <=? _); [| exact H].
      destruct (cache_evictLRU c) as [E | [lruKey E]].
      - now apply (@valuesSatisfy_cache c).
      - now apply (@valuesSatisfy_delete c _ lruKey). }
    eapply (@valuesSatisfy_put c1 _ key); [reflexivity | exact Pk | exact H1].
Qed.

Lemma valuesSatisfy_invalidateKeys c (entityId : string) :
  valuesSatisfy P c ->
  valuesSatisfy P (MatcherCache.invalidateKeys c entityId).
Proof.
  unfold valuesSatisfy. intros H k e. rewrite get_invalidateKeys.
  destruct (includes k entityId); [discriminate | apply H].
Qed.

Lemma valuesSatisfy_hit c now key (v : T) :
  valuesSatisfy P c -> fst (LRUCache.get c now key) = Some v -> P key v.
Proof.
  intros H. rewrite get_result.
  destruct (JSMap.get key (LRUCache.cache c)) as [entry |] eqn:G;
    [| discriminate].
  destruct (LRUCache.isExpired now entry); [discriminate |].
  intros [= <-]. exact (H key entry G).
Qed.

End StoredValues.

Lemma chars_append (a b : string) :
  chars (a ++ b)%string = chars a ++ chars b.
Proof.
  unfold chars. induction a as [| c a IH]; cbn; [reflexivity |].
  now rewrite IH.
Qed.

Lemma chars_eq (a b : string) : chars a = chars b -> a = b.
Proof.
  unfold chars. intros E.
  rewrite <- (string_of_list_ascii_of_string a),
          <- (string_of_list_ascii_of_string b).
  now rewrite E.
Qed.

Section CallFacts.
Variable hashConfig : MatchConfig -> string.
Variable cfg : MatchConfig.
Variable artists : list MatchableArtist.

(** Two queries with the same artist key have the same lowercased,
    trimmed form. *)
Lemma artist_key_inj (q q' : string) :
  MatcherCache.generateArtistCacheKey hashConfig q cfg
  = MatcherCache.generateArtistCacheKey hashConfig q' cfg ->
  trim (toLowerCase q) = trim (toLowerCase q').
Proof.
  unfold MatcherCache.generateArtistCacheKey. intros E.
  apply (f_equal chars) in E. rewrite !chars_append in E.
  apply app_inv_head in E. rewrite !app_assoc in E.
  apply app_inv_tail in E. apply app_inv_tail in E.
  now apply chars_eq.
Qed.

Lemma matchArtists_same_key (q q' : string) :
  trim (toLowerCase q) = trim (toLowerCase q') ->
  EntityMatcher.matchArtists cfg q artists
  = EntityMatcher.matchArtists cfg q' artists.
Proof.
  intros K.
  assert (F : falsy (trim q) = falsy (trim q')) by now apply falsy_trim_key.
  assert (N : Levenshtein.normalizeString (trim q)
              = Levenshtein.normalizeString (trim q')).
  { rewrite !normalizeString_trim. now apply normalizeString_key. }
  unfold EntityMatcher.matchArtists. rewrite F.
  now rewrite (@scoreEntities_same_key _ _ _ _ _ _ _ F N).
Qed.

Lemma stepCall_sound (m : CachedEntityMatcher.t) (call : MatcherCall) :
  CachedEntityMatcher.config m = cfg ->
  valuesSatisfy (artistResultOf hashConfig cfg artists)
    (MatcherCache.artistCache (CachedEntityMatcher.cache m)) ->
  CachedEntityMatcher.config (stepCall hashConfig artists m call) = cfg
  /\ valuesSatisfy (artistResultOf hashConfig cfg artists)
       (MatcherCache.artistCache
          (CachedEntityMatcher.cache (stepCall hashConfig artists m call))).
Proof.
  intros C H.
  destruct call as [tg ts query | tg ts query venues city | ty id |];
    cbn [stepCall].
  - unfold CachedEntityMatcher.matchArtists.
    destruct (falsy (trim query) || _); [cbn [snd]; auto |].
    rewrite getArtistMatches_get.
    destruct (fst (LRUCache.get _ _ _)) as [r |];
      cbn [snd CachedEntityMatcher.config CachedEntityMatcher.cache
           MatcherCache.artistCache MatcherCache.setArtistMatches].
    + split; [exact C |]. now apply valuesSatisfy_get.
    + split; [exact C |]. apply valuesSatisfy_set.
      * exists query. rewrite C. split; reflexivity.
      * now apply valuesSatisfy_get.
  - unfold CachedEntityMatcher.matchVenues.
    destruct (falsy (trim query) || _); [cbn [snd]; auto |].
    rewrite getVenueMatches_get.
    destruct (fst (LRUCache.get _ _ _)) as [r |];
      cbn [snd CachedEntityMatcher.config CachedEntityMatcher.cache
           MatcherCache.artistCache MatcherCache.setVenueMatches];
      auto.
  - unfold CachedEntityMatcher.invalidateCache,
      MatcherCache.invalidateEntity.
    destruct ty;
      cbn [CachedEntityMatcher.config CachedEntityMatcher.cache
           MatcherCache.artistCache]; [| auto].
    split; [exact C |]. now apply valuesSatisfy_invalidateKeys.
  - unfold CachedEntityMatcher.clearCache, MatcherCache.clear.
    cbn [CachedEntityMatcher.config CachedEntityMatcher.cache
         MatcherCache.artistCache].
    split; [exact C |]. intros k e. cbn. discriminate.
Qed.

Lemma runCalls_sound (calls : list MatcherCall) (m : CachedEntityMatcher.t) :
  CachedEntityMatcher.config m = cfg ->
  valuesSatisfy (artistResultOf hashConfig cfg artists)
    (MatcherCache.artistCache (CachedEntityMatcher.cache m)) ->
  CachedEntityMatcher.config (runCalls hashConfig artists m calls) = cfg
  /\ valuesSatisfy (artistResultOf hashConfig cfg artists)
       (MatcherCache.artistCache
          (CachedEntityMatcher.cache (runCalls hashConfig artists m calls))).
Proof.
  revert m. induction calls as [| call rest IH]; intros m C H; [auto |].
  cbn [runCalls fold_left].
  destruct (stepCall_sound m call C H) as [C' H'].
  exact (IH _ C' H').
Qed.

End CallFacts.

(** X27. A cached matcher that is always given the same list of
    artists returns, at every call of [matchArtists], what the
    uncached matcher returns: whatever calls of [matchArtists],
    [matchVenues], [invalidateCache] and [clearCache] came before, at
    whatever times, and whatever was evicted or had expired. *)
Theorem X27_cached_matchArtists_correct
        (hashConfig : MatchConfig -> string) (matchCfg : MatchConfig)
        (cacheCfg : MatcherCache.MatcherCacheConfig)
        (artists : list MatchableArtist) (calls : list MatcherCall)
        (nowGet nowSet : Z) (query : string) :
  fst (CachedEntityMatcher.matchArtists hashConfig
         (runCalls hashConfig artists
            (CachedEntityMatcher.create matchCfg cacheCfg) calls)
         nowGet nowSet query artists)
  = EntityMatcher.matchArtists matchCfg query artists.
Proof.
  destruct (@runCalls_sound hashConfig matchCfg artists calls
              (CachedEntityMatcher.create matchCfg cacheCfg) eq_refl)
    as [C H].
  { intros k e. cbn. discriminate. }
  set (m := runCalls hashConfig artists
              (CachedEntityMatcher.create matchCfg cacheCfg) calls) in *.
  destruct (falsy (trim query) || (List.length artists =? 0)%nat) eqn:G.
  - unfold CachedEntityMatcher.matchArtists, EntityMatcher.matchArtists.
    rewrite G. reflexivity.
  - rewrite cached_matchArtists_fst by exact G. rewrite C.
    destruct (fst (LRUCache.get _ _ _)) as [r |] eqn:E; [| reflexivity].
    destruct (@valuesSatisfy_hit _ _ _ _ _ _ H E) as (q & K & ->).
    apply matchArtists_same_key. symmetry.
    now apply (@artist_key_inj hashConfig matchCfg).
Qed.

(** ** The venue key *)

Lemma stored_entry_hit {T : Type} (c : LRUCache.t T) (now now' : Z)
      (key : string) (v : T) :
  now' <= now + LRUCache.defaultTTL (LRUCache.config c) ->
  fst (LRUCache.get (LRUCache.set c now key v None) now' key) = Some v.
Proof.
  intros Fresh. rewrite get_result, get_after_set.
  unfold LRUCache.isExpired, storedEntry.
  cbn [LRUCache.expiresAt LRUCache.value].
  destruct (0 <? _); [| reflexivity].
  destruct (Z.ltb_spec (now + LRUCache.defaultTTL (LRUCache.config c)) now');
    [lia | reflexivity].
Qed.

Lemma trim_fixed_chars (s : string) :
  trim s = s -> trimChars (chars s) = chars s.
Proof.
  unfold trim. intros E. apply (f_equal chars) in E.
  now rewrite chars_str in E.
Qed.

(** Joining two trimmed texts with a colon gives a trimmed text. *)
Lemma trimChars_joined (a b : list ascii) :
  trimChars a = a -> trimChars b = b -> b <> [] ->
  trimChars (a ++ ":"%char :: b) = a ++ ":"%char :: b.
Proof.
  intros Ea Eb Nb.
  destruct (trimChars_ends b) as [Z | (x & r & y & r' & _ & E2 & _ & Hy)];
    [congruence |].
  rewrite Eb in E2.
  destruct (trimChars_ends a) as [Z | (x' & s & _ & _ & E1 & _ & Hx & _)].
  - rewrite Ea in Z. subst a. cbn [app].
    apply (@trimChars_fixed _ b (":"%char :: r') ":"%char y);
      [reflexivity | now rewrite E2 | reflexivity | exact Hy].
  - rewrite Ea in E1.
    apply (@trimChars_fixed _ (s ++ ":"%char :: b) (a ++ ":"%char :: r') x' y);
      [now rewrite E1 | | exact Hx | exact Hy].
    rewrite E2, <- app_assoc. reflexivity.
Qed.

Lemma venue_key_joined (hashConfig : MatchConfig -> string)
      (cfg : MatchConfig) (q f : string) :
  trim q = q -> trim f = f -> falsy f = false ->
  MatcherCache.generateVenueCacheKey hashConfig (q ++ ":" ++ f) cfg None
  = MatcherCache.generateVenueCacheKey hashConfig q cfg (Some f).
Proof.
  intros Tq Tf Ff. apply trim_fixed_chars in Tq. apply trim_fixed_chars in Tf.
  assert (Nf : chars f <> []) by (destruct f; [discriminate Ff | discriminate]).
  unfold MatcherCache.generateVenueCacheKey. rewrite Ff.
  rewrite !queryKey_chars, !trimChars_map_lower, Tq, Tf.
  rewrite !chars_append. change (chars ":") with [":"%char].
  cbn [app]. rewrite (trimChars_joined Tq Tf Nf).
  apply chars_eq. rewrite !chars_append, !chars_str, map_app.
  cbn [map]. change (chars EmptyString) with (@nil ascii).
  change (chars ":") with [":"%char].
  change (toLowerChar ":"%char) with ":"%char.
  cbn [app]. rewrite <- !app_assoc. reflexivity.
Qed.

(** X28. The venue key joins the query and the city filter with a
    colon, so it does not tell a query that contains a colon from a
    query with a filter: the query [q:f] without filter has the key of
    the query [q] with the filter [f].  A cached matcher that has
    answered the first therefore answers the second with the stored
    result of the first, while the entry is fresh. *)
Theorem X28_venue_key_collision
        (hashConfig : MatchConfig -> string) (matchCfg : MatchConfig)
        (cacheCfg : MatcherCache.MatcherCacheConfig) (q f : string)
        (venues venues' : list MatchableVenue) (t1 t2 t3 t4 : Z) :
  trim q = q -> falsy q = false ->
  trim f = f -> falsy f = false ->
  venues <> [] -> venues' <> [] ->
  t3 <= t2 + MatcherCache.venueCacheTTL cacheCfg ->
  MatcherCache.generateVenueCacheKey hashConfig (q ++ ":" ++ f) matchCfg None
  = MatcherCache.generateVenueCacheKey hashConfig q matchCfg (Some f)
  /\ fst (CachedEntityMatcher.matchVenues hashConfig
            (snd (CachedEntityMatcher.matchVenues hashConfig
                    (CachedEntityMatcher.create matchCfg cacheCfg)
                    t1 t2 (q ++ ":" ++ f) venues None))
            t3 t4 q venues' (Some f))
     = EntityMatcher.matchVenues matchCfg (q ++ ":" ++ f) venues None.
Proof.
  intros Tq Fq Tf Ff Nv Nv' Fresh.
  pose proof (venue_key_joined hashConfig matchCfg Tq Tf Ff) as K.
  split; [exact K |].
  assert (G' : falsy (trim q) || (List.length venues' =? 0)%nat = false).
  { rewrite Tq, Fq. destruct venues'; [congruence | reflexivity]. }
  assert (G : falsy (trim (q ++ ":" ++ f))
              || (List.length venues =? 0)%nat = false).
  { apply orb_false_iff. split; [| destruct venues; [congruence | reflexivity]].
    apply trim_fixed_chars in Tq. apply trim_fixed_chars in Tf.
    assert (Nf : chars f <> [])
      by (destruct f; [discriminate Ff | discriminate]).
    unfold trim. rewrite !chars_append. change (chars ":") with [":"%char].
    cbn [app]. rewrite (trimChars_joined Tq Tf Nf).
    destruct (chars q); reflexivity. }
  destruct (@cached_matchVenues_miss hashConfig
              (CachedEntityMatcher.create matchCfg cacheCfg)
              t1 t2 (q ++ ":" ++ f)%string venues None G eq_refl) as [S C].
  change (CachedEntityMatcher.config
            (CachedEntityMatcher.create matchCfg cacheCfg))
    with matchCfg in S, C.
  rewrite cached_matchVenues_fst by exact G'. rewrite C, <- K, S.
  rewrite stored_entry_hit; [reflexivity |].
  unfold LRUCache.get. cbn [CachedEntityMatcher.create
    CachedEntityMatcher.cache MatcherCache.create MatcherCache.venueCache
    LRUCache.create LRUCache.cache JSMap.get snd].
  rewrite config_recordMiss. exact Fresh.
Qed.

Lemma X28_venue_key_collision_witness :
  MatcherCache.generateVenueCacheKey (fun _ => "h"%string)
    ("forum" ++ ":" ++ "la") DEFAULT_MATCH_CONFIG None
  = MatcherCache.generateVenueCacheKey (fun _ => "h"%string)
      "forum" DEFAULT_MATCH_CONFIG (Some "la"%string)
  /\ fst (CachedEntityMatcher.matchVenues (fun _ => "h"%string)
            (snd (CachedEntityMatcher.matchVenues (fun _ => "h"%string)
                    (CachedEntityMatcher.create DEFAULT_MATCH_CONFIG
                       (MatcherCache.mkConfig 10 300000 60000 true
                          300000 300000 300000 false []))
                    0 0 ("forum" ++ ":" ++ "la")
                    [mkVenue "v1" "Forum" None "LA"] None))
            1 1 "forum"
            [mkVenue "v1" "Forum" None "LA"]
            (Some "la"%string))
     = EntityMatcher.matchVenues DEFAULT_MATCH_CONFIG ("forum" ++ ":" ++ "la")
         [mkVenue "v1" "Forum" None "LA"] None.
Proof.
  apply (@X28_venue_key_collision (fun _ => "h"%string) DEFAULT_MATCH_CONFIG
           (MatcherCache.mkConfig 10 300000 60000 true
              300000 300000 300000 false [])
           "forum" "la"
           [mkVenue "v1" "Forum" None "LA"]
           [mkVenue "v1" "Forum" None "LA"] 0 0 1 1).
  - reflexivity.
  - reflexivity.
  - reflexivity.
  - reflexivity.
  - discriminate.
  - discriminate.
  - cbn. lia.
Defined.

(** ** The batch call of the cached matcher *)

Section BatchFacts.
Variable hashConfig : MatchConfig -> string.

(** The cached [matchVenues] leaves the artist cache alone. *)
Lemma cached_matchVenues_artistCache (m : CachedEntityMatcher.t) (tg ts : Z)
      (query : string) (venues : list MatchableVenue)
      (cityFilter : option string) :
  MatcherCache.artistCache
    (CachedEntityMatcher.cache
       (snd (CachedEntityMatcher.matchVenues hashConfig m tg ts query venues
                                             cityFilter)))
  = MatcherCache.artistCache (CachedEntityMatcher.cache m).
Proof.
  unfold CachedEntityMatcher.matchVenues.
  destruct (falsy (trim query) || _); [reflexivity |].
  rewrite getVenueMatches_get.
  destruct (fst (LRUCache.get _ _ _)); reflexivity.
Qed.

Lemma cached_matchArtists_no_artists (m : CachedEntityMatcher.t) (tg ts : Z)
      (query : string) :
  CachedEntityMatcher.matchArtists hashConfig m tg ts query [] = ([], m).
Proof.
  unfold CachedEntityMatcher.matchArtists. cbn [List.length Nat.eqb].
  now rewrite orb_true_r.
Qed.

(** One pass of the batch loop without artists, for a query that has
    no fresh entry: the empty list is stored under the artist key. *)
Lemma batchStep_without_artists (m : CachedEntityMatcher.t)
      (clk : CachedEntityMatcherBatch.BatchClock)
      (results : list (string * (list ArtistMatch * list VenueMatch)))
      (venues : list MatchableVenue) (query : string) :
  falsy (trim query) = false ->
  fst (LRUCache.get
         (MatcherCache.artistCache (CachedEntityMatcher.cache m))
         (CachedEntityMatcherBatch.atGetArtists clk)
         (MatcherCache.generateArtistCacheKey hashConfig query
            (CachedEntityMatcher.config m))) = None ->
  let out := CachedEntityMatcherBatch.batchStep hashConfig [] venues clk
               results m query in
  MatcherCache.artistCache (CachedEntityMatcher.cache (snd out))
  = LRUCache.set
      (snd (LRUCache.get
              (MatcherCache.artistCache (CachedEntityMatcher.cache m))
              (CachedEntityMatcherBatch.atGetArtists clk)
              (MatcherCache.generateArtistCacheKey hashConfig query
                 (CachedEntityMatcher.config m))))
      (CachedEntityMatcherBatch.atSetArtists clk)
      (MatcherCache.generateArtistCacheKey hashConfig query
         (CachedEntityMatcher.config m))
      [] None
  /\ CachedEntityMatcher.config (snd out) = CachedEntityMatcher.config m
  /\ exists venueResults,
       fst out = JSMap.set query ([], venueResults) results.
Proof.
  intros Fq Miss. cbv zeta. unfold CachedEntityMatcherBatch.batchStep.
  rewrite Fq, getArtistMatches_get, Miss, getVenueMatches_get.
  cbv iota beta. rewrite !cached_matchArtists_no_artists.
  destruct (fst (LRUCache.get _ (CachedEntityMatcherBatch.atGetVenues clk) _))
    as [v |].
  - cbn [fst snd CachedEntityMatcher.cache CachedEntityMatcher.config
         MatcherCache.artistCache MatcherCache.setArtistMatches].
    split; [reflexivity |]. split; [reflexivity |]. now exists v.
  - match goal with
    | |- context [CachedEntityMatcher.matchVenues hashConfig ?m2 ?a ?b ?q
                    ?vs ?c] =>
        pose proof (cached_matchVenues_artistCache m2 a b q vs c) as A;
        destruct (CachedEntityMatcher.matchVenues hashConfig m2 a b q vs c)
          as [vr m4]
    end.
    cbn [fst snd CachedEntityMatcher.cache CachedEntityMatcher.config
         MatcherCache.artistCache MatcherCache.setArtistMatches
         MatcherCache.setVenueMatches] in *.
    rewrite A. split; [reflexivity |]. split; [reflexivity |]. now exists vr.
Qed.

End BatchFacts.

(** X29. [batchMatch] of the cached matcher, called without artists
    (the default of the parameter), stores the empty list under the
    artist key of each query it has no entry for.  After such a call on
    a new matcher, [matchArtists] answers that query with the empty
    list while the entry is fresh, whatever artists it is given. *)
Theorem X29_batchMatch_without_artists
        (hashConfig : MatchConfig -> string) (matchCfg : MatchConfig)
        (cacheCfg : MatcherCache.MatcherCacheConfig)
        (clockAt : nat -> CachedEntityMatcherBatch.BatchClock)
        (query query' : string) (venues : list MatchableVenue)
        (artists' : list MatchableArtist) (t3 t4 : Z) :
  falsy (trim query) = false ->
  trim (toLowerCase query') = trim (toLowerCase query) ->
  artists' <> [] ->
  t3 <= CachedEntityMatcherBatch.atSetArtists (clockAt 0%nat)
        + MatcherCache.artistCacheTTL cacheCfg ->
  let out := CachedEntityMatcherBatch.batchMatch hashConfig
               (CachedEntityMatcher.create matchCfg cacheCfg) clockAt
               [query] [] venues in
  (exists venueResults, fst out = [(query, ([], venueResults))])
  /\ fst (CachedEntityMatcher.matchArtists hashConfig (snd out) t3 t4
            query' artists')
     = [].
Proof.
  intros Fq K Na Fresh. cbv zeta.
  unfold CachedEntityMatcherBatch.batchMatch.
  cbn [CachedEntityMatcherBatch.batchLoop].
  destruct (@batchStep_without_artists hashConfig
              (CachedEntityMatcher.create matchCfg cacheCfg) (clockAt 0%nat)
              [] venues query Fq eq_refl) as (S & C & vr & R).
  destruct (CachedEntityMatcherBatch.batchStep hashConfig [] venues
              (clockAt 0%nat) [] (CachedEntityMatcher.create matchCfg cacheCfg)
              query) as [results m'].
  cbn [fst snd] in *.
  split; [exists vr; exact R |].
  assert (G' : falsy (trim query') || (List.length artists' =? 0)%nat = false).
  { rewrite (@falsy_trim_key query' query K), Fq.
    destruct artists'; [congruence | reflexivity]. }
  rewrite cached_matchArtists_fst by exact G'. rewrite C, S.
  change (CachedEntityMatcher.config
            (CachedEntityMatcher.create matchCfg cacheCfg)) with matchCfg.
  unfold MatcherCache.generateArtistCacheKey. rewrite K.
  rewrite stored_entry_hit; [reflexivity |].
  unfold LRUCache.get. cbn [CachedEntityMatcher.create
    CachedEntityMatcher.cache MatcherCache.create MatcherCache.artistCache
    LRUCache.create LRUCache.cache JSMap.get snd].
  rewrite config_recordMiss. exact Fresh.
Qed.

Lemma X29_batchMatch_without_artists_witness :
  (exists venueResults,
      fst (CachedEntityMatcherBatch.batchMatch (fun _ => "h"%string)
             (CachedEntityMatcher.create DEFAULT_MATCH_CONFIG
                (MatcherCache.mkConfig 10 300000 60000 true
                   300000 300000 300000 false []))
             (fun _ => CachedEntityMatcherBatch.mkBatchClock 0 0 0 0 0 0 0 0)
             ["queen"%string] [] [])
      = [("queen"%string, ([], venueResults))])
  /\ fst (CachedEntityMatcher.matchArtists (fun _ => "h"%string)
            (snd (CachedEntityMatcherBatch.batchMatch (fun _ => "h"%string)
                    (CachedEntityMatcher.create DEFAULT_MATCH_CONFIG
                       (MatcherCache.mkConfig 10 300000 60000 true
                          300000 300000 300000 false []))
                    (fun _ =>
                       CachedEntityMatcherBatch.mkBatchClock 0 0 0 0 0 0 0 0)
                    ["queen"%string] [] []))
            1 1 "Queen" [mkArtist "a1" "Queen" None])
     = [].
Proof.
  apply (@X29_batchMatch_without_artists (fun _ => "h"%string)
           DEFAULT_MATCH_CONFIG
           (MatcherCache.mkConfig 10 300000 60000 true
              300000 300000 300000 false [])
           (fun _ => CachedEntityMatcherBatch.mkBatchClock 0 0 0 0 0 0 0 0)
           "queen" "Queen" [] [mkArtist "a1" "Queen" None] 1 1).
  - reflexivity.
  - reflexivity.
  - discriminate.
  - cbn. lia.
Defined.

(** ** What an eviction removes *)

Lemma runOps_capacity {T : Type} (cfg : LRUCache.LRUCacheConfig)
      (ops : list (CacheOp T)) (c : LRUCache.t T) :
  1 <= LRUCache.maxSize cfg ->
  Forall (fun op => setsEmptyKey op = false) ops ->
  wellFormed c -> LRUCache.config c = cfg -> keysNonEmpty c ->
  JSMap.size (LRUCache.cache c) <= LRUCache.maxSize cfg ->
  wellFormed (runOps c ops) /\ LRUCache.config (runOps c ops) = cfg
  /\ keysNonEmpty (runOps c ops)
  /\ JSMap.size (LRUCache.cache (runOps c ops)) <= LRUCache.maxSize cfg.
Proof.
  intros Pos F. revert c.
  induction F as [| op rest Hop F IH]; intros c W C K Cap; [auto |].
  cbn. fold (runOps (stepOp c op) rest).
  destruct (@stepOp_capacity _ cfg c op Pos Hop W C K Cap) as [K' Cap'].
  apply IH; auto.
  - now apply stepOp_wellFormed.
  - now rewrite stepOp_config.
Qed.

(** X30. When a cache that is full takes a new key, it evicts exactly
    one entry, the one whose key is first in the access order: that key
    is gone, the new key holds the new entry, every other key keeps its
    entry, the counter of evictions goes up by one and the size stays
    the same.  (The capacity is at least 1 and no value was stored
    under the empty string.) *)
Theorem X30_eviction_exact
        {T : Type} (cfg : LRUCache.LRUCacheConfig)
        (history : list (CacheOp T)) (now : Z) (key : string) (v : T)
        (ttl : option Z) :
  1 <= LRUCache.maxSize cfg ->
  Forall (fun op => setsEmptyKey op = false) history ->
  JSMap.has key (LRUCache.cache (runOps (LRUCache.create cfg) history))
  = false ->
  LRUCache.size (runOps (LRUCache.create cfg) history)
  = LRUCache.maxSize cfg ->
  let c := runOps (LRUCache.create cfg) history in
  let c' := LRUCache.set c now key v ttl in
  exists lruKey rest,
    LRUCache.accessOrder c = lruKey :: rest
    /\ (forall k,
          JSMap.get k (LRUCache.cache c')
          = if String.eqb k key then Some (storedEntry c now v ttl)
            else if String.eqb k lruKey then None
                 else JSMap.get k (LRUCache.cache c))
    /\ LRUCache.accessOrder c' = rest ++ [key]
    /\ LRUCache.evictions (LRUCache.getMetrics c')
       = LRUCache.evictions (LRUCache.getMetrics c) + 1
    /\ LRUCache.size c' = LRUCache.size c.
Proof.
  intros Pos F New Full. cbv zeta.
  destruct (@runOps_capacity T cfg history (LRUCache.create cfg) Pos F
              (create_wellFormed cfg) eq_refl)
    as (W & C & K & _).
  { constructor. }
  { cbn. lia. }
  remember (runOps (LRUCache.create cfg) history) as c eqn:Hc. clear Hc.
  pose proof (wellFormed_lengths W) as L.
  destruct W as (N1 & N2 & EO).
  unfold LRUCache.size in *. rewrite size_keys in Full.
  destruct (LRUCache.accessOrder c) as [| lruKey rest] eqn:EA;
    [cbn in L; lia |].
  assert (I : In lruKey (JSMap.keys (LRUCache.cache c)))
    by (apply EO; now left).
  assert (NF : falsy lruKey = false).
  { unfold keysNonEmpty in K. rewrite Forall_forall in K. now apply K. }
  assert (NK : ~ In key (JSMap.keys (LRUCache.cache c)))
    by now apply has_false_keys.
  assert (Nkl : key <> lruKey) by (intros ->; contradiction).
  inversion N1 as [| x l NIr N1r]. subst x l.
  assert (NR : ~ In key rest).
  { intros IR. apply NK, EO. now right. }
  exists lruKey, rest. split; [reflexivity |].
  unfold LRUCache.set, storedEntry, LRUCache.getMetrics. rewrite New.
  assert (B : (LRUCache.maxSize (LRUCache.config c)
               <=? JSMap.size (LRUCache.cache c)) = true).
  { apply Z.leb_le. rewrite C, size_keys. lia. }
  rewrite B. unfold LRUCache.evictLRU. rewrite EA, NF.
  cbn [LRUCache.cache LRUCache.accessOrder LRUCache.config LRUCache.metrics
       LRUCache.dropKey LRUCache.putEntry LRUCache.appendOrder
       LRUCache.updateSize LRUCache.withMetrics LRUCache.evictions].
  split; [| split; [| split]].
  - intros k. destruct (String.eqb_spec k key) as [-> | Nk].
    + apply get_set_same.
    + rewrite get_set_other by exact Nk.
      destruct (String.eqb_spec k lruKey) as [-> | Nl];
        [apply get_delete_same | now apply get_delete_other].
  - rewrite EA, (@setDelete_head lruKey rest NIr).
    now apply setAdd_fresh.
  - reflexivity.
  - rewrite !size_keys. rewrite set_fresh.
    + unfold JSMap.keys. rewrite map_app, length_app. cbn [map List.length].
      fold (JSMap.keys (JSMap.delete lruKey (LRUCache.cache c))).
      rewrite keys_delete.
      pose proof (@setDelete_length _ _ N2 I) as SL.
      unfold JSMap.keys in *. lia.
    + rewrite keys_delete, setDelete_In. tauto.
Qed.

Lemma X30_eviction_exact_witness :
  exists lruKey rest,
    LRUCache.accessOrder
      (runOps (LRUCache.create (LRUCache.mkConfig 2 0 0 true))
              [OpSet 0 "a" 1 None; OpSet 1 "b" 2 None; OpGet 2 "a"])
    = lruKey :: rest
    /\ (forall k,
          JSMap.get k
            (LRUCache.cache
               (LRUCache.set
                  (runOps (LRUCache.create (LRUCache.mkConfig 2 0 0 true))
                          [OpSet 0 "a" 1 None; OpSet 1 "b" 2 None;
                           OpGet 2 "a"])
                  3 "c" 3 None))
          = if String.eqb k "c"
            then Some (storedEntry
                         (runOps
                            (LRUCache.create (LRUCache.mkConfig 2 0 0 true))
                            [OpSet 0 "a" 1 None; OpSet 1 "b" 2 None;
                             OpGet 2 "a"])
                         3 3 None)
            else if String.eqb k lruKey then None
                 else JSMap.get k
                        (LRUCache.cache
                           (runOps
                              (LRUCache.create (LRUCache.mkConfig 2 0 0 true))
                              [OpSet 0 "a" 1 None; OpSet 1 "b" 2 None;
                               OpGet 2 "a"])))
    /\ LRUCache.accessOrder
         (LRUCache.set
            (runOps (LRUCache.create (LRUCache.mkConfig 2 0 0 true))
                    [OpSet 0 "a" 1 None; OpSet 1 "b" 2 None; OpGet 2 "a"])
            3 "c" 3 None)
       = rest ++ ["c"%string]
    /\ LRUCache.evictions
         (LRUCache.getMetrics
            (LRUCache.set
               (runOps (LRUCache.create (LRUCache.mkConfig 2 0 0 true))
                       [OpSet 0 "a" 1 None; OpSet 1 "b" 2 None; OpGet 2 "a"])
               3 "c" 3 None))
       = LRUCache.evictions
           (LRUCache.getMetrics
              (runOps (LRUCache.create (LRUCache.mkConfig 2 0 0 true))
                      [OpSet 0 "a" 1 None; OpSet 1 "b" 2 None; OpGet 2 "a"]))
         + 1
    /\ LRUCache.size
         (LRUCache.set
            (runOps (LRUCache.create (LRUCache.mkConfig 2 0 0 true))
                    [OpSet 0 "a" 1 None; OpSet 1 "b" 2 None; OpGet 2 "a"])
            3 "c" 3 None)
       = LRUCache.size
           (runOps (LRUCache.create (LRUCache.mkConfig 2 0 0 true))
                   [OpSet 0 "a" 1 None; OpSet 1 "b" 2 None; OpGet 2 "a"]).
Proof.
  apply (@X30_eviction_exact Z (LRUCache.mkConfig 2 0 0 true)
           [OpSet 0 "a" 1 None; OpSet 1 "b" 2 None; OpGet 2 "a"]
           3 "c" 3 None).
  - cbn. lia.
  - repeat constructor.
  - reflexivity.
  - reflexivity.
Defined.
